(** * Multi-layer analysis orchestrator of codebase-analyzer-mcp

    A shallow embedding of the parts of the analyzer that drive the
    surface -> structural -> semantic -> synthesis pipeline:

    - [src/core/output-formatter.ts]: [orchestrateAnalysis],
      [analyzeModulesInParallel], [expandAnalysisSection];
    - [src/core/layers/structural.ts]: [analyzeFileWithRegex] (symbol
      scanning), [getLanguageConfig], [getLanguageName], [getLineNumber],
      [analyzeModulesStructurally];
    - the surface and semantic layer ([identifyModules],
      [calculateComplexity], [findEntryPoints], the language breakdown of
      [buildRepositoryMap], [semanticAnalysis]);
    - the disclosure builder ([buildSummary], [buildExpandableSections],
      [expandSection]);
    - [src/core/cache.ts]: [AnalysisCache].

    Strings are ASCII strings; JavaScript numbers are rationals extended
    with NaN and the two infinities. *)

From Stdlib Require Import List Bool Arith Lia ZArith QArith Qround Lqa Permutation Sorted.
From Stdlib Require Import Ascii String.
Import ListNotations.

Open Scope string_scope.
Open Scope list_scope.

(* ------------------------------------------------------------------ *)
(** ** String helpers (the JavaScript string methods the code uses) *)

Module JsString.

Local Open Scope nat_scope.

Definition code (c : ascii) : nat := nat_of_ascii c.

(** The character class [[a-zA-Z0-9]]. *)
Definition is_alnum (c : ascii) : bool :=
  let n := code c in
  ((48 <=? n) && (n <=? 57)) || ((65 <=? n) && (n <=? 90))
  || ((97 <=? n) && (n <=? 122)).

Definition is_upper_letter (c : ascii) : bool :=
  let n := code c in (65 <=? n) && (n <=? 90).

Definition is_lower_letter (c : ascii) : bool :=
  let n := code c in (97 <=? n) && (n <=? 122).

(** The character class [\w]. *)
Definition is_word (c : ascii) : bool := is_alnum c || (code c =? 95).

(** The character class [\s] restricted to ASCII. *)
Definition is_space (c : ascii) : bool :=
  let n := code c in (n =? 32) || ((9 <=? n) && (n <=? 13)).

(** [String.prototype.toLowerCase] / [toUpperCase] on ASCII. *)
Definition lower_char (c : ascii) : ascii :=
  if is_upper_letter c then ascii_of_nat (code c + 32) else c.

Definition upper_char (c : ascii) : ascii :=
  if is_lower_letter c then ascii_of_nat (code c - 32) else c.

Fixpoint map_chars (f : ascii -> ascii) (s : string) : string :=
  match s with
  | EmptyString => EmptyString
  | String c s' => String (f c) (map_chars f s')
  end.

Definition toLowerCase (s : string) : string := map_chars lower_char s.
Definition toUpperCase (s : string) : string := map_chars upper_char s.

(** [s.replace(pat, rep)] with a string pattern: replaces the first
    occurrence only. *)
Fixpoint replace_first (pat rep s : string) : string :=
  if prefix pat s then rep ++ substring (length pat) (length s - length pat) s
  else match s with
       | EmptyString => EmptyString
       | String c s' => String c (replace_first pat rep s')
       end.

(** [s.replace(/x/g, y)] for a one-character class. *)
Definition replace_class (p : ascii -> bool) (rep : ascii) (s : string) : string :=
  map_chars (fun c => if p c then rep else c) s.

(** [s.startsWith(p)], [s.includes(p)]. *)
Definition startsWith (s p : string) : bool := prefix p s.

Fixpoint includes (s p : string) : bool :=
  prefix p s || match s with
                | EmptyString => false
                | String _ s' => includes s' p
                end.

(** [s.split(sep)] for a one-character separator. *)
Fixpoint split_on (sep : ascii) (s : string) : list string :=
  match s with
  | EmptyString => [EmptyString]
  | String c s' =>
      match split_on sep s' with
      | [] => [String c EmptyString]  (* unreachable *)
      | w :: ws => if Ascii.eqb c sep then EmptyString :: w :: ws
                   else String c w :: ws
      end
  end.

Definition slash : ascii := "/"%char.
Definition underscore : ascii := "_"%char.

End JsString.
Import JsString.

(* ------------------------------------------------------------------ *)
(** ** Module-section identifiers (disclosure.ts) *)

Module SectionId.

(** [module.path.replace(/[^a-zA-Z0-9]/g, "_")] *)
Definition sanitize (p : string) : string :=
  replace_class (fun c => negb (is_alnum c)) underscore p.

(** [`module_${...}`] in [buildExpandableSections]. *)
Definition module_section_id (p : string) : string := "module_" ++ sanitize p.

(** [section.id.replace("module_", <empty>).replace(/_/g, "/")] in
    [expandSection]. *)
Definition module_path_of_id (id : string) : string :=
  replace_class (fun c => Ascii.eqb c underscore) slash
    (replace_first "module_" EmptyString id).

End SectionId.

(* ------------------------------------------------------------------ *)
(** ** JavaScript numbers *)

Module JsNum.

(** A JavaScript number: a finite value (kept exact), NaN, or an
    infinity. *)
Inductive num : Type :=
| Fin (q : Q)
| NaN
| PInf
| NInf.

Definition of_nat (n : nat) : num := Fin (inject_Z (Z.of_nat n)).

(** [a + b] *)
Definition add (a b : num) : num :=
  match a, b with
  | Fin x, Fin y => Fin (x + y)
  | NaN, _ | _, NaN => NaN
  | PInf, NInf | NInf, PInf => NaN
  | PInf, _ | _, PInf => PInf
  | NInf, _ | _, NInf => NInf
  end.

Definition sign_inf (pos : bool) : num := if pos then PInf else NInf.

(** [a * b] *)
Definition mul (a b : num) : num :=
  match a, b with
  | Fin x, Fin y => Fin (x * y)
  | NaN, _ | _, NaN => NaN
  | Fin x, PInf | PInf, Fin x =>
      if Qeq_bool x 0 then NaN else sign_inf (Qle_bool 0 x)
  | Fin x, NInf | NInf, Fin x =>
      if Qeq_bool x 0 then NaN else sign_inf (negb (Qle_bool 0 x))
  | PInf, PInf | NInf, NInf => PInf
  | PInf, NInf | NInf, PInf => NInf
  end.

(** [a / b]; [x / 0] is NaN for [x = 0] and an infinity otherwise. *)
Definition div (a b : num) : num :=
  match a, b with
  | Fin x, Fin y =>
      if Qeq_bool y 0 then
        (if Qeq_bool x 0 then NaN else sign_inf (Qle_bool 0 x))
      else Fin (x / y)
  | NaN, _ | _, NaN => NaN
  | Fin _, (PInf | NInf) => Fin 0
  | (PInf | NInf), (PInf | NInf) => NaN
  | PInf, Fin y => sign_inf (Qle_bool 0 y)
  | NInf, Fin y => sign_inf (negb (Qle_bool 0 y))
  end.

(** The order [a < b] (false as soon as one side is NaN). *)
Definition lt (a b : num) : bool :=
  match a, b with
  | NaN, _ | _, NaN => false
  | Fin x, Fin y => negb (Qle_bool y x)
  | NInf, NInf => false
  | NInf, _ => true
  | _, PInf => match a with PInf => false | _ => true end
  | _, _ => false
  end.

(** [Math.min(a, b)] *)
Definition min (a b : num) : num :=
  match a, b with
  | NaN, _ | _, NaN => NaN
  | _, _ => if lt b a then b else a
  end.

(** [Math.max(...xs)]; [Math.max()] is [-Infinity]. *)
Definition max_list (xs : list num) : num :=
  fold_left (fun m x => match m, x with
                        | NaN, _ | _, NaN => NaN
                        | _, _ => if lt m x then x else m
                        end) xs NInf.

(** [Math.round] *)
Definition round (a : num) : num :=
  match a with
  | Fin x => Fin (inject_Z (Qfloor (x + (1 # 2))))
  | _ => a
  end.

End JsNum.

(* ------------------------------------------------------------------ *)
(** ** Data model (types.ts) *)

Inductive analysis_depth := Surface | Standard | Deep.

Definition depth_eqb (a b : analysis_depth) : bool :=
  match a, b with
  | Surface, Surface | Standard, Standard | Deep, Deep => true
  | _, _ => false
  end.

Inductive module_type := MCore | MUtil | MTest | MConfig | MUnknown.

Definition module_type_eqb (a b : module_type) : bool :=
  match a, b with
  | MCore, MCore | MUtil, MUtil | MTest, MTest
  | MConfig, MConfig | MUnknown, MUnknown => true
  | _, _ => false
  end.

(** [FileInfo] of the surface layer. *)
Record file_info := {
  fi_relativePath : string;
  fi_size : nat;
  fi_language : string;
}.

(** [ModuleIdentification] *)
Record module_id := {
  m_path : string;
  m_name : string;
  m_type : module_type;
  m_fileCount : nat;
  m_primaryLanguage : string;
}.

Inductive symbol_type :=
| SFunction | SClass | SInterface | SType | SVariable | SConstant | SMethod.

(** [ExtractedSymbol] *)
Record symbol := {
  sym_name : string;
  sym_type : symbol_type;
  sym_file : string;
  sym_line : nat;
  sym_exported : bool;
}.

(** [ImportRelation] *)
Record import_rel := {
  imp_from : string;
  imp_to : string;
  imp_importedNames : list string;
  imp_isDefault : bool;
  imp_isType : bool;
}.

Record complexity_metrics := {
  cyclomaticComplexity : nat;
  linesOfCode : nat;
  functionCount : nat;
  classCount : nat;
}.

(** [StructuralAnalysis] *)
Record structural_report := {
  modulePath : string;
  symbols : list symbol;
  imports : list import_rel;
  exports : list string;
  complexity : complexity_metrics;
}.

(** [SemanticAnalysis]; patterns, data models and endpoints are kept by
    name, which is all the disclosure builder reads of them here. *)
Record semantic_report := {
  sem_architectureType : string;
  sem_patterns : list string;
  sem_dataModels : list string;
  sem_apiEndpoints : list string;
}.

(** [RepositoryMap] (the fields the orchestrator reads). *)
Record repository_map := {
  rm_name : string;
  rm_fileCount : nat;
  rm_estimatedTokens : Z;
}.

(** [SurfaceAnalysis] *)
Record surface_report := {
  repositoryMap : repository_map;
  identifiedModules : list module_id;
  surface_complexity : JsNum.num;
}.

(* ------------------------------------------------------------------ *)
(** ** Surface layer: modules and complexity score *)

Module SurfaceLayer.
Import JsNum.

(** An association list used as a JavaScript [Map]: [set] updates an
    existing key in place and appends a new key at the end. *)
Fixpoint map_get {V} (k : string) (m : list (string * V)) : option V :=
  match m with
  | [] => None
  | (k', v) :: m' => if String.eqb k k' then Some v else map_get k m'
  end.

Fixpoint map_set {V} (k : string) (v : V) (m : list (string * V))
  : list (string * V) :=
  match m with
  | [] => [(k, v)]
  | (k', v') :: m' =>
      if String.eqb k k' then (k', v) :: m' else (k', v') :: map_set k v m'
  end.

(** [MODULE_TYPE_PATTERNS], in [Object.entries] order. *)
Definition MODULE_TYPE_PATTERNS : list (module_type * (string -> bool)) :=
  [ (MCore, fun p => startsWith p "src/core" || startsWith p "src/lib"
                     || startsWith p "lib/" || startsWith p "pkg/"
                     || startsWith p "internal/");
    (MUtil, fun p => includes p "util/" || includes p "utils/"
                     || includes p "helper/" || includes p "helpers/"
                     || includes p "common/" || includes p "shared/");
    (MTest, fun p => includes p "test/" || includes p "tests/"
                     || includes p "spec/" || includes p "specs/"
                     || includes p "__tests__/" || includes p ".test."
                     || includes p ".spec.");
    (MConfig, fun p => includes p "config/" || includes p ".config."
                       || includes p "settings/") ].

(** [PRIORITY_DIRECTORIES] and [isPriorityDirectory] (file-filter.ts). *)
Definition PRIORITY_DIRECTORIES : list string :=
  ["src"; "lib"; "app"; "pages"; "components"; "api"; "routes";
   "controllers"; "models"; "services"; "utils"; "helpers"; "core";
   "pkg"; "internal"; "cmd"].

Definition isPriorityDirectory (dirPath : string) : bool :=
  existsb (fun part => existsb (String.eqb part) PRIORITY_DIRECTORIES)
    (split_on slash dirPath).

Definition classify (relativePath : string) : module_type :=
  match find (fun tp => snd tp relativePath) MODULE_TYPE_PATTERNS with
  | Some (t, _) => t
  | None => MUnknown
  end.

(** One step of the [for (const file of files)] loop of
    [identifyModules]: the map goes from module path to
    (files, type). *)
Definition identify_step (acc : list (string * (list file_info * module_type)))
    (file : file_info) : list (string * (list file_info * module_type)) :=
  let parts := split_on slash (fi_relativePath file) in
  if Nat.ltb (List.length parts) 2 then acc
  else
    let modulePath := hd EmptyString parts in
    let moduleType0 := classify (fi_relativePath file) in
    let moduleType :=
      if isPriorityDirectory modulePath then MCore else moduleType0 in
    let '(fs, t) :=
      match map_get modulePath acc with
      | Some e => e
      | None => ([], moduleType)
      end in
    let t' := if negb (module_type_eqb moduleType MUnknown)
                 && module_type_eqb t MUnknown then moduleType else t in
    map_set modulePath (fs ++ [file], t') acc.

(** Most frequent language; the first one seen wins ties (stable sort,
    descending count, first element). *)
Definition primaryLanguage (files : list file_info) : string :=
  let counts :=
    fold_left (fun m f =>
                 let c := match map_get (fi_language f) m with
                          | Some c => c | None => 0%nat end in
                 map_set (fi_language f) (S c) m) files [] in
  match fold_left (fun best lc =>
                     match best with
                     | None => Some lc
                     | Some b => if Nat.ltb (snd b) (snd lc) then Some lc
                                 else Some b
                     end) counts None with
  | Some (l, _) => l
  | None => "Unknown"
  end.

Definition typePriority (t : module_type) : nat :=
  match t with
  | MCore => 0 | MUtil => 1 | MConfig => 2 | MUnknown => 3 | MTest => 4
  end.

(** The comparator [(a, b) => typeOrder || b.fileCount - a.fileCount]. *)
Definition module_cmp (a b : module_id) : Z :=
  let typeOrder := (Z.of_nat (typePriority (m_type a))
                    - Z.of_nat (typePriority (m_type b)))%Z in
  if negb (Z.eqb typeOrder 0) then typeOrder
  else (Z.of_nat (m_fileCount b) - Z.of_nat (m_fileCount a))%Z.

(** [Array.prototype.sort] is stable: an insertion sort that puts a new
    element after every element it does not strictly precede. *)
Fixpoint insert_stable {A} (cmp : A -> A -> Z) (x : A) (l : list A) : list A :=
  match l with
  | [] => [x]
  | y :: l' => if Z.ltb (cmp x y) 0 then x :: y :: l'
               else y :: insert_stable cmp x l'
  end.

Definition sort_stable {A} (cmp : A -> A -> Z) (l : list A) : list A :=
  fold_left (fun acc x => insert_stable cmp x acc) l [].

(** [identifyModules] *)
Definition identifyModules (files : list file_info) : list module_id :=
  let modules := fold_left identify_step files [] in
  sort_stable module_cmp
    (filter (fun m => Nat.ltb 0 (m_fileCount m))
       (map (fun '(path, (fs, t)) =>
               {| m_path := path; m_name := path; m_type := t;
                  m_fileCount := List.length fs;
                  m_primaryLanguage := primaryLanguage fs |}) modules)).

(** [new Set(xs).size] *)
Definition distinct_count (xs : list string) : nat :=
  List.length (fold_left (fun acc x =>
                            if existsb (String.eqb x) acc then acc
                            else acc ++ [x]) xs []).

(** [calculateComplexity] *)
Definition calculateComplexity (files : list file_info)
    (modules : list module_id) : num :=
  let score := Fin 0 in
  let fileCountScore := min (Fin 30) (div (of_nat (List.length files)) (Fin 100)) in
  let score := add score fileCountScore in
  let moduleScore := min (Fin 20) (of_nat (List.length modules * 2)%nat) in
  let score := add score moduleScore in
  let langScore :=
    min (Fin 20) (of_nat (distinct_count (map fi_language files) * 4)%nat) in
  let score := add score langScore in
  let avgSize := div (of_nat (fold_left (fun s f => (s + fi_size f)%nat) files 0%nat))
                     (of_nat (List.length files)) in
  let sizeScore := min (Fin 15) (div avgSize (Fin 1000)) in
  let score := add score sizeScore in
  let maxDepth := max_list (map (fun f => of_nat (List.length
                                  (split_on slash (fi_relativePath f)))) files) in
  let depthScore := min (Fin 15) (mul maxDepth (Fin 2)) in
  let score := add score depthScore in
  round (min (Fin 100) score).

End SurfaceLayer.

(* ------------------------------------------------------------------ *)
(** ** Surface layer: entry points *)

Module EntryPoints.
Import JsString.

(** [ENTRY_POINT_PATTERNS] *)
Definition ENTRY_POINT_PATTERNS : list string :=
  ["src/index.ts"; "src/index.js"; "src/main.ts"; "src/main.js";
   "index.ts"; "index.js"; "main.ts"; "main.js"; "app.ts"; "app.js";
   "server.ts"; "server.js";
   "main.py"; "__main__.py"; "app.py"; "wsgi.py"; "asgi.py"; "manage.py";
   "main.go"; "cmd/*/main.go";
   "src/main.rs"; "src/lib.rs";
   "config.ru"; "bin/rails";
   "**/Main.java"; "**/Application.java"].

(** The regular expression
    ["^" + pattern.replace(/\*/g, "[^/]+").replace(/\//g, "\\/") + "$"]
    for the characters the patterns use (letters, [_], [.], [/], [*]):
    [*] becomes [[^/]+], the unescaped [.] matches any character but a
    line terminator, [/] and every other character match themselves. *)
Inductive gtok := GLit (c : ascii) | GDot | GNotSlashPlus.

Fixpoint glob_compile (p : string) : list gtok :=
  match p with
  | EmptyString => []
  | String c p' =>
      (if Ascii.eqb c "*"%char then GNotSlashPlus
       else if Ascii.eqb c "."%char then GDot
       else GLit c) :: glob_compile p'
  end.

Definition is_line_terminator (c : ascii) : bool :=
  Nat.eqb (nat_of_ascii c) 10 || Nat.eqb (nat_of_ascii c) 13.

(** Anchored match ([^...$]) of the compiled pattern against a whole string. *)
Fixpoint glob_match (ts : list gtok) (s : string) : bool :=
  match ts with
  | [] => match s with EmptyString => true | String _ _ => false end
  | GLit c :: ts' =>
      match s with
      | String c' s' => Ascii.eqb c c' && glob_match ts' s'
      | EmptyString => false
      end
  | GDot :: ts' =>
      match s with
      | String c' s' => negb (is_line_terminator c') && glob_match ts' s'
      | EmptyString => false
      end
  | GNotSlashPlus :: ts' =>
      (fix go (s : string) : bool :=
         match s with
         | EmptyString => false
         | String c' s' => negb (Ascii.eqb c' slash) && (glob_match ts' s' || go s')
         end) s
  end.

(** [s.endsWith(p)] *)
Definition endsWith (s p : string) : bool :=
  Nat.leb (length p) (length s) && String.eqb (substring (length s - length p) (length p) s) p.

(** One iteration of the pattern loop of [findEntryPoints]. *)
Definition entry_match (relativePath pattern : string) : bool :=
  if includes pattern "*" then glob_match (glob_compile pattern) relativePath
  else String.eqb relativePath pattern || endsWith relativePath ("/" ++ pattern).

(** [[...new Set(xs)]]: first occurrences, in order. *)
Definition set_from (xs : list string) : list string :=
  fold_left (fun acc x => if existsb (String.eqb x) acc then acc else acc ++ [x]) xs [].

(** [findEntryPoints]: a file is pushed at most once ([break] after the
    first matching pattern); duplicates dropped, at most 10 kept. *)
Definition findEntryPoints (files : list file_info) : list string :=
  let entryPoints :=
    fold_left (fun acc f =>
                 if existsb (entry_match (fi_relativePath f)) ENTRY_POINT_PATTERNS
                 then acc ++ [fi_relativePath f] else acc) files [] in
  firstn 10 (set_from entryPoints).

End EntryPoints.

(* ------------------------------------------------------------------ *)
(** ** Surface layer: language breakdown of the repository map *)

Module RepositoryMap.
Import JsNum SurfaceLayer.

(** [LanguageBreakdown], without the [extensions] list (the model of a
    file does not carry its extension). *)
Record language_breakdown := {
  lb_language : string;
  lb_fileCount : nat;
  lb_percentage : num;
}.

(** The [languageCounts] loop of [buildRepositoryMap]: files whose
    language is ["Other"] are skipped. *)
Definition language_counts (files : list file_info) : list (string * nat) :=
  fold_left (fun m f =>
               if String.eqb (fi_language f) "Other" then m
               else let c := match map_get (fi_language f) m with
                             | Some c => c | None => 0%nat end in
                    map_set (fi_language f) (S c) m) files [].

(** The [languages] field of [buildRepositoryMap]. *)
Definition buildLanguages (files : list file_info) : list language_breakdown :=
  let languageCounts := language_counts files in
  let totalCodeFiles := fold_left (fun sum v => (sum + snd v)%nat) languageCounts 0%nat in
  sort_stable (fun a b => (Z.of_nat (lb_fileCount b) - Z.of_nat (lb_fileCount a))%Z)
    (map (fun '(language, count) =>
            {| lb_language := language; lb_fileCount := count;
               lb_percentage := round (mul (div (of_nat count) (of_nat totalCodeFiles))
                                           (Fin 100)) |})
         languageCounts).

End RepositoryMap.

(* ------------------------------------------------------------------ *)
(** ** Backtracking regular expressions (the patterns of structural.ts) *)

Module Regex.

(** The fragment of JavaScript regular expressions the symbol patterns
    use: literals, sequence, alternation, [?], [+] and [*] over a
    character class, and a capture group. *)
Inductive re : Type :=
| Lit (w : string)
| Seq (a b : re)
| Alt (a b : re)
| Opt (a : re)
| Plus (p : ascii -> bool)
| Star (p : ascii -> bool)
| Cap (a : re).

(** The longest run of class characters at the head of [s]. *)
Fixpoint span (p : ascii -> bool) (s : string) : string * string :=
  match s with
  | String c s' => if p c then let '(t, r) := span p s' in (String c t, r)
                   else (EmptyString, s)
  | EmptyString => (EmptyString, EmptyString)
  end.

(** Every split of the class run, longest first (greedy order). *)
Fixpoint splits (t rest : string) : list (string * string) :=
  match t with
  | EmptyString => [(EmptyString, rest)]
  | String c t' =>
      map (fun '(a, b) => (String c a, b)) (splits t' rest)
      ++ [(EmptyString, (t ++ rest)%string)]
  end.

(** All matches of [r] at the head of [s] in the order the JavaScript
    backtracking engine tries them: (captures, matched text, rest). *)
Fixpoint run (r : re) (s : string) : list (list string * string * string) :=
  match r with
  | Lit w => if prefix w s
             then [([], w, substring (length w) (length s - length w) s)]
             else []
  | Seq a b =>
      flat_map (fun '(c1, m1, r1) =>
                  map (fun '(c2, m2, r2) => (c1 ++ c2, (m1 ++ m2)%string, r2)) (run b r1))
        (run a s)
  | Alt a b => run a s ++ run b s
  | Opt a => run a s ++ [([], EmptyString, s)]
  | Plus p =>
      let '(t, rest) := span p s in
      filter (fun '(_, m, _) => negb (String.eqb m EmptyString))
        (map (fun '(m, r') => ([], m, r')) (splits t rest))
  | Star p =>
      let '(t, rest) := span p s in map (fun '(m, r') => ([], m, r')) (splits t rest)
  | Cap a => map (fun '(c, m, r') => (m :: c, m, r')) (run a s)
  end.

Definition drop_str (i : nat) (s : string) : string :=
  substring i (length s - i) s.

(** The [while ((match = re.exec(content)) !== null)] loop of a global
    regular expression: each match is (index, [match[0]], captures), the
    search resumes at the end of the match. *)
Fixpoint scan (r : re) (fuel i : nat) (s : string)
  : list (nat * string * list string) :=
  match fuel with
  | O => []
  | S fuel' =>
      match run r s with
      | (caps, m, rest) :: _ =>
          if String.eqb m EmptyString then
            match s with
            | EmptyString => []
            | String _ s' => scan r fuel' (S i) s'
            end
          else (i, m, caps) :: scan r fuel' (i + length m) rest
      | [] =>
          match s with
          | EmptyString => []
          | String _ s' => scan r fuel' (S i) s'
          end
      end
  end.

Definition exec_all (r : re) (s : string) : list (nat * string * list string) :=
  scan r (S (length s)) 0 s.

Definition ws : re := Plus is_space.
Definition word : re := Plus is_word.

Fixpoint alts (ws : list string) : re :=
  match ws with
  | [] => Alt (Lit EmptyString) (Lit EmptyString)
  | [w] => Lit w
  | w :: ws' => Alt (Lit w) (alts ws')
  end.

End Regex.

(* ------------------------------------------------------------------ *)
(** ** Structural layer: regex symbol extraction (structural.ts) *)

Module Structural.
Import Regex.

(** [/(?:export\s+)?<rest>/] *)
Definition export_opt (rest : re) : re := Seq (Opt (Seq (Lit "export") ws)) rest.

(** [/(?:export\s+)?(?:async\s+)?(?:function|def|func|fn)\s+(\w+)/g] *)
Definition functionPattern : re :=
  export_opt (Seq (Opt (Seq (Lit "async") ws))
                  (Seq (alts ["function"; "def"; "func"; "fn"])
                       (Seq ws (Cap word)))).

(** [/(?:export\s+)?class\s+(\w+)/g] and friends. *)
Definition classPattern : re := export_opt (Seq (Lit "class") (Seq ws (Cap word))).
Definition interfacePattern : re :=
  export_opt (Seq (Lit "interface") (Seq ws (Cap word))).
Definition typePattern : re := export_opt (Seq (Lit "type") (Seq ws (Cap word))).

(** [/(?:export\s+)?const\s+(\w+)\s*=/g] *)
Definition constPattern : re :=
  export_opt (Seq (Lit "const") (Seq ws (Seq (Cap word) (Seq (Star is_space) (Lit "="))))).

(** [LanguageConfig], restricted to what [analyzeFileWithRegex] reads
    for symbols and exports (import extraction is not modelled). *)
Record language_config := {
  cfg_extensions : list string;
  cfg_exportPattern : option re;
}.

Definition ts_exportPattern : re :=
  Seq (Lit "export") (Seq ws (Seq (Opt (Seq (Lit "default") ws))
    (Seq (alts ["function"; "class"; "const"; "let"; "var"; "type"; "interface"])
         (Seq ws (Cap word))))).

Definition js_exportPattern : re :=
  Seq (Lit "export") (Seq ws (Seq (Opt (Seq (Lit "default") ws))
    (Seq (alts ["function"; "class"; "const"; "let"; "var"])
         (Seq ws (Cap word))))).

(** [/__all__\s*=\s*\[([^\]]+)\]/] *)
Definition py_exportPattern : re :=
  Seq (Lit "__all__") (Seq (Star is_space) (Seq (Lit "=") (Seq (Star is_space)
    (Seq (Lit "[") (Seq (Cap (Plus (fun c => negb (Ascii.eqb c "]"%char))))
                        (Lit "]")))))).

(** [LANGUAGE_CONFIGS] *)
Definition LANGUAGE_CONFIGS : list (string * language_config) :=
  [ ("typescript", {| cfg_extensions := [".ts"; ".tsx"];
                      cfg_exportPattern := Some ts_exportPattern |});
    ("javascript", {| cfg_extensions := [".js"; ".jsx"; ".mjs"; ".cjs"];
                      cfg_exportPattern := Some js_exportPattern |});
    ("python", {| cfg_extensions := [".py"; ".pyi"];
                  cfg_exportPattern := Some py_exportPattern |});
    ("go", {| cfg_extensions := [".go"]; cfg_exportPattern := None |});
    ("rust", {| cfg_extensions := [".rs"]; cfg_exportPattern := None |});
    ("java", {| cfg_extensions := [".java"]; cfg_exportPattern := None |});
    ("ruby", {| cfg_extensions := [".rb"; ".rake"]; cfg_exportPattern := None |}) ].

(** [getLanguageConfig] *)
Definition getLanguageConfig (ext : string) : option language_config :=
  option_map snd (find (fun nc => existsb (String.eqb (toLowerCase ext))
                                    (cfg_extensions (snd nc))) LANGUAGE_CONFIGS).

(** [getLanguageName] *)
Definition getLanguageName (ext : string) : option string :=
  option_map fst (find (fun nc => existsb (String.eqb (toLowerCase ext))
                                    (cfg_extensions (snd nc))) LANGUAGE_CONFIGS).

(** [getLineNumber(content, index)]: [content.slice(0, index).split("\n").length] *)
Definition getLineNumber (content : string) (index : nat) : nat :=
  List.length (split_on (ascii_of_nat 10) (substring 0 index content)).

Definition capture1 (caps : list string) : string := hd EmptyString caps.

(** One [while (exec)] loop pushing a symbol of type [t] per match. *)
Definition symbols_of (pat : re) (t : symbol_type) (filePath content : string)
  : list symbol :=
  map (fun '(i, m0, caps) =>
         {| sym_name := capture1 caps; sym_type := t; sym_file := filePath;
            sym_line := getLineNumber content i;
            sym_exported := startsWith m0 "export" |})
    (exec_all pat content).

(** The constants loop keeps only exported or upper-case names. *)
Definition constants_of (filePath content : string) : list symbol :=
  map (fun '(i, m0, caps) =>
         {| sym_name := capture1 caps; sym_type := SConstant; sym_file := filePath;
            sym_line := getLineNumber content i;
            sym_exported := startsWith m0 "export" |})
    (filter (fun '(_, m0, caps) =>
               startsWith m0 "export"
               || String.eqb (capture1 caps) (toUpperCase (capture1 caps)))
       (exec_all constPattern content)).

Record file_symbols := {
  fs_symbols : list symbol;
  fs_exports : list string;
}.

(** [analyzeFileWithRegex] (symbols and exports). *)
Definition analyzeFileWithRegex (filePath content : string)
    (config : language_config) : file_symbols :=
  let syms := symbols_of functionPattern SFunction filePath content
              ++ symbols_of classPattern SClass filePath content
              ++ symbols_of interfacePattern SInterface filePath content
              ++ symbols_of typePattern SType filePath content
              ++ constants_of filePath content in
  let exps0 :=
    match cfg_exportPattern config with
    | Some p => flat_map (fun '(_, _, caps) =>
                            match caps with
                            | c :: _ => if String.eqb c EmptyString then [] else [c]
                            | [] => []
                            end) (exec_all p content)
    | None => []
    end in
  let exps := fold_left (fun acc s =>
                           if sym_exported s && negb (existsb (String.eqb (sym_name s)) acc)
                           then acc ++ [sym_name s] else acc) syms exps0 in
  {| fs_symbols := syms; fs_exports := exps |}.

End Structural.

(* ------------------------------------------------------------------ *)
(** ** Disclosure builder (disclosure.ts) *)

Module Disclosure.
Import SectionId.

Inductive section_type := StModule | StPattern | StDatamodel | StApi | StCustom.

(** The [detail] / [full] payloads the builder and [expandSection]
    attach; the semantic payloads are kept by item name. *)
Inductive payload :=
| PModuleOverview (exps : list string) (cx : complexity_metrics)
    (symbolCount importCount : nat)
| PModuleDetail (exps : list string) (cx : complexity_metrics)
    (topSymbols : list (string * symbol_type * nat)) (importCount : nat)
| PModuleFull (r : structural_report)
| PItems (count : nat) (top : list string)
| PNames (items : list string).

(** [ExpandableSection] (the display summary and the token-cost estimate,
    both derived from JSON sizes, are not modelled). *)
Record section := {
  sec_id : string;
  sec_title : string;
  sec_type : section_type;
  sec_canExpand : bool;
  sec_detail : option payload;
  sec_full : option payload;
}.

Inductive complexity_level := Low | Medium | High.

Record summary := {
  architectureType : string;
  summary_complexity : complexity_level;
}.

Inductive warning :=
| WBudget (tokensUsed tokenBudget : Z)
| WFocus (focus : list string)
| WComplexity (c : JsNum.num).

(** [AnalysisResultV2] (timestamp, token cost, duration and agent digest
    are not modelled). *)
Record analysis_result := {
  analysisId : string;
  source : string;
  depth : analysis_depth;
  result_summary : summary;
  sections : list section;
  warnings : option (list warning);
  partialFailures : option (list (string * string));
}.

Definition find_structural (path : string) (structural : list structural_report)
  : option structural_report :=
  find (fun s => String.eqb (modulePath s) path) structural.

Definition module_section (structural : list structural_report) (m : module_id)
  : section :=
  let structuralData := find_structural (m_path m) structural in
  {| sec_id := module_section_id (m_path m);
     sec_title := "Module: " ++ m_name m;
     sec_type := StModule;
     sec_canExpand := match structuralData with Some _ => true | None => false end;
     sec_detail := option_map (fun d => PModuleOverview (exports d) (complexity d)
                                          (List.length (symbols d))
                                          (List.length (imports d))) structuralData;
     sec_full := None |}.

Definition semantic_section (id title : string) (t : section_type)
    (n : nat) (items : list string) : list section :=
  match items with
  | [] => []
  | _ => [{| sec_id := id; sec_title := title; sec_type := t; sec_canExpand := true;
             sec_detail := Some (PItems (List.length items) (firstn n items));
             sec_full := None |}]
  end.

(** [buildExpandableSections] *)
Definition buildExpandableSections (surface : surface_report)
    (structural : list structural_report) (semantic : option semantic_report)
  : list section :=
  map (module_section structural) (firstn 10 (identifiedModules surface))
  ++ match semantic with
     | Some sem =>
         semantic_section "patterns_overview" "Design Patterns" StPattern 5
           (sem_patterns sem)
         ++ semantic_section "data_models" "Data Models" StDatamodel 5
              (sem_dataModels sem)
         ++ semantic_section "api_endpoints" "API Endpoints" StApi 10
              (sem_apiEndpoints sem)
     | None => []
     end.

Definition name_in (names : list string) (m : module_id) : bool :=
  existsb (String.eqb (toLowerCase (m_name m))) names.

(** Architecture type inferred from module names. *)
Definition infer_architecture (modules : list module_id) : string :=
  if existsb (name_in ["controllers"; "routes"; "api"]) modules then "web-application"
  else if existsb (name_in ["components"; "views"]) modules then "component-based"
  else if existsb (name_in ["lib"; "pkg"]) modules then "library"
  else "unknown".

(** [buildSummary] (architecture type and complexity tier). *)
Definition buildSummary (surface : surface_report)
    (semantic : option semantic_report) : summary :=
  let architectureType :=
    match semantic with
    | Some sem => if String.eqb (sem_architectureType sem) EmptyString
                  then infer_architecture (identifiedModules surface)
                  else sem_architectureType sem
    | None => infer_architecture (identifiedModules surface)
    end in
  let c := surface_complexity surface in
  let level :=
    if JsNum.lt c (JsNum.of_nat 30) then Low
    else if JsNum.lt (JsNum.of_nat 70) c then High else Medium in
  {| architectureType := architectureType; summary_complexity := level |}.

(** [buildAnalysisResult] *)
Definition buildAnalysisResult (analysisId source : string) (depth : analysis_depth)
    (surface : surface_report) (structural : list structural_report)
    (semantic : option semantic_report) : analysis_result :=
  {| analysisId := analysisId; source := source; depth := depth;
     result_summary := buildSummary surface semantic;
     sections := buildExpandableSections surface structural semantic;
     warnings := None; partialFailures := None |}.

Inductive level := Detail | Full.

Definition with_detail (s : section) (p : payload) : section :=
  {| sec_id := sec_id s; sec_title := sec_title s; sec_type := sec_type s;
     sec_canExpand := sec_canExpand s; sec_detail := Some p; sec_full := sec_full s |}.

Definition with_full (s : section) (p : payload) : section :=
  {| sec_id := sec_id s; sec_title := sec_title s; sec_type := sec_type s;
     sec_canExpand := sec_canExpand s; sec_detail := sec_detail s; sec_full := Some p |}.

(** [expandSection]; the deep copy of the section is the section value
    itself. *)
Definition expandSection (result : analysis_result) (sectionId : string)
    (lvl : level) (structural : list structural_report)
    (semantic : option semantic_report) : option section :=
  match find (fun s => String.eqb (sec_id s) sectionId) (sections result) with
  | None => None
  | Some section =>
      if negb (sec_canExpand section) then None else
      let expanded := section in
      match sec_type section, semantic with
      | StModule, _ =>
          let path := module_path_of_id (sec_id section) in
          match find_structural path structural with
          | Some d =>
              match lvl with
              | Detail =>
                  Some (with_detail expanded
                          (PModuleDetail (exports d) (complexity d)
                             (map (fun s => (sym_name s, sym_type s, sym_line s))
                                (firstn 20 (symbols d)))
                             (List.length (imports d))))
              | Full => Some (with_full expanded (PModuleFull d))
              end
          | None => Some expanded
          end
      | StPattern, Some sem =>
          Some (match lvl with
                | Detail => with_detail expanded (PNames (firstn 10 (sem_patterns sem)))
                | Full => with_full expanded (PNames (sem_patterns sem))
                end)
      | StDatamodel, Some sem =>
          Some (match lvl with
                | Detail => with_detail expanded (PNames (firstn 10 (sem_dataModels sem)))
                | Full => with_full expanded (PNames (sem_dataModels sem))
                end)
      | StApi, Some sem =>
          Some (match lvl with
                | Detail => with_detail expanded (PNames (firstn 20 (sem_apiEndpoints sem)))
                | Full => with_full expanded (PNames (sem_apiEndpoints sem))
                end)
      | _, _ => Some expanded
      end
  end.

End Disclosure.

(* ------------------------------------------------------------------ *)
(** ** Result cache (cache.ts) *)

Module Cache.

Definition DEFAULT_TTL_MS : Z := 3600000.
Definition MAX_CACHE_ENTRIES : nat := 50.

Section AnalysisCache.

(** The cached value and how [getByAnalysisId] reads its
    [result.analysisId]. *)
Variable V : Type.
Variable analysisId_of : V -> string.

Record entry := {
  key : string;
  value : V;
  createdAt : Z;
  expiresAt : Z;
  meta_source : string;
  meta_commitHash : option string;
  meta_depth : analysis_depth;
}.

(** The private [Map<string, CacheEntry>], in insertion order. *)
Definition cache := list (string * entry).

Fixpoint map_delete (k : string) (c : cache) : cache :=
  match c with
  | [] => []
  | (k', e) :: c' => if String.eqb k k' then c' else (k', e) :: map_delete k c'
  end.

(** [.replace(/\/+$/, <empty>)] *)
Fixpoint strip_trailing_slashes (s : string) : string :=
  match s with
  | EmptyString => EmptyString
  | String c s' =>
      let r := strip_trailing_slashes s' in
      if Ascii.eqb c slash && String.eqb r EmptyString then EmptyString
      else String c r
  end.

(** [generateKey] *)
Definition generateKey (source : string) (commitHash : option string) : string :=
  let normalized :=
    strip_trailing_slashes
      (replace_class (fun c => Ascii.eqb c (ascii_of_nat 92)) slash source) in
  match commitHash with
  | Some (String _ _ as h) => normalized ++ "@" ++ h
  | _ => normalized
  end.

(** The truthiness test [if (oldestKey)] on a [string | null]. *)
Definition truthy_key (k : option string) : bool :=
  match k with
  | Some (String _ _) => true
  | _ => false
  end.

(** [evictOldest]: [oldestTime] starts at [Infinity] (here [None]). *)
Definition oldest (c : cache) : option string * option Z :=
  fold_left (fun '(oldestKey, oldestTime) '(k, e) =>
               let newer := match oldestTime with
                            | None => true
                            | Some t => Z.ltb (createdAt e) t
                            end in
               if newer then (Some k, Some (createdAt e)) else (oldestKey, oldestTime))
    c (None, None).

Definition evictOldest (c : cache) : cache :=
  let oldestKey := fst (oldest c) in
  if truthy_key oldestKey
  then match oldestKey with Some k => map_delete k c | None => c end
  else c.

(** [set(source, data, commitHash, depth)] at time [now]. *)
Definition set (ttlMs now : Z) (source : string) (data : V)
    (commitHash : option string) (depth : analysis_depth) (c : cache) : cache :=
  let c := if Nat.leb MAX_CACHE_ENTRIES (List.length c) then evictOldest c else c in
  let k := generateKey source commitHash in
  let e := {| key := k; value := data; createdAt := now; expiresAt := now + ttlMs;
              meta_source := source; meta_commitHash := commitHash;
              meta_depth := depth |} in
  SurfaceLayer.map_set k e c.

(** [get(source, commitHash)] at time [now]. *)
Definition get (now : Z) (source : string) (commitHash : option string) (c : cache)
  : option V * cache :=
  let k := generateKey source commitHash in
  match SurfaceLayer.map_get k c with
  | None => (None, c)
  | Some e => if Z.ltb (expiresAt e) now then (None, map_delete k c)
              else (Some (value e), c)
  end.

(** [getByAnalysisId(analysisId)] at time [now]. *)
Definition getByAnalysisId (now : Z) (id : string) (c : cache) : option V * cache :=
  match find (fun ke => String.eqb (analysisId_of (value (snd ke))) id) c with
  | None => (None, c)
  | Some (_, e) => if Z.ltb (expiresAt e) now then (None, map_delete (key e) c)
                   else (Some (value e), c)
  end.

(** [invalidate(source, commitHash)]: [Map.delete] reports whether the
    key was present. *)
Definition invalidate (source : string) (commitHash : option string) (c : cache)
  : bool * cache :=
  let k := generateKey source commitHash in
  (match SurfaceLayer.map_get k c with Some _ => true | None => false end,
   map_delete k c).

(** [clearExpired()] at time [now]: one pass over the entries in
    insertion order, deleting each expired one by its key. *)
Definition clearExpired (now : Z) (c : cache) : cache * nat :=
  fold_left (fun '(c', cleared) '(k, e) =>
               if Z.ltb (expiresAt e) now then (map_delete k c', S cleared)
               else (c', cleared))
    c (c, 0%nat).

End AnalysisCache.

Arguments key {V}.
Arguments value {V}.
Arguments createdAt {V}.
Arguments expiresAt {V}.
Arguments map_delete {V}.
Arguments oldest {V}.
Arguments evictOldest {V}.
Arguments set {V}.
Arguments get {V}.
Arguments getByAnalysisId {V}.
Arguments invalidate {V}.
Arguments clearExpired {V}.

End Cache.

(* ------------------------------------------------------------------ *)
(** ** Orchestrator (orchestrateAnalysis and its helpers) *)

Module Orchestrator.
Import Disclosure.

(** [AnalysisCacheData] *)
Record cache_data := {
  cd_result : analysis_result;
  cd_surface : surface_report;
  cd_structural : list structural_report;
  cd_semantic : option semantic_report;
}.

Definition cache := Cache.cache cache_data.

(** The collaborators of one run: the surface scan of the repository,
    the file system seen by the structural batches, the structural
    extractor of a module ([structuralAnalysis], [None] when it
    throws), the credential check and the outcome of the service call
    ([generateJsonWithGemini] with the response transform; [inl] is the
    error message when it throws). *)
Record env := {
  env_repoPath : string;
  env_analysisId : string;
  env_now : Z;
  env_surface : surface_report;
  env_glob : string -> option (list string);
  env_readFile : string -> option string;
  env_extract : module_id -> list (string * string) -> option structural_report;
  env_hasGeminiKey : bool;
  env_gemini : string + semantic_report;
}.

(** [AnalysisOptions]; a [tokenBudget] of 0 stands for an absent one
    ([options.tokenBudget || DEFAULT_TOKEN_BUDGET]). *)
Record options := {
  opt_depth : option analysis_depth;
  opt_focus : list string;
  opt_tokenBudget : Z;
  opt_includeSemantics : bool;
}.

(** Observable steps of a run: the collaborators invoked and the cache
    insertion. *)
Inductive event :=
| EvSurface
| EvExtract (path : string)
| EvSemantic
| EvService (maxOutputTokens : Z)
| EvCacheSet.

Record ostate := {
  os_trace : list event;
  os_warnings : list warning;
  os_failures : list (string * string);
  os_cache : cache;
}.

(** A state monad over the run's trace, its [warnings] and
    [partialFailures] arrays and the shared cache. *)
Definition M (A : Type) := ostate -> A * ostate.

Definition ret {A} (a : A) : M A := fun s => (a, s).
Definition bind {A B} (m : M A) (f : A -> M B) : M B :=
  fun s => let '(a, s') := m s in f a s'.

Notation "x <- m ;; k" := (bind m (fun x => k))
  (at level 61, m at next level, right associativity).
Notation "m ;;; k" := (bind m (fun _ => k)) (at level 61, right associativity).

Definition emit_all (evs : list event) : M unit :=
  fun s => (tt, {| os_trace := os_trace s ++ evs; os_warnings := os_warnings s;
                   os_failures := os_failures s; os_cache := os_cache s |}).
Definition emit (ev : event) : M unit := emit_all [ev].

Definition warn (w : warning) : M unit :=
  fun s => (tt, {| os_trace := os_trace s; os_warnings := os_warnings s ++ [w];
                   os_failures := os_failures s; os_cache := os_cache s |}).

Definition record_failure (layer err : string) : M unit :=
  fun s => (tt, {| os_trace := os_trace s; os_warnings := os_warnings s;
                   os_failures := os_failures s ++ [(layer, err)];
                   os_cache := os_cache s |}).

Definition get_state : M ostate := fun s => (s, s).

Definition cache_set (now : Z) (source : string) (d : cache_data)
    (depth : analysis_depth) : M unit :=
  fun s => (tt, {| os_trace := os_trace s ++ [EvCacheSet]; os_warnings := os_warnings s;
                   os_failures := os_failures s;
                   os_cache := Cache.set Cache.DEFAULT_TTL_MS now source d None depth
                                 (os_cache s) |}).

(** [list.slice(i, i + n)] batches. *)
Fixpoint chunks_fuel {A} (fuel n : nat) (l : list A) : list (list A) :=
  match fuel, l with
  | O, _ | _, [] => []
  | S f, _ => firstn n l :: chunks_fuel f n (skipn n l)
  end.

Definition chunks {A} (n : nat) (l : list A) : list (list A) :=
  chunks_fuel (List.length l) n l.

(** [analyzeModulesStructurally]: per module, the loaded files under its
    path; no files gives no report, a throwing extraction is caught and
    gives no report. *)
Definition module_files (m : module_id) (fileContents : list (string * string))
  : list (string * string) :=
  filter (fun '(p, _) => startsWith p (m_path m ++ "/")%string || String.eqb p (m_path m))
    fileContents.

Definition analyze_one (extract : module_id -> list (string * string) -> option structural_report)
    (fileContents : list (string * string)) (m : module_id)
  : option structural_report * list event :=
  match module_files m fileContents with
  | [] => (None, [])
  | moduleFiles => (extract m moduleFiles, [EvExtract (m_path m)])
  end.

Definition analyzeModulesStructurally
    (extract : module_id -> list (string * string) -> option structural_report)
    (modules : list module_id) (fileContents : list (string * string))
  : list structural_report * list event :=
  fold_left (fun '(results, evs) batch =>
               let outs := map (analyze_one extract fileContents) batch in
               (results ++ flat_map (fun o => match fst o with
                                              | Some r => [r] | None => [] end) outs,
                evs ++ flat_map snd outs))
    (chunks 5 modules) ([], []).

(** The per-batch file loading of [analyzeModulesInParallel] (the
    concurrent loads are taken in module order). *)
Definition load_module (e : env) (fc : list (string * string)) (m : module_id)
  : list (string * string) :=
  match env_glob e (m_path m) with
  | None => fc
  | Some files =>
      fold_left (fun fc file =>
                   let filePath := (m_path m ++ "/" ++ file)%string in
                   match env_readFile e filePath with
                   | Some content =>
                       if Z.ltb (Z.of_nat (String.length content)) 100000
                       then SurfaceLayer.map_set filePath content fc else fc
                   | None => fc
                   end) (firstn 50 files) fc
  end.

Definition MAX_PARALLEL_STRUCTURAL : nat := 5.

(** [analyzeModulesInParallel] *)
Definition analyzeModulesInParallel (e : env) (modules : list module_id)
  : list structural_report * list event :=
  fold_left (fun '(results, evs) batch =>
               let fileContents := fold_left (load_module e) batch [] in
               let '(batchResults, bevs) :=
                 analyzeModulesStructurally (env_extract e) batch fileContents in
               (results ++ batchResults, evs ++ bevs))
    (chunks MAX_PARALLEL_STRUCTURAL modules) ([], []).

(** [f.toLowerCase().replace(/^\/|\/$/g, <empty>)] *)
Definition strip_leading_slash (s : string) : string :=
  match s with
  | String c s' => if Ascii.eqb c slash then s' else s
  | EmptyString => s
  end.

Definition strip_trailing_slash (s : string) : string :=
  let n := String.length s in
  match String.get (n - 1) s with
  | Some c => if Ascii.eqb c slash then substring 0 (n - 1) s else s
  | None => s
  end.

Definition focus_matches (focus : list string) (m : module_id) : bool :=
  existsb (fun f =>
             let focusLower := strip_trailing_slash (strip_leading_slash (toLowerCase f)) in
             let pathLower := toLowerCase (m_path m) in
             let nameLower := toLowerCase (m_name m) in
             includes pathLower focusLower || startsWith pathLower focusLower
             || includes focusLower pathLower || String.eqb nameLower focusLower)
    focus.

(** [list.slice(0, n)] *)
Definition slice0 {A} (n : Z) (l : list A) : list A :=
  if Z.ltb n 0 then firstn (Z.to_nat (Z.of_nat (List.length l) + n)) l
  else firstn (Z.to_nat n) l.

(** [Math.ceil(b / 50000)] *)
Definition ceil_div (b d : Z) : Z := - ((- b) / d).

Definition DEFAULT_TOKEN_BUDGET : Z := 800000.
Definition SEMANTIC_COMPLEXITY_THRESHOLD : nat := 50.

Definition nl : string := String (ascii_of_nat 10) EmptyString.
Definition dq : string := String (ascii_of_nat 34) EmptyString.

(** The error raised by [semanticAnalysis] without [GEMINI_API_KEY]. *)
Definition no_key_message : string :=
  "Semantic analysis (deep depth) requires GEMINI_API_KEY." ++ nl ++ nl ++
  "To set it up, add the env var to your MCP server config in ~/.mcp.json:" ++ nl ++ nl ++
  "  " ++ dq ++ "codebase-analyzer" ++ dq ++ ": {" ++ nl ++
  "    " ++ dq ++ "command" ++ dq ++ ": " ++ dq ++ "npx" ++ dq ++ "," ++ nl ++
  "    " ++ dq ++ "args" ++ dq ++ ": [" ++ dq ++ "-y" ++ dq ++ ", " ++ dq ++
    "codebase-analyzer-mcp" ++ dq ++ "]," ++ nl ++
  "    " ++ dq ++ "env" ++ dq ++ ": { " ++ dq ++ "GEMINI_API_KEY" ++ dq ++ ": " ++ dq ++
    "your_key" ++ dq ++ " }" ++ nl ++
  "  }" ++ nl ++ nl ++
  "Get a free key at https://aistudio.google.com/apikey" ++ nl ++ nl ++
  "Use --depth surface or --depth standard for free analysis without an API key.".

(** [semanticAnalysis]: the credential check comes before the service
    call. *)
Definition semanticAnalysis (e : env) (tokenBudget : Z) : M (string + semantic_report) :=
  if negb (env_hasGeminiKey e) then ret (inl no_key_message)
  else emit (EvService (if Z.eqb tokenBudget 0 then 8192 else tokenBudget)) ;;;
       ret (env_gemini e).

Definition set_reports (r : analysis_result) (ws : list warning)
    (fs : list (string * string)) : analysis_result :=
  {| analysisId := analysisId r; source := source r; depth := depth r;
     result_summary := result_summary r; sections := sections r;
     warnings := match ws with [] => None | _ => Some ws end;
     partialFailures := match fs with [] => None | _ => Some fs end |}.

(** [options.depth || "standard"] *)
Definition effective_depth (o : options) : analysis_depth :=
  match opt_depth o with Some d => d | None => Standard end.

(** [options.tokenBudget || DEFAULT_TOKEN_BUDGET] *)
Definition effective_budget (o : options) : Z :=
  if Z.eqb (opt_tokenBudget o) 0 then DEFAULT_TOKEN_BUDGET else opt_tokenBudget o.

(** The focus filter and the budget cap of the structural phase. *)
Definition select_modules (o : options) (surface : surface_report) : list module_id :=
  let filtered := filter (focus_matches (opt_focus o)) (identifiedModules surface) in
  let modulesToAnalyze :=
    match opt_focus o, filtered with
    | _ :: _, _ :: _ => filtered
    | _, _ => identifiedModules surface
    end in
  let maxModules := Z.min (Z.of_nat (List.length modulesToAnalyze))
                          (ceil_div (effective_budget o) 50000) in
  slice0 maxModules modulesToAnalyze.

(** The structural report list of a run. *)
Definition structural_of (e : env) (o : options) : list structural_report :=
  fst (analyzeModulesInParallel e (select_modules o (env_surface e))).

(** [orchestrateAnalysis(repoPath, options)], from the end of the surface
    phase on. The [catch] around the structural phase is not reachable
    here: every failure inside it is caught per file or per module. *)
Definition orchestrateAnalysis (e : env) (o : options) : M analysis_result :=
  let analysisId := env_analysisId e in
  let depth := effective_depth o in
  let tokenBudget := effective_budget o in
  let includeSemantics := opt_includeSemantics o || depth_eqb depth Deep in
  emit EvSurface ;;;
  let surface := env_surface e in
  let tokensUsed := rm_estimatedTokens (repositoryMap surface) in
  (if Z.ltb tokenBudget tokensUsed then warn (WBudget tokensUsed tokenBudget)
   else ret tt) ;;;
  if depth_eqb depth Surface then
    s <- get_state ;;
    ret (set_reports (buildAnalysisResult analysisId (env_repoPath e) depth surface [] None)
           (os_warnings s) [])
  else
    let filtered := filter (focus_matches (opt_focus o)) (identifiedModules surface) in
    (match opt_focus o, filtered with
     | _ :: _, [] => warn (WFocus (opt_focus o))
     | _, _ => ret tt
     end) ;;;
    let modulesToAnalyze := select_modules o surface in
    let '(structural, evs) := analyzeModulesInParallel e modulesToAnalyze in
    emit_all evs ;;;
    semantic <- (if includeSemantics then
                   emit EvSemantic ;;;
                   r <- semanticAnalysis e (Z.min 8192 (tokenBudget - tokensUsed)) ;;
                   match r with
                   | inl err => record_failure "semantic" err ;;; ret None
                   | inr sem => ret (Some sem)
                   end
                 else
                   (if JsNum.lt (JsNum.of_nat SEMANTIC_COMPLEXITY_THRESHOLD)
                                (surface_complexity surface)
                    then warn (WComplexity (surface_complexity surface))
                    else ret tt) ;;;
                   ret None) ;;
    s <- get_state ;;
    let result := set_reports
                    (buildAnalysisResult analysisId (env_repoPath e) depth surface
                       structural semantic)
                    (os_warnings s) (os_failures s) in
    cache_set (env_now e) (env_repoPath e)
      {| cd_result := result; cd_surface := surface; cd_structural := structural;
         cd_semantic := semantic |} depth ;;;
    ret result.

(** A run from the given cache: result, trace, final cache. *)
Definition run_orchestrate (e : env) (o : options) (c : cache)
  : analysis_result * ostate :=
  orchestrateAnalysis e o
    {| os_trace := []; os_warnings := []; os_failures := []; os_cache := c |}.

Record expand_response := {
  resp_section : option section;
  resp_error : option string;
}.

(** [expandAnalysisSection] at time [now]. *)
Definition expandAnalysisSection (now : Z) (analysisId sectionId : string)
    (lvl : level) (c : cache) : expand_response * cache :=
  let '(cached, c') := Cache.getByAnalysisId (fun d => Disclosure.analysisId (cd_result d))
                         now analysisId c in
  match cached with
  | None =>
      ({| resp_section := None;
          resp_error := Some ("Analysis " ++ analysisId
                              ++ " not found in cache. It may have expired.")%string |}, c')
  | Some d =>
      match expandSection (cd_result d) sectionId lvl (cd_structural d) (cd_semantic d) with
      | None =>
          ({| resp_section := None;
              resp_error := Some ("Section " ++ sectionId
                                  ++ " not found or cannot be expanded.")%string |}, c')
      | Some s => ({| resp_section := Some s; resp_error := None |}, c')
      end
  end.

End Orchestrator.

(* ------------------------------------------------------------------ *)
(** ** Concrete inputs *)

Module Scenarios.
Import Disclosure Orchestrator.

Definition module_named (p : string) (t : module_type) : module_id :=
  {| m_path := p; m_name := p; m_type := t; m_fileCount := 1;
     m_primaryLanguage := "TypeScript" |}.

Definition surface_with (mods : list module_id) : surface_report :=
  {| repositoryMap := {| rm_name := "repo"; rm_fileCount := List.length mods;
                         rm_estimatedTokens := 10 |};
     identifiedModules := mods; surface_complexity := JsNum.Fin 20 |}.

(** A repository with one module [src] holding [src/a.ts]; its structural
    extraction throws and no credential is configured. *)
Definition env_src : env :=
  {| env_repoPath := "/repo"; env_analysisId := "analysis_1"; env_now := 0;
     env_surface := surface_with [module_named "src" MCore];
     env_glob := fun _ => Some ["a.ts"];
     env_readFile := fun _ => Some "export const x = 1;";
     env_extract := fun _ _ => None;
     env_hasGeminiKey := false;
     env_gemini := inl "unavailable" |}.

Definition opts_at (d : analysis_depth) (sem : bool) : options :=
  {| opt_depth := Some d; opt_focus := []; opt_tokenBudget := 0;
     opt_includeSemantics := sem |}.

(** The root-level [main.go] of scenario A. *)
Definition main_go : file_info :=
  {| fi_relativePath := "main.go"; fi_size := 14; fi_language := "Go" |}.

Definition go_config : Structural.language_config :=
  {| Structural.cfg_extensions := [".go"]; Structural.cfg_exportPattern := None |}.

Definition ts_config : Structural.language_config :=
  {| Structural.cfg_extensions := [".ts"; ".tsx"];
     Structural.cfg_exportPattern := Some Structural.ts_exportPattern |}.

(** A cache entry value for the cache scenarios. *)
Definition data_with_id (id : string) : cache_data :=
  {| cd_result := buildAnalysisResult id "/repo" Standard (surface_with []) [] None;
     cd_surface := surface_with []; cd_structural := []; cd_semantic := None |}.

Fixpoint a_string (n : nat) : string :=
  match n with O => EmptyString | S n' => String "a"%char (a_string n') end.

(** A full cache (50 entries) whose oldest entry was stored for the
    source ["/"], i.e. under the empty key. *)
Definition full_cache : cache :=
  fold_left (fun c (t : nat) =>
               Cache.set Cache.DEFAULT_TTL_MS (Z.of_nat t) ("/" ++ a_string t)
                 (data_with_id (a_string t)) None Standard c)
    (seq 1 49)
    (Cache.set Cache.DEFAULT_TTL_MS 0 "/" (data_with_id "root") None Standard []).

(** A module whose path holds a [-], with its structural report. *)
Definition report_for (p : string) : structural_report :=
  {| modulePath := p; symbols := []; imports := []; exports := [];
     complexity := {| cyclomaticComplexity := 1; linesOfCode := 1; functionCount := 0;
                      classCount := 0 |} |}.

Definition result_ab : analysis_result :=
  buildAnalysisResult "analysis_2" "/repo" Standard
    (surface_with [module_named "a-b" MUnknown]) [report_for "a-b"] None.

(** Two modules [bad] and [good], one file each; the extraction of [bad]
    throws. *)
Definition bad_good : list module_id := [module_named "bad" MCore; module_named "good" MCore].

Definition bad_good_files : list (string * string) :=
  [("bad/x.ts", "export const x = 1;"); ("good/y.ts", "export const y = 2;")].

Definition extract_bad (m : module_id) (_ : list (string * string))
  : option structural_report :=
  if String.eqb (m_path m) "bad" then None else Some (report_for (m_path m)).

(** Two cache entries: [src] at commit [abc] stored at time 0, [lib/] at
    time 5, both for 10 ms. *)
Definition two_entries : cache :=
  Cache.set 10 5 "lib/" (data_with_id "b") None Standard
    (Cache.set 10 0 "src" (data_with_id "a") (Some "abc") Standard []).

Definition opts_focus (focus : list string) : options :=
  {| opt_depth := Some Standard; opt_focus := focus; opt_tokenBudget := 0;
     opt_includeSemantics := false |}.

Definition src_test_file : file_info :=
  {| fi_relativePath := "src/x.test.ts"; fi_size := 10; fi_language := "TypeScript" |}.

Definition src_module : module_id :=
  {| m_path := "src"; m_name := "src"; m_type := MCore; m_fileCount := 1;
     m_primaryLanguage := "TypeScript" |}.

End Scenarios.

(* ================================================================== *)
(** * Properties *)

(* ------------------------------------------------------------------ *)
(** ** List folds *)

Module ListFacts.

Lemma fold_left_pointwise {A B} (f g : A -> B -> A) (l : list B) (a : A) :
  (forall a x, f a x = g a x) -> fold_left f l a = fold_left g l a.
Proof.
  intros Hfg. revert a. induction l as [|x l IH]; intros a; simpl; [reflexivity|].
  rewrite Hfg. apply IH.
Qed.

(** A fold that appends to two accumulators. *)
Lemma fold_pair_app {A B C} (F : C -> list A) (G : C -> list B) (l : list C)
    (a0 : list A) (b0 : list B) :
  fold_left (fun '(x, y) c => (x ++ F c, y ++ G c)) l (a0, b0) =
  (a0 ++ flat_map F l, b0 ++ flat_map G l).
Proof.
  revert a0 b0. induction l as [|c l IH]; intros a0 b0; simpl.
  - now rewrite !app_nil_r.
  - rewrite IH. now rewrite !app_assoc.
Qed.

Lemma flat_map_map' {A B C} (f : B -> list C) (g : A -> B) (l : list A) :
  flat_map f (map g l) = flat_map (fun x => f (g x)) l.
Proof. induction l as [|x l IH]; simpl; [reflexivity|now rewrite IH]. Qed.

Lemma flat_map_concat {A B} (h : A -> list B) (L : list (list A)) :
  flat_map (fun b => flat_map h b) L = flat_map h (List.concat L).
Proof.
  induction L as [|b L IH]; simpl; [reflexivity|]. now rewrite IH, flat_map_app.
Qed.

End ListFacts.

(* ------------------------------------------------------------------ *)
(** ** Surface-only runs *)

Module SurfaceRuns.
Import Disclosure Orchestrator.

Lemma find_all_false {A} (f : A -> bool) (l : list A) :
  (forall x, In x l -> f x = false) -> find f l = None.
Proof.
  induction l as [|x l IH]; intros H; simpl; [reflexivity|].
  rewrite (H x (or_introl eq_refl)). apply IH. intros y Hy. apply H. now right.
Qed.

(** A surface-only run: one surface step, the budget warning at most, no
    failure, the cache untouched. *)
Lemma run_surface (e : env) (o : options) (c : cache) :
  effective_depth o = Surface ->
  run_orchestrate e o c =
  (let ws := if Z.ltb (effective_budget o) (rm_estimatedTokens (repositoryMap (env_surface e)))
             then [WBudget (rm_estimatedTokens (repositoryMap (env_surface e)))
                           (effective_budget o)] else [] in
   (set_reports (buildAnalysisResult (env_analysisId e) (env_repoPath e) Surface
                   (env_surface e) [] None) ws [],
    {| os_trace := [EvSurface]; os_warnings := ws; os_failures := []; os_cache := c |})).
Proof.
  intros Hd. unfold run_orchestrate, orchestrateAnalysis. cbv zeta. rewrite Hd.
  unfold bind, emit, emit_all, warn, ret, get_state. simpl.
  destruct (Z.ltb _ _); reflexivity.
Qed.

End SurfaceRuns.

Module SurfaceClaims.
Import Disclosure Orchestrator Scenarios SurfaceRuns.

(** C1 (counterexample): a surface-only run over a repository with one
    identified module returns a non-empty [sections] array. *)
Lemma C1_counterexample :
  sections (fst (run_orchestrate env_src (opts_at Surface false) [])) <> [].
Proof. vm_compute. discriminate. Qed.

(** C1 (amended): with [depth = "surface"] the result has one
    non-expandable module section per each of the first 10 identified
    modules and no other section, no structural or semantic step is taken
    (the trace is the surface step alone), nothing is cached and
    [partialFailures] is absent. *)
Theorem C1_surface_depth_sections (e : env) (o : options) (c : cache) :
  opt_depth o = Some Surface ->
  let '(r, st) := run_orchestrate e o c in
  sections r = map (module_section []) (firstn 10 (identifiedModules (env_surface e)))
  /\ Forall (fun s => sec_canExpand s = false /\ sec_type s = StModule) (sections r)
  /\ os_trace st = [EvSurface]
  /\ os_cache st = c
  /\ partialFailures r = None.
Proof.
  intros Hd. rewrite (run_surface e o c) by (unfold effective_depth; now rewrite Hd).
  cbv zeta. simpl. unfold buildExpandableSections. rewrite app_nil_r.
  repeat split; try reflexivity.
  apply Forall_map. apply Forall_forall. intros m _. split; reflexivity.
Qed.

Lemma C1_surface_depth_sections_witness :
  opt_depth (opts_at Surface true) = Some Surface /\
  (let '(r, st) := run_orchestrate env_src (opts_at Surface true) [] in
   sections r = map (module_section []) (firstn 10 (identifiedModules (env_surface env_src)))
   /\ Forall (fun s => sec_canExpand s = false /\ sec_type s = StModule) (sections r)
   /\ os_trace st = [EvSurface]
   /\ os_cache st = []
   /\ partialFailures r = None).
Proof.
  split; [reflexivity|].
  apply (C1_surface_depth_sections env_src (opts_at Surface true) []). reflexivity.
Defined.

(** C9: a surface-only run never reaches the cache insertion, so a later
    [expandAnalysisSection] with its (fresh) analysis id reports it as not
    found. *)
Theorem C9_surface_run_not_expandable (e : env) (o : options) (c : cache)
    (now : Z) (sectionId : string) (lvl : level) :
  opt_depth o = Some Surface ->
  (forall k ent, In (k, ent) c ->
     Disclosure.analysisId (cd_result (Cache.value ent)) <> env_analysisId e) ->
  let '(r, st) := run_orchestrate e o c in
  os_cache st = c
  /\ ~ In EvCacheSet (os_trace st)
  /\ fst (expandAnalysisSection now (Disclosure.analysisId r) sectionId lvl (os_cache st))
     = {| resp_section := None;
          resp_error := Some ("Analysis " ++ env_analysisId e
                              ++ " not found in cache. It may have expired.")%string |}.
Proof.
  intros Hd Hfresh.
  rewrite (run_surface e o c) by (unfold effective_depth; now rewrite Hd).
  cbv zeta. simpl.
  split; [reflexivity|]. split; [intros [H|H]; [discriminate|exact H]|].
  unfold expandAnalysisSection, Cache.getByAnalysisId.
  rewrite find_all_false; [reflexivity|].
  intros [k ent] Hin. simpl. apply String.eqb_neq. exact (Hfresh k ent Hin).
Qed.

Lemma C9_surface_run_not_expandable_witness :
  opt_depth (opts_at Surface false) = Some Surface /\
  (forall k ent, In (k, ent) ([] : cache) ->
     Disclosure.analysisId (cd_result (Cache.value ent)) <> env_analysisId env_src) /\
  (let '(r, st) := run_orchestrate env_src (opts_at Surface false) [] in
   os_cache st = []
   /\ ~ In EvCacheSet (os_trace st)
   /\ fst (expandAnalysisSection 5 (Disclosure.analysisId r) "module_src" Detail (os_cache st))
      = {| resp_section := None;
           resp_error := Some ("Analysis " ++ env_analysisId env_src
                               ++ " not found in cache. It may have expired.")%string |}).
Proof.
  split; [reflexivity|]. split; [intros k ent []|].
  apply (C9_surface_run_not_expandable env_src (opts_at Surface false) [] 5
           "module_src" Detail).
  - reflexivity.
  - intros k ent [].
Defined.

End SurfaceClaims.

(* ------------------------------------------------------------------ *)
(** ** Module-section identifiers *)

Module SectionIdFacts.
Import SectionId Disclosure Scenarios.

(** Characters the round trip preserves. *)
Definition kept (c : ascii) : bool := is_alnum c || Ascii.eqb c slash.

Definition slash_free (s : string) : bool :=
  forallb (fun c => negb (Ascii.eqb c slash)) (list_ascii_of_string s).

Lemma substring_0_length (s : string) : substring 0 (String.length s) s = s.
Proof. induction s as [|c s IH]; simpl; [reflexivity|now rewrite IH]. Qed.

Lemma strip_module_prefix (s : string) :
  replace_first "module_" EmptyString ("module_" ++ s) = s.
Proof.
  simpl. rewrite Nat.sub_0_r.
  destruct s; [reflexivity|]. apply substring_0_length.
Qed.

Lemma map_chars_compose (f g : ascii -> ascii) (s : string) :
  map_chars f (map_chars g s) = map_chars (fun c => f (g c)) s.
Proof. induction s as [|c s IH]; simpl; [reflexivity|now rewrite IH]. Qed.

(** The round trip sends every character outside [[a-zA-Z0-9]] to [/]. *)
Definition roundtrip_char (c : ascii) : ascii := if is_alnum c then c else slash.

Lemma roundtrip_map (p : string) :
  module_path_of_id (module_section_id p) = map_chars roundtrip_char p.
Proof.
  unfold module_path_of_id, module_section_id. rewrite strip_module_prefix.
  unfold sanitize, replace_class. rewrite map_chars_compose.
  induction p as [|c p IH]; simpl; [reflexivity|]. rewrite IH. f_equal.
  unfold roundtrip_char. destruct (is_alnum c) eqn:Ha; simpl.
  - destruct (Ascii.eqb c underscore) eqn:Hu; [|reflexivity].
    apply Ascii.eqb_eq in Hu. subst c. discriminate Ha.
  - reflexivity.
Qed.

Lemma roundtrip_char_id (c : ascii) : roundtrip_char c = c <-> kept c = true.
Proof.
  unfold roundtrip_char, kept. destruct (is_alnum c); simpl; [tauto|].
  rewrite Ascii.eqb_eq. split; intros H; now symmetry.
Qed.

Lemma map_chars_roundtrip_id (p : string) :
  map_chars roundtrip_char p = p <-> forallb kept (list_ascii_of_string p) = true.
Proof.
  induction p as [|c p IH]; simpl; [tauto|].
  rewrite andb_true_iff, <- IH, <- roundtrip_char_id. split.
  - intros H. injection H as H1 H2. auto.
  - intros [H1 H2]. now rewrite H1, H2.
Qed.

(** A non-kept character shows up as a [/] after the round trip. *)
Lemma roundtrip_has_slash (p : string) :
  forallb kept (list_ascii_of_string p) = false ->
  slash_free (map_chars roundtrip_char p) = false.
Proof.
  unfold slash_free. induction p as [|c p IH]; simpl; [discriminate|].
  intros H. unfold roundtrip_char, kept in *.
  destruct (is_alnum c) eqn:Ha; simpl in *.
  - destruct (Ascii.eqb c slash) eqn:Hs; simpl; [reflexivity|].
    now apply IH.
  - reflexivity.
Qed.

Lemma slash_free_neq (x y : string) :
  slash_free x = false -> slash_free y = true -> x <> y.
Proof. intros Hx Hy ->. congruence. Qed.

Lemma expand_module_unmatched (result : analysis_result) (p : string) (lvl : level)
    (structural : list structural_report) (semantic : option semantic_report)
    (sec : section) :
  forallb kept (list_ascii_of_string p) = false ->
  find (fun s => String.eqb (sec_id s) (module_section_id p)) (sections result) = Some sec ->
  sec_canExpand sec = true ->
  sec_type sec = StModule ->
  Forall (fun d => slash_free (modulePath d) = true) structural ->
  expandSection result (module_section_id p) lvl structural semantic = Some sec.
Proof.
  intros Hp Hf Hc Ht Hs. unfold expandSection. rewrite Hf, Hc, Ht. simpl.
  pose proof Hf as Hid. apply find_some in Hid. destruct Hid as [_ Hid].
  apply String.eqb_eq in Hid. rewrite Hid, roundtrip_map.
  unfold find_structural.
  destruct (find (fun s => String.eqb (modulePath s) (map_chars roundtrip_char p)) structural)
    as [d|] eqn:Hd; [|reflexivity].
  exfalso. apply find_some in Hd. destruct Hd as [Hin Heq].
  apply String.eqb_eq in Heq. rewrite Forall_forall in Hs.
  apply (slash_free_neq (map_chars roundtrip_char p) (modulePath d)).
  - now apply roundtrip_has_slash.
  - now apply Hs.
  - now symmetry.
Qed.

End SectionIdFacts.

Module SectionIdClaims.
Import SectionId Disclosure Scenarios SectionIdFacts.

(** C10: the path recovered from [module_section_id p] (strip [module_],
    turn every [_] into [/]) equals [p] exactly when every character of [p]
    is alphanumeric or [/]. For any other path, an expandable module
    section with that id is returned unchanged by [expandSection] (no
    detail or full payload is added), provided no structural report has a
    [/] in its module path. *)
Theorem C10_section_id_roundtrip (p : string) :
  (module_path_of_id (module_section_id p) = p <->
     forallb kept (list_ascii_of_string p) = true) /\
  (forall (result : analysis_result) (lvl : level)
          (structural : list structural_report) (semantic : option semantic_report)
          (sec : section),
     forallb kept (list_ascii_of_string p) = false ->
     find (fun s => String.eqb (sec_id s) (module_section_id p)) (sections result) = Some sec ->
     sec_canExpand sec = true ->
     sec_type sec = StModule ->
     Forall (fun d => slash_free (modulePath d) = true) structural ->
     expandSection result (module_section_id p) lvl structural semantic = Some sec).
Proof.
  split.
  - rewrite roundtrip_map. apply map_chars_roundtrip_id.
  - intros. now apply expand_module_unmatched.
Qed.

(** The result for module [a-b] with its structural report: the section
    [module_a_b] is expandable, yet expanding it returns it unchanged. *)
Lemma C10_section_id_roundtrip_witness :
  module_path_of_id (module_section_id "a-b") = "a/b" /\
  (exists sec,
     find (fun s => String.eqb (sec_id s) (module_section_id "a-b")) (sections result_ab)
       = Some sec /\ sec_canExpand sec = true /\
     expandSection result_ab (module_section_id "a-b") Full [report_for "a-b"] None = Some sec).
Proof.
  split; [vm_compute; reflexivity|].
  eexists. split; [vm_compute; reflexivity|]. split; [vm_compute; reflexivity|].
  apply (proj2 (C10_section_id_roundtrip "a-b")).
  - vm_compute; reflexivity.
  - vm_compute; reflexivity.
  - vm_compute; reflexivity.
  - vm_compute; reflexivity.
  - repeat constructor.
Defined.

End SectionIdClaims.

(* ------------------------------------------------------------------ *)
(** ** Surface complexity score *)

Module ComplexityFacts.
Import JsNum SurfaceLayer.

Definition nonneg (a : num) : Prop := exists x, a = Fin x /\ 0 <= x.

Lemma of_nat_nonneg (n : nat) : nonneg (of_nat n).
Proof. exists (inject_Z (Z.of_nat n)). split; [reflexivity|]. unfold Qle; simpl; lia. Qed.

Lemma add_nonneg (a b : num) : nonneg a -> nonneg b -> nonneg (add a b).
Proof. intros [x [-> Hx]] [y [-> Hy]]. exists (x + y). split; [reflexivity|lra]. Qed.

Lemma mul_nonneg (a b : num) : nonneg a -> nonneg b -> nonneg (mul a b).
Proof.
  intros [x [-> Hx]] [y [-> Hy]]. exists (x * y). split; [reflexivity|].
  now apply Qmult_le_0_compat.
Qed.

Lemma div_nonneg (a : num) (y : Q) : nonneg a -> 0 < y -> nonneg (div a (Fin y)).
Proof.
  intros [x [-> Hx]] Hy. simpl.
  destruct (Qeq_bool y 0) eqn:E.
  - apply Qeq_bool_eq in E. lra.
  - exists (x / y). split; [reflexivity|].
    apply Qle_shift_div_l; [exact Hy|]. rewrite Qmult_0_l. exact Hx.
Qed.

Lemma min_bound (c : Q) (a : num) :
  0 <= c -> nonneg a -> exists m, min (Fin c) a = Fin m /\ 0 <= m /\ m <= c.
Proof.
  intros Hc [x [-> Hx]]. simpl.
  destruct (Qle_bool c x) eqn:E; simpl.
  - exists c. split; [reflexivity|lra].
  - exists x. split; [reflexivity|]. split; [exact Hx|].
    apply Qlt_le_weak, Qnot_le_lt. intros H. apply Qle_bool_iff in H. congruence.
Qed.

Lemma min_nonneg (c : Q) (a : num) : 0 <= c -> nonneg a -> nonneg (min (Fin c) a).
Proof.
  intros Hc Ha. destruct (min_bound c a Hc Ha) as [m [-> [Hm _]]]. now exists m.
Qed.

Lemma max_list_fold_nonneg (xs : list num) (acc : num) :
  Forall nonneg xs -> nonneg acc ->
  nonneg (fold_left (fun m x => match m, x with
                                | NaN, _ | _, NaN => NaN
                                | _, _ => if lt m x then x else m
                                end) xs acc).
Proof.
  intros Hxs. revert acc. induction Hxs as [|x xs Hx Hxs IH]; intros acc Hacc; simpl.
  - exact Hacc.
  - apply IH. destruct Hacc as [a [-> Ha]]. destruct Hx as [b [-> Hb]].
    destruct (lt (Fin a) (Fin b)); [now exists b|now exists a].
Qed.

Lemma max_list_nonneg (xs : list num) :
  xs <> [] -> Forall nonneg xs -> nonneg (max_list xs).
Proof.
  intros Hne Hxs. destruct Hxs as [|x xs Hx Hxs]; [contradiction|].
  unfold max_list. simpl. apply max_list_fold_nonneg; [exact Hxs|].
  destruct Hx as [b [-> Hb]]. now exists b.
Qed.

(** The score before the final [Math.min(100, _)] and [Math.round] is a
    finite non-negative number once there is at least one file. *)
Lemma raw_score_nonneg (files : list file_info) (modules : list module_id) :
  files <> [] ->
  nonneg
    (add (add (add (add (add (Fin 0)
       (min (Fin 30) (div (of_nat (List.length files)) (Fin 100))))
       (min (Fin 20) (of_nat (List.length modules * 2)%nat)))
       (min (Fin 20) (of_nat (distinct_count (map fi_language files) * 4)%nat)))
       (min (Fin 15)
          (div (div (of_nat (fold_left (fun s f => (s + fi_size f)%nat) files 0%nat))
                    (of_nat (List.length files))) (Fin 1000))))
       (min (Fin 15)
          (mul (max_list (map (fun f => of_nat (List.length
                                 (split_on slash (fi_relativePath f)))) files))
               (Fin 2)))).
Proof.
  intros Hne.
  assert (Hlen : (0 < Z.of_nat (List.length files))%Z).
  { destruct files; [contradiction|]. simpl. lia. }
  repeat apply add_nonneg.
  - exists 0. split; [reflexivity|lra].
  - apply min_nonneg; [lra|]. apply div_nonneg; [apply of_nat_nonneg|lra].
  - apply min_nonneg; [lra|apply of_nat_nonneg].
  - apply min_nonneg; [lra|apply of_nat_nonneg].
  - apply min_nonneg; [lra|]. apply div_nonneg; [|lra].
    apply div_nonneg; [apply of_nat_nonneg|]. unfold Qlt; simpl; lia.
  - apply min_nonneg; [lra|]. apply mul_nonneg; [|exists 2; split; [reflexivity|lra]].
    apply max_list_nonneg.
    + destruct files; [contradiction|discriminate].
    + apply Forall_forall. intros x Hx. apply in_map_iff in Hx.
      destruct Hx as [f [<- _]]. apply of_nat_nonneg.
Qed.

Lemma complexity_in_range (files : list file_info) (modules : list module_id) :
  files <> [] ->
  exists z, calculateComplexity files modules = Fin (inject_Z z) /\ (0 <= z <= 100)%Z.
Proof.
  intros Hne. unfold calculateComplexity. cbv zeta.
  destruct (min_bound 100 _ ltac:(lra) (raw_score_nonneg files modules Hne))
    as [m [Hm [H0 H100]]].
  rewrite Hm. simpl. exists (Qfloor (m + (1 # 2))). split; [reflexivity|].
  split.
  - change 0%Z with (Qfloor (0 + (1 # 2))). apply Qfloor_resp_le. lra.
  - change 100%Z with (Qfloor (100 + (1 # 2))). apply Qfloor_resp_le. lra.
Qed.

End ComplexityFacts.

Module ComplexityClaims.
Import JsNum SurfaceLayer Scenarios ComplexityFacts.

(** C4: for an empty file list (an empty directory) the complexity score
    is NaN, not an integer in [0, 100]: [files.length] is 0, so the
    average size is [0 / 0], and [Math.max()] of no depths is -Infinity.
    For every non-empty file list the score is an integer in [0, 100]. *)
Theorem C4_empty_complexity_nan :
  calculateComplexity [] (identifyModules []) = NaN /\
  (forall (files : list file_info) (modules : list module_id),
     files <> [] ->
     exists z, calculateComplexity files modules = Fin (inject_Z z) /\ (0 <= z <= 100)%Z).
Proof.
  split.
  - vm_compute. reflexivity.
  - exact complexity_in_range.
Qed.

(** The single file [main.go] scores an integer in [0, 100]. *)
Lemma C4_empty_complexity_nan_witness :
  exists z, calculateComplexity [main_go] (identifyModules [main_go]) = Fin (inject_Z z)
            /\ (0 <= z <= 100)%Z.
Proof.
  apply (proj2 C4_empty_complexity_nan). discriminate.
Defined.

End ComplexityClaims.

(* ------------------------------------------------------------------ *)
(** ** A repository holding only [main.go] *)

Module RootFileFacts.
Import Disclosure Orchestrator.

(** No module selected, no structural report. *)
Lemma structural_of_no_modules (e : env) (o : options) :
  identifiedModules (env_surface e) = [] -> structural_of e o = [].
Proof.
  intros H. unfold structural_of, select_modules. rewrite H. simpl.
  destruct (opt_focus o); unfold slice0; destruct (Z.ltb _ 0);
    rewrite firstn_nil; reflexivity.
Qed.

End RootFileFacts.

Module RootFileClaims.
Import SurfaceLayer Structural Disclosure Orchestrator Scenarios RootFileFacts.

(** C5, refuted: the surface scan of the single root-level file [main.go]
    identifies no module at all. *)
Lemma C5_counterexample : List.length (identifyModules [main_go]) <> 1%nat.
Proof. vm_compute. discriminate. Qed.

(** C5, as the code behaves: a file at the repository root ([main.go],
    whatever its size or language) belongs to no module, because
    [identifyModules] skips paths with fewer than two segments; with no
    module the structural phase yields no report. The regex extractor
    alone does read [func main() {}] as one unexported function [main] on
    line 1 with no exports. *)
Theorem C5_root_file_no_module :
  (forall f : file_info, fi_relativePath f = "main.go" -> identifyModules [f] = []) /\
  (forall (e : env) (o : options),
     identifiedModules (env_surface e) = [] -> structural_of e o = []) /\
  analyzeFileWithRegex "main.go" "func main() {}" go_config =
    {| fs_symbols := [{| sym_name := "main"; sym_type := SFunction; sym_file := "main.go";
                         sym_line := 1; sym_exported := false |}];
       fs_exports := [] |}.
Proof.
  split; [|split].
  - intros f Hf. unfold identifyModules. simpl. unfold identify_step.
    rewrite Hf. vm_compute. reflexivity.
  - exact structural_of_no_modules.
  - vm_compute. reflexivity.
Qed.

(** The file [main.go] of scenario A, and the standard run over its
    (empty) module list. *)
Lemma C5_root_file_no_module_witness :
  identifyModules [main_go] = [] /\
  structural_of {| env_repoPath := "/repo"; env_analysisId := "analysis_a"; env_now := 0;
                   env_surface := surface_with (identifyModules [main_go]);
                   env_glob := fun _ => Some ["main.go"];
                   env_readFile := fun _ => Some "func main() {}";
                   env_extract := fun _ _ => None;
                   env_hasGeminiKey := false; env_gemini := inl "unavailable" |}
                (opts_at Standard false) = [].
Proof.
  split.
  - apply (proj1 C5_root_file_no_module). reflexivity.
  - apply (proj1 (proj2 C5_root_file_no_module)). vm_compute. reflexivity.
Defined.

End RootFileClaims.

(* ------------------------------------------------------------------ *)
(** ** Architecture type without a semantic report *)

Module ArchitectureFacts.
Import Disclosure.

(** Some module's lower-cased name is one of [names]. *)
Definition named_in (names : list string) (mods : list module_id) : Prop :=
  exists m, In m mods /\ In (toLowerCase (m_name m)) names.

Lemma existsb_eqb_In (x : string) (l : list string) :
  existsb (String.eqb x) l = true <-> In x l.
Proof.
  induction l as [|y l IH]; simpl; [split; [discriminate|tauto]|].
  rewrite orb_true_iff, IH, String.eqb_eq. split; intros [H|H]; auto.
Qed.

Lemma name_in_named_in (names : list string) (mods : list module_id) :
  existsb (name_in names) mods = true <-> named_in names mods.
Proof.
  unfold named_in, name_in. rewrite existsb_exists.
  split; intros [m [Hm H]]; exists m; split; auto; now apply existsb_eqb_In.
Qed.

Lemma name_in_false (names : list string) (mods : list module_id) :
  existsb (name_in names) mods = false <-> ~ named_in names mods.
Proof.
  rewrite <- name_in_named_in. destruct (existsb _ _); split; congruence.
Qed.

Lemma summary_without_semantic (surface : surface_report) :
  architectureType (buildSummary surface None) =
  infer_architecture (identifiedModules surface).
Proof. reflexivity. Qed.

End ArchitectureFacts.

Module ArchitectureClaims.
Import Disclosure Scenarios ArchitectureFacts.

(** C7, refuted: a module named [api] makes the architecture type
    ["web-application"], not ["layered"]. *)
Lemma C7_counterexample :
  architectureType (buildSummary (surface_with [module_named "api" MCore]) None)
  <> "layered".
Proof. vm_compute. discriminate. Qed.

(** C7, as the code behaves: without a semantic report the architecture
    type is ["web-application"] when some module's lower-cased name is
    exactly [controllers], [routes] or [api]; otherwise
    ["component-based"] when one is [components] or [views] (whatever the
    languages of the repository); otherwise ["library"] when one is [lib]
    or [pkg]; otherwise ["unknown"]. It is never ["layered"]. *)
Theorem C7_architecture_without_semantic (surface : surface_report) :
  let mods := identifiedModules surface in
  let a := architectureType (buildSummary surface None) in
  (named_in ["controllers"; "routes"; "api"] mods -> a = "web-application") /\
  (~ named_in ["controllers"; "routes"; "api"] mods ->
   named_in ["components"; "views"] mods -> a = "component-based") /\
  (~ named_in ["controllers"; "routes"; "api"] mods ->
   ~ named_in ["components"; "views"] mods ->
   named_in ["lib"; "pkg"] mods -> a = "library") /\
  (~ named_in ["controllers"; "routes"; "api"] mods ->
   ~ named_in ["components"; "views"] mods ->
   ~ named_in ["lib"; "pkg"] mods -> a = "unknown") /\
  a <> "layered".
Proof.
  cbv zeta. rewrite summary_without_semantic. unfold infer_architecture.
  repeat split; intros;
    repeat match goal with
    | H : named_in _ _ |- _ => apply name_in_named_in in H; rewrite H
    | H : ~ named_in _ _ |- _ => apply name_in_false in H; rewrite H
    end; try reflexivity.
  destruct (existsb _ _); [discriminate|].
  destruct (existsb _ _); [discriminate|].
  destruct (existsb _ _); discriminate.
Qed.

(** A repository with a [views] module and no web-named module. *)
Lemma C7_architecture_without_semantic_witness :
  architectureType (buildSummary (surface_with [module_named "views" MUnknown]) None)
  = "component-based".
Proof.
  apply (proj1 (proj2 (C7_architecture_without_semantic
                         (surface_with [module_named "views" MUnknown])))).
  - intros [m [Hm Hn]]. simpl in Hm. destruct Hm as [<-|[]].
    vm_compute in Hn. intuition discriminate.
  - exists (module_named "views" MUnknown). split; [left; reflexivity|].
    vm_compute. right; left; reflexivity.
Defined.

End ArchitectureClaims.

(* ------------------------------------------------------------------ *)
(** ** The analysis cache *)

Module CacheFacts.
Import Cache SurfaceLayer ListFacts.

Section Eviction.
Variable V : Type.

Definition oldest_step (acc : option string * option Z) (ke : string * entry V)
  : option string * option Z :=
  let '(oldestKey, oldestTime) := acc in
  let '(k, e) := ke in
  let newer := match oldestTime with
               | None => true
               | Some t => Z.ltb (createdAt e) t
               end in
  if newer then (Some k, Some (createdAt e)) else (oldestKey, oldestTime).

(** What the scan has established about the entries seen so far. *)
Definition oldest_inv (seen : cache V) (acc : option string * option Z) : Prop :=
  (seen = [] /\ acc = (None, None)) \/
  (exists k e, acc = (Some k, Some (createdAt e)) /\ In (k, e) seen /\
               forall k' e', In (k', e') seen -> (createdAt e <= createdAt e')%Z).

Lemma oldest_fold_inv (c seen : cache V) (acc : option string * option Z) :
  oldest_inv seen acc -> oldest_inv (seen ++ c) (fold_left oldest_step c acc).
Proof.
  revert seen acc. induction c as [|[k e] c IH]; intros seen acc Hinv; simpl.
  - now rewrite app_nil_r.
  - replace (seen ++ (k, e) :: c) with ((seen ++ [(k, e)]) ++ c)
      by now rewrite <- app_assoc.
    apply IH. unfold oldest_step.
    destruct Hinv as [[-> ->]|[k0 [e0 [-> [Hin Hmin]]]]].
    + right. exists k, e. split; [reflexivity|]. split; [now left|].
      intros k' e' [H|[]]. injection H as -> ->. lia.
    + right. destruct (Z.ltb (createdAt e) (createdAt e0)) eqn:Hlt.
      * apply Z.ltb_lt in Hlt. exists k, e. split; [reflexivity|].
        split; [apply in_or_app; right; now left|].
        intros k' e' Hin'. apply in_app_or in Hin'. destruct Hin' as [Hin'|[H|[]]].
        -- specialize (Hmin k' e' Hin'). lia.
        -- injection H as -> ->. lia.
      * apply Z.ltb_ge in Hlt. exists k0, e0. split; [reflexivity|].
        split; [apply in_or_app; now left|].
        intros k' e' Hin'. apply in_app_or in Hin'. destruct Hin' as [Hin'|[H|[]]].
        -- exact (Hmin k' e' Hin').
        -- injection H as -> ->. lia.
Qed.

Lemma oldest_fold (c : cache V) : oldest c = fold_left oldest_step c (None, None).
Proof.
  unfold oldest. apply fold_left_pointwise. intros [k0 t0] [k e]. reflexivity.
Qed.

Lemma oldest_is_minimal (c : cache V) :
  (c = [] /\ oldest c = (None, None)) \/
  (exists k e, oldest c = (Some k, Some (createdAt e)) /\ In (k, e) c /\
               forall k' e', In (k', e') c -> (createdAt e <= createdAt e')%Z).
Proof.
  pose proof (oldest_fold_inv c [] (None, None) (or_introl (conj eq_refl eq_refl))) as H.
  unfold oldest_inv in H. simpl app in H. rewrite oldest_fold. exact H.
Qed.

(** Eviction removes an entry of smallest [createdAt] (the first one met
    in insertion order), except when its key is the empty string: then
    nothing is removed. *)
Lemma evictOldest_minimal (c : cache V) :
  c <> [] ->
  exists k e, In (k, e) c /\
    (forall k' e', In (k', e') c -> (createdAt e <= createdAt e')%Z) /\
    evictOldest c = (if String.eqb k EmptyString then c else map_delete k c).
Proof.
  intros Hne. destruct (oldest_is_minimal c) as [[Hc _]|[k [e [Hold [Hin Hmin]]]]];
    [contradiction|].
  exists k, e. split; [exact Hin|]. split; [exact Hmin|].
  unfold evictOldest. rewrite Hold. simpl. destruct k; reflexivity.
Qed.

(** [get] never returns an expired entry: it drops it. *)
Lemma get_expired (now : Z) (source : string) (commitHash : option string)
    (c : cache V) (e : entry V) :
  map_get (generateKey source commitHash) c = Some e -> (expiresAt e < now)%Z ->
  get now source commitHash c = (None, map_delete (generateKey source commitHash) c).
Proof.
  intros He Hlt. unfold get. rewrite He. apply Z.ltb_lt in Hlt. now rewrite Hlt.
Qed.

Lemma get_hit_fresh (now : Z) (source : string) (commitHash : option string)
    (c c' : cache V) (v : V) :
  get now source commitHash c = (Some v, c') ->
  exists e, map_get (generateKey source commitHash) c = Some e /\ value e = v /\
            (now <= expiresAt e)%Z /\ c' = c.
Proof.
  unfold get. destruct (map_get _ c) as [e|]; [|discriminate].
  destruct (Z.ltb (expiresAt e) now) eqn:Hlt; [discriminate|].
  intros H. injection H as <- <-. exists e. apply Z.ltb_ge in Hlt. auto.
Qed.

End Eviction.

End CacheFacts.

Module CacheClaims.
Import Cache SurfaceLayer Scenarios.

(** C8, violated: when the oldest entry of a full cache (50 entries) is
    stored under the empty key (the source ["/"] with its trailing slash
    stripped), the truthiness test [if (oldestKey)] skips the deletion.
    Inserting a new source then evicts nothing, the cache grows to 51
    entries and the oldest entry survives. *)
Theorem C8_empty_key_not_evicted :
  List.length full_cache = MAX_CACHE_ENTRIES /\
  oldest full_cache = (Some EmptyString, Some 0%Z) /\
  generateKey "/" None = EmptyString /\
  let c' := set DEFAULT_TTL_MS 100 "/new" (data_with_id "new") None Standard full_cache in
  List.length c' = 51%nat /\ map_get EmptyString c' <> None.
Proof.
  split; [vm_compute; reflexivity|].
  split; [vm_compute; reflexivity|].
  split; [vm_compute; reflexivity|].
  cbv zeta. split; [vm_compute; reflexivity|].
  vm_compute. discriminate.
Qed.

End CacheClaims.

(* ------------------------------------------------------------------ *)
(** ** The structural phase *)

Module StructuralPhaseFacts.
Import Disclosure Orchestrator ListFacts.

Lemma chunks_fuel_concat {A} (fuel n : nat) (l : list A) :
  (0 < n)%nat -> (List.length l <= fuel)%nat -> List.concat (chunks_fuel fuel n l) = l.
Proof.
  intros Hn. revert l. induction fuel as [|f IH]; intros l Hl.
  - destruct l; [reflexivity|simpl in Hl; lia].
  - destruct l as [|x l']; [reflexivity|].
    change (chunks_fuel (S f) n (x :: l')) with
      (firstn n (x :: l') :: chunks_fuel f n (skipn n (x :: l'))).
    simpl List.concat. rewrite IH.
    + apply firstn_skipn.
    + rewrite length_skipn. change (List.length (x :: l')) with (S (List.length l')) in *. lia.
Qed.

Lemma chunks_concat {A} (n : nat) (l : list A) :
  (0 < n)%nat -> List.concat (chunks n l) = l.
Proof. intros Hn. apply chunks_fuel_concat; [exact Hn|lia]. Qed.

(** The reports a module contributes. *)
Definition report_of (o : option structural_report * list event) : list structural_report :=
  match fst o with Some r => [r] | None => [] end.

(** Batching does not matter: [analyzeModulesStructurally] is the
    module-by-module concatenation. *)
Lemma analyzeModulesStructurally_flat
    (extract : module_id -> list (string * string) -> option structural_report)
    (modules : list module_id) (fc : list (string * string)) :
  analyzeModulesStructurally extract modules fc =
  (flat_map (fun m => report_of (analyze_one extract fc m)) modules,
   flat_map (fun m => snd (analyze_one extract fc m)) modules).
Proof.
  unfold analyzeModulesStructurally.
  rewrite (fold_left_pointwise _
             (fun '(x, y) b =>
                (x ++ flat_map report_of (map (analyze_one extract fc) b),
                 y ++ flat_map snd (map (analyze_one extract fc) b)))).
  2:{ intros [x y] b. reflexivity. }
  rewrite fold_pair_app. simpl. f_equal.
  - rewrite (flat_map_ext _ (fun b => flat_map (fun m => report_of (analyze_one extract fc m)) b))
      by (intros b; apply flat_map_map').
    rewrite flat_map_concat, chunks_concat by lia. reflexivity.
  - rewrite (flat_map_ext _ (fun b => flat_map (fun m => snd (analyze_one extract fc m)) b))
      by (intros b; apply flat_map_map').
    rewrite flat_map_concat, chunks_concat by lia. reflexivity.
Qed.

Lemma analyzeModulesInParallel_flat (e : env) (modules : list module_id) :
  analyzeModulesInParallel e modules =
  (flat_map (fun b => fst (analyzeModulesStructurally (env_extract e) b
                             (fold_left (load_module e) b [])))
            (chunks MAX_PARALLEL_STRUCTURAL modules),
   flat_map (fun b => snd (analyzeModulesStructurally (env_extract e) b
                             (fold_left (load_module e) b [])))
            (chunks MAX_PARALLEL_STRUCTURAL modules)).
Proof.
  unfold analyzeModulesInParallel.
  rewrite (fold_left_pointwise _
             (fun '(x, y) b =>
                (x ++ fst (analyzeModulesStructurally (env_extract e) b
                             (fold_left (load_module e) b [])),
                 y ++ snd (analyzeModulesStructurally (env_extract e) b
                             (fold_left (load_module e) b []))))).
  2:{ intros [x y] b. cbv zeta.
      destruct (analyzeModulesStructurally _ _ _); reflexivity. }
  now rewrite fold_pair_app.
Qed.

Definition is_extract (ev : event) : Prop := exists p, ev = EvExtract p.

(** The structural phase only ever invokes the extractor. *)
Lemma structural_events_extract (e : env) (modules : list module_id) :
  Forall is_extract (snd (analyzeModulesInParallel e modules)).
Proof.
  rewrite analyzeModulesInParallel_flat. simpl.
  apply Forall_forall. intros ev Hev. apply in_flat_map in Hev.
  destruct Hev as [b [_ Hev]].
  rewrite analyzeModulesStructurally_flat in Hev. simpl in Hev.
  apply in_flat_map in Hev. destruct Hev as [m [_ Hev]].
  unfold analyze_one in Hev. destruct (module_files m _) as [|p ps].
  - destruct Hev.
  - destruct Hev as [<-|[]]. now exists (m_path m).
Qed.

End StructuralPhaseFacts.

(* ------------------------------------------------------------------ *)
(** ** Failures during a run *)

Module RunFacts.
Import Disclosure Orchestrator.

(** [partialFailures] only ever records the semantic layer. *)
Lemma run_failures (e : env) (o : options) (c : cache) :
  partialFailures (fst (run_orchestrate e o c)) = None \/
  exists err, partialFailures (fst (run_orchestrate e o c)) = Some [("semantic", err)].
Proof.
  unfold run_orchestrate, orchestrateAnalysis. cbv zeta.
  unfold bind, ret, emit, emit_all, warn, get_state, record_failure, cache_set,
    semanticAnalysis.
  destruct (depth_eqb (effective_depth o) Surface).
  - destruct (_ <? _)%Z; left; reflexivity.
  - destruct (analyzeModulesInParallel e _) as [structural evs].
    destruct (_ || _); destruct (_ <? _)%Z; destruct (opt_focus o) as [|f fs];
      try destruct (filter _ _); destruct (env_hasGeminiKey e);
      destruct (env_gemini e);
      destruct (JsNum.lt (JsNum.of_nat SEMANTIC_COMPLEXITY_THRESHOLD)
                  (surface_complexity (env_surface e))); simpl; eauto.
Qed.

End RunFacts.

Module RunClaims.
Import Disclosure Orchestrator Scenarios StructuralPhaseFacts RunFacts.

(** C2, code bug: the extraction of module [src] throws (the extractor
    was invoked for it), yet the standard run records no
    [partialFailures] at all. *)
Lemma C2_counterexample :
  partialFailures (fst (run_orchestrate env_src (opts_at Standard false) [])) = None /\
  In (EvExtract "src") (os_trace (snd (run_orchestrate env_src (opts_at Standard false) []))).
Proof. split; vm_compute; auto. Qed.

(** C2, what the code does: when the extraction of module [m0] throws
    (gives no report), every report of [analyzeModulesStructurally] comes
    from another module whose extraction succeeded, and every module with
    files whose extraction succeeds has its report in the list. The
    failure is only logged (the per-module catch of
    [analyzeModulesStructurally]): every [partialFailures] entry of any run
    names the semantic layer, never a module. *)
Theorem C2_extraction_failure_dropped
    (extract : module_id -> list (string * string) -> option structural_report)
    (modules : list module_id) (fc : list (string * string)) (m0 : module_id) :
  In m0 modules -> extract m0 (module_files m0 fc) = None ->
  (forall r, In r (fst (analyzeModulesStructurally extract modules fc)) ->
     exists m, In m modules /\ m <> m0 /\ module_files m fc <> [] /\
               extract m (module_files m fc) = Some r) /\
  (forall m r, In m modules -> module_files m fc <> [] ->
     extract m (module_files m fc) = Some r ->
     In r (fst (analyzeModulesStructurally extract modules fc))) /\
  (forall e o c fs, partialFailures (fst (run_orchestrate e o c)) = Some fs ->
     Forall (fun lf => fst lf = "semantic") fs).
Proof.
  intros _ Hm0. rewrite analyzeModulesStructurally_flat. simpl. split; [|split].
  - intros r Hr. apply in_flat_map in Hr. destruct Hr as [m [Hin Hr]].
    unfold report_of, analyze_one in Hr.
    destruct (module_files m fc) as [|p ps] eqn:Hmf; [destruct Hr|].
    simpl in Hr. destruct (extract m (p :: ps)) as [r'|] eqn:Hx; [|destruct Hr].
    destruct Hr as [<-|[]]. exists m. split; [exact Hin|]. split.
    + intros ->. rewrite Hmf in Hm0. congruence.
    + split; [rewrite Hmf; discriminate|rewrite Hmf; exact Hx].
  - intros m r Hin Hne Hx. apply in_flat_map. exists m. split; [exact Hin|].
    unfold report_of, analyze_one.
    destruct (module_files m fc) as [|p ps]; [contradiction|].
    simpl. rewrite Hx. now left.
  - intros e o c fs Hfs. destruct (run_failures e o c) as [H|[err H]];
      rewrite H in Hfs; [discriminate|].
    injection Hfs as <-. now repeat constructor.
Qed.

(** Module [good] keeps its report although [bad] throws. *)
Lemma C2_extraction_failure_dropped_witness :
  In (report_for "good") (fst (analyzeModulesStructurally extract_bad bad_good bad_good_files)).
Proof.
  apply (proj1 (proj2 (C2_extraction_failure_dropped extract_bad bad_good bad_good_files
                          (module_named "bad" MCore) ltac:(simpl; auto) eq_refl))
           (module_named "good" MCore)).
  - simpl; auto.
  - vm_compute. discriminate.
  - vm_compute. reflexivity.
Defined.

(** C3: when the semantic phase runs (requested explicitly or by the
    deep depth) and fails, either for lack of a credential, with the
    setup message and before any service call, or because the service
    call fails, the run completes: [partialFailures] holds the single
    entry (["semantic"], error text), the summary and the sections are
    built without a semantic report from the unchanged surface and
    structural outputs, and the result is cached with them. *)
Theorem C3_semantic_failure_recorded (e : env) (o : options) (c : cache) (err : string) :
  effective_depth o <> Surface ->
  (opt_includeSemantics o = true \/ effective_depth o = Deep) ->
  (env_hasGeminiKey e = false /\ err = no_key_message \/
   env_hasGeminiKey e = true /\ env_gemini e = inl err) ->
  let '(r, st) := run_orchestrate e o c in
  partialFailures r = Some [("semantic", err)] /\
  result_summary r = buildSummary (env_surface e) None /\
  sections r = buildExpandableSections (env_surface e) (structural_of e o) None /\
  os_cache st = Cache.set Cache.DEFAULT_TTL_MS (env_now e) (env_repoPath e)
                  {| cd_result := r; cd_surface := env_surface e;
                     cd_structural := structural_of e o; cd_semantic := None |}
                  None (effective_depth o) c /\
  In EvSemantic (os_trace st) /\
  (env_hasGeminiKey e = false -> forall t, ~ In (EvService t) (os_trace st)).
Proof.
  intros Hd Hsem Hfail.
  assert (Hinc : (opt_includeSemantics o || depth_eqb (effective_depth o) Deep) = true).
  { destruct Hsem as [ -> | -> ]; [reflexivity|apply orb_true_r]. }
  assert (Hns : depth_eqb (effective_depth o) Surface = false).
  { destruct (effective_depth o); [congruence|reflexivity|reflexivity]. }
  pose proof (structural_events_extract e (select_modules o (env_surface e))) as Hev.
  unfold run_orchestrate, orchestrateAnalysis, structural_of.
  cbv zeta. rewrite Hinc, Hns.
  unfold bind, ret, emit, emit_all, warn, get_state, record_failure, cache_set,
    semanticAnalysis.
  destruct (analyzeModulesInParallel e (select_modules o (env_surface e)))
    as [structural evs].
  simpl in Hev.
  destruct (_ <? _)%Z; destruct (opt_focus o) as [|f fs]; try destruct (filter _ _);
    destruct Hfail as [[Hk ->]|[Hk Hg]]; rewrite Hk; try rewrite Hg; simpl.
  all: repeat split.
  all: try (rewrite !in_app_iff; simpl; tauto).
  all: try discriminate.
  all: intros _ t [H|H]; [discriminate|].
  all: rewrite !in_app_iff in H; destruct H as [[H|[H|[]]]|[H|[]]]; try discriminate.
  all: rewrite Forall_forall in Hev; destruct (Hev _ H) as [p Hp]; discriminate.
Qed.

(** A standard run over [src] with semantics requested and no
    credential. *)
Lemma C3_semantic_failure_recorded_witness :
  partialFailures (fst (run_orchestrate env_src (opts_at Standard true) [])) =
    Some [("semantic", no_key_message)].
Proof.
  generalize (C3_semantic_failure_recorded env_src (opts_at Standard true) [] no_key_message
                ltac:(discriminate) (or_introl eq_refl) (or_introl (conj eq_refl eq_refl))).
  destruct (run_orchestrate env_src (opts_at Standard true) []) as [r st].
  intros [H _]. exact H.
Defined.

End RunClaims.

(* ------------------------------------------------------------------ *)
(** ** The regular-expression symbol extractor *)

Module RegexFacts.
Import Regex Structural.

Lemma str_app_assoc (a b c : string) : ((a ++ b) ++ c)%string = (a ++ (b ++ c))%string.
Proof. induction a as [|x a IH]; simpl; [reflexivity|now rewrite IH]. Qed.

Lemma str_app_nil_r (a : string) : (a ++ EmptyString)%string = a.
Proof. induction a as [|x a IH]; simpl; [reflexivity|now rewrite IH]. Qed.

Lemma drop_str_0 (s : string) : drop_str 0 s = s.
Proof.
  unfold drop_str. rewrite Nat.sub_0_r.
  induction s as [|c s IH]; simpl; [reflexivity|now rewrite IH].
Qed.

Lemma drop_str_S (j : nat) (c : ascii) (s : string) :
  drop_str (S j) (String c s) = drop_str j s.
Proof. reflexivity. Qed.

Lemma drop_str_app (a b : string) (j : nat) :
  drop_str (String.length a + j) (a ++ b) = drop_str j b.
Proof. induction a as [|c a IH]; simpl; [reflexivity|]. rewrite drop_str_S. exact IH. Qed.

Lemma prefix_split (w s : string) :
  prefix w s = true -> s = (w ++ drop_str (String.length w) s)%string.
Proof.
  revert s. induction w as [|c w IH]; intros s H.
  - simpl. now rewrite drop_str_0.
  - destruct s as [|c' s]; [discriminate|]. simpl in H.
    destruct (ascii_dec c c') as [<-|]; [|discriminate].
    simpl. rewrite drop_str_S. f_equal. now apply IH.
Qed.

Lemma prefix_app (w s : string) : prefix w (w ++ s) = true.
Proof.
  induction w as [|c w IH]; simpl; [destruct s; reflexivity|].
  destruct (ascii_dec c c); [exact IH|contradiction].
Qed.

Lemma span_app (p : ascii -> bool) (s : string) :
  s = (fst (span p s) ++ snd (span p s))%string.
Proof.
  induction s as [|c s IH]; simpl; [reflexivity|].
  destruct (p c); [|reflexivity].
  destruct (span p s) as [t r]. simpl in *. now rewrite <- IH.
Qed.

Lemma splits_app (t rest a b : string) :
  In (a, b) (splits t rest) -> (t ++ rest)%string = (a ++ b)%string.
Proof.
  revert a b. induction t as [|c t IH]; intros a b H; simpl in H.
  - destruct H as [H|[]]. injection H as <- <-. reflexivity.
  - apply in_app_or in H. destruct H as [H|[H|[]]].
    + apply in_map_iff in H. destruct H as [[a' b'] [Hab Hin]].
      injection Hab as <- <-. simpl. f_equal. now apply IH.
    + injection H as <- <-. reflexivity.
Qed.

(** Every match of [r] at the head of [s] is a prefix of [s]. *)
Lemma run_prefix (r : re) (s : string) (caps : list string) (m rest : string) :
  In (caps, m, rest) (run r s) -> s = (m ++ rest)%string.
Proof.
  revert s caps m rest. induction r as [w|a IHa b IHb|a IHa b IHb|a IHa|p|p|a IHa];
    intros s caps m rest H; simpl in H.
  - destruct (prefix w s) eqn:Hp; [|destruct H].
    destruct H as [H|[]]. injection H as <- <- <-. now apply prefix_split.
  - apply in_flat_map in H. destruct H as [[[c1 m1] r1] [H1 H2]].
    apply in_map_iff in H2. destruct H2 as [[[c2 m2] r2] [Heq H2]].
    injection Heq as <- <- <-. rewrite str_app_assoc.
    rewrite (IHa _ _ _ _ H1). f_equal. now apply (IHb _ c2).
  - apply in_app_or in H. destruct H as [H|H]; [now apply (IHa _ caps)|now apply (IHb _ caps)].
  - apply in_app_or in H. destruct H as [H|[H|[]]]; [now apply (IHa _ caps)|].
    injection H as <- <- <-. reflexivity.
  - pose proof (span_app p s) as Hs. destruct (span p s) as [t r0]. simpl in Hs.
    apply filter_In in H. destruct H as [H _]. apply in_map_iff in H.
    destruct H as [[a b] [Heq Hin]]. injection Heq as <- <- <-.
    rewrite Hs. now apply splits_app.
  - pose proof (span_app p s) as Hs. destruct (span p s) as [t r0]. simpl in Hs.
    apply in_map_iff in H.
    destruct H as [[a b] [Heq Hin]]. injection Heq as <- <- <-.
    rewrite Hs. now apply splits_app.
  - apply in_map_iff in H. destruct H as [[[c m'] r'] [Heq Hin]].
    injection Heq as <- <- <-. now apply (IHa _ c).
Qed.

(** Each match the [while (exec)] loop reports at index [idx] is the
    first match of the pattern at that position. *)
Lemma scan_sound (r : re) (fuel i : nat) (s : string) (idx : nat) (m : string)
    (caps : list string) :
  In (idx, m, caps) (scan r fuel i s) ->
  (i <= idx)%nat /\ exists rest, In (caps, m, rest) (run r (drop_str (idx - i) s)).
Proof.
  revert i s. induction fuel as [|fuel IH]; intros i s H; simpl in H; [destruct H|].
  assert (Hskip : forall s' c, In (idx, m, caps) (scan r fuel (S i) s') ->
            (i <= idx)%nat /\ exists rest,
              In (caps, m, rest) (run r (drop_str (idx - i) (String c s')))).
  { intros s' c Hs'. destruct (IH _ _ Hs') as [Hle [rest Hrun]].
    split; [lia|]. exists rest.
    replace (idx - i)%nat with (S (idx - S i)) by lia. now rewrite drop_str_S. }
  destruct (run r s) as [|[[caps0 m0] rest0] tl] eqn:Hr.
  - destruct s as [|c s']; [destruct H|]. exact (Hskip s' c H).
  - destruct (String.eqb m0 EmptyString).
    + destruct s as [|c s']; [destruct H|]. exact (Hskip s' c H).
    + destruct H as [H|H].
      * injection H as <- <- <-. split; [lia|]. exists rest0.
        rewrite Nat.sub_diag, drop_str_0, Hr. now left.
      * destruct (IH _ _ H) as [Hle [rest Hrun]]. split; [lia|]. exists rest.
        assert (Hs : s = (m0 ++ rest0)%string).
        { apply (run_prefix r s caps0). rewrite Hr. now left. }
        replace (idx - i)%nat with (String.length m0 + (idx - (i + String.length m0)))%nat
          by lia.
        rewrite Hs, drop_str_app. exact Hrun.
Qed.

Lemma run_Seq_inv (a b : re) (s : string) (caps : list string) (m rest : string) :
  In (caps, m, rest) (run (Seq a b) s) ->
  exists c1 m1 r1 c2 m2, In (c1, m1, r1) (run a s) /\ In (c2, m2, rest) (run b r1) /\
                         m = (m1 ++ m2)%string.
Proof.
  simpl. intros H. apply in_flat_map in H. destruct H as [[[c1 m1] r1] [H1 H2]].
  apply in_map_iff in H2. destruct H2 as [[[c2 m2] r2] [Heq H2]].
  injection Heq as _ <- <-. now exists c1, m1, r1, c2, m2.
Qed.

Lemma run_Opt_inv (a : re) (s : string) (caps : list string) (m rest : string) :
  In (caps, m, rest) (run (Opt a) s) ->
  In (caps, m, rest) (run a s) \/ (m = EmptyString /\ rest = s).
Proof.
  simpl. intros H. apply in_app_or in H. destruct H as [H|[H|[]]]; [now left|].
  injection H as _ <- <-. now right.
Qed.

Lemma run_Alt_inv (a b : re) (s : string) (caps : list string) (m rest : string) :
  In (caps, m, rest) (run (Alt a b) s) ->
  In (caps, m, rest) (run a s) \/ In (caps, m, rest) (run b s).
Proof. simpl. apply in_app_or. Qed.

Lemma run_Lit_inv (w s : string) (caps : list string) (m rest : string) :
  In (caps, m, rest) (run (Lit w) s) -> m = w.
Proof.
  simpl. destruct (prefix w s); [|intros []]. intros [H|[]]. now injection H as _ <- _.
Qed.

(** The match begins with a character other than [e]. *)
Definition starts_not_e (m : string) : Prop :=
  exists c m', m = String c m' /\ c <> "e"%char.

(** What a declaration match begins with: the [export] keyword, or
    something that cannot begin it. *)
Definition lead (m : string) : Prop := prefix "export" m = true \/ starts_not_e m.

Definition pat_lead (pat : re) : Prop :=
  forall s caps m rest, In (caps, m, rest) (run pat s) -> lead m.

Lemma lead_prefix (m rest : string) :
  lead m -> prefix "export" m = prefix "export" (m ++ rest).
Proof.
  intros [H|[c [m' [-> Hc]]]].
  - rewrite H. rewrite (prefix_split _ _ H), str_app_assoc. symmetry. apply prefix_app.
  - cbn [prefix append]. destruct (ascii_dec "e" c) as [E|]; [congruence|reflexivity].
Qed.

Lemma seq_lit_start (c : ascii) (w : string) (b : re) (s : string)
    (caps : list string) (m rest : string) :
  In (caps, m, rest) (run (Seq (Lit (String c w)) b) s) -> exists m', m = String c m'.
Proof.
  intros H. apply run_Seq_inv in H. destruct H as [c1 [m1 [r1 [c2 [m2 [H1 [_ ->]]]]]]].
  apply run_Lit_inv in H1. subst m1. now exists (w ++ m2)%string.
Qed.

Lemma export_opt_lead (X : re) :
  (forall s caps m rest, In (caps, m, rest) (run X s) -> starts_not_e m) ->
  pat_lead (export_opt X).
Proof.
  intros HX s caps m rest H. unfold export_opt in H.
  apply run_Seq_inv in H. destruct H as [c1 [m1 [r1 [c2 [m2 [H1 [H2 ->]]]]]]].
  apply run_Opt_inv in H1. destruct H1 as [H1|[-> ->]].
  - left. apply run_Seq_inv in H1. destruct H1 as [c3 [m3 [r3 [c4 [m4 [H3 [_ ->]]]]]]].
    apply run_Lit_inv in H3. subst m3. rewrite !str_app_assoc. apply prefix_app.
  - right. exact (HX _ _ _ _ H2).
Qed.

Lemma lit_lead (c : ascii) (w : string) (b : re) :
  c <> "e"%char ->
  forall s caps m rest, In (caps, m, rest) (run (Seq (Lit (String c w)) b) s) -> starts_not_e m.
Proof.
  intros Hc s caps m rest H. apply seq_lit_start in H. destruct H as [m' ->].
  now exists c, m'.
Qed.

Lemma functionPattern_lead : pat_lead functionPattern.
Proof.
  apply export_opt_lead. intros s caps m rest H.
  apply run_Seq_inv in H. destruct H as [c1 [m1 [r1 [c2 [m2 [H1 [H2 ->]]]]]]].
  apply run_Opt_inv in H1. destruct H1 as [H1|[-> ->]].
  - apply seq_lit_start in H1. destruct H1 as [m' ->]. exists "a"%char, (m' ++ m2)%string.
    split; [reflexivity|discriminate].
  - simpl append. apply run_Seq_inv in H2.
    destruct H2 as [c3 [m3 [r3 [c4 [m4 [H3 [_ ->]]]]]]].
    unfold alts in H3.
    repeat match goal with
           | H : In _ (run (Alt _ _) _) |- _ => apply run_Alt_inv in H; destruct H as [H|H]
           end;
      apply run_Lit_inv in H3; subst m3; simpl;
      eexists; eexists; (split; [reflexivity|discriminate]).
Qed.

Lemma classPattern_lead : pat_lead classPattern.
Proof. apply export_opt_lead, lit_lead. discriminate. Qed.

Lemma interfacePattern_lead : pat_lead interfacePattern.
Proof. apply export_opt_lead, lit_lead. discriminate. Qed.

Lemma typePattern_lead : pat_lead typePattern.
Proof. apply export_opt_lead, lit_lead. discriminate. Qed.

Lemma constPattern_lead : pat_lead constPattern.
Proof. apply export_opt_lead, lit_lead. discriminate. Qed.

(** For a pattern of this shape, a match found at index [i] begins with
    [export] exactly when the text at [i] does. *)
Lemma exec_all_export (pat : re) (content : string) (i : nat) (m0 : string)
    (caps : list string) :
  pat_lead pat -> In (i, m0, caps) (exec_all pat content) ->
  prefix "export" m0 = prefix "export" (drop_str i content).
Proof.
  intros Hpat H. apply scan_sound in H. destruct H as [_ [rest Hrun]].
  rewrite Nat.sub_0_r in Hrun.
  rewrite (run_prefix _ _ _ _ _ Hrun). apply lead_prefix. exact (Hpat _ _ _ _ Hrun).
Qed.

(** The symbols one [while (exec)] loop pushes. *)
Lemma symbols_of_export (pat : re) (t : symbol_type) (filePath content : string) (s : symbol) :
  pat_lead pat -> In s (symbols_of pat t filePath content) ->
  exists i, sym_line s = getLineNumber content i /\
            sym_exported s = prefix "export" (drop_str i content) /\ sym_type s = t.
Proof.
  intros Hpat Hs. unfold symbols_of in Hs. apply in_map_iff in Hs.
  destruct Hs as [[[i m0] caps] [<- Hin]]. exists i. simpl.
  split; [reflexivity|]. split; [|reflexivity].
  unfold JsString.startsWith. exact (exec_all_export _ _ _ _ _ Hpat Hin).
Qed.

Lemma constants_of_export (filePath content : string) (s : symbol) :
  In s (constants_of filePath content) ->
  exists i, sym_line s = getLineNumber content i /\
            sym_exported s = prefix "export" (drop_str i content) /\
            sym_type s = SConstant /\
            (sym_exported s = false -> sym_name s = toUpperCase (sym_name s)).
Proof.
  intros Hs. unfold constants_of in Hs. apply in_map_iff in Hs.
  destruct Hs as [[[i m0] caps] [<- Hin]]. apply filter_In in Hin.
  destruct Hin as [Hin Hkeep]. exists i. simpl.
  split; [reflexivity|]. split; [|split; [reflexivity|]].
  - unfold JsString.startsWith. exact (exec_all_export _ _ _ _ _ constPattern_lead Hin).
  - intros Hno. rewrite Hno in Hkeep. simpl in Hkeep. now apply String.eqb_eq.
Qed.

End RegexFacts.

Module ExtractorClaims.
Import Regex Structural Scenarios RegexFacts.

(** C6, code bug: a function declared with [export default] is listed
    among the file's exports (the export pattern allows [default]), while
    its symbol, found by the function pattern that does not, is reported
    with [exported = false]. Besides, by design, an upper-case constant
    declared without [export] is reported with [exported = false]. *)
Lemma C6_counterexample :
  fs_symbols (analyzeFileWithRegex "a.ts" "export default function foo() {}" ts_config) =
    [{| sym_name := "foo"; sym_type := SFunction; sym_file := "a.ts";
        sym_line := 1; sym_exported := false |}] /\
  fs_exports (analyzeFileWithRegex "a.ts" "export default function foo() {}" ts_config) =
    ["foo"] /\
  fs_symbols (analyzeFileWithRegex "a.ts" "const FOO = 1;" ts_config) =
    [{| sym_name := "FOO"; sym_type := SConstant; sym_file := "a.ts";
        sym_line := 1; sym_exported := false |}].
Proof. vm_compute. split; [reflexivity|split; reflexivity]. Qed.

(** C6, what the code does: every symbol the regex extractor reports
    was matched at some index [i] of the file (its line is the line of
    [i]), and it is exported exactly when the text at [i] begins with
    [export]. An upper-case name does not make a constant exported; it
    only decides whether a non-exported constant is reported at all: a
    reported constant that is not exported has an upper-case name. *)
Theorem C6_exported_iff_export_keyword (filePath content : string)
    (config : language_config) (s : symbol) :
  In s (fs_symbols (analyzeFileWithRegex filePath content config)) ->
  exists i, sym_line s = getLineNumber content i /\
            (sym_exported s = true <-> prefix "export" (drop_str i content) = true) /\
            (sym_type s = SConstant -> sym_exported s = false ->
             sym_name s = toUpperCase (sym_name s)).
Proof.
  intros Hs. simpl in Hs. rewrite !in_app_iff in Hs.
  destruct Hs as [Hs|[Hs|[Hs|[Hs|Hs]]]];
    [ apply symbols_of_export in Hs; [|exact functionPattern_lead]
    | apply symbols_of_export in Hs; [|exact classPattern_lead]
    | apply symbols_of_export in Hs; [|exact interfacePattern_lead]
    | apply symbols_of_export in Hs; [|exact typePattern_lead]
    | ].
  1-4: destruct Hs as [i [Hl [He Ht]]]; exists i; rewrite He;
       split; [exact Hl|split; [reflexivity|]]; rewrite Ht; discriminate.
  destruct (constants_of_export _ _ _ Hs) as [i [Hl [He [_ Hu]]]].
  exists i. rewrite He in Hu |- *. split; [exact Hl|split; [reflexivity|intros _; exact Hu]].
Qed.

(** The exported constant of [export const MAX = 3;]. *)
Lemma C6_exported_iff_export_keyword_witness :
  exists i, getLineNumber "export const MAX = 3;" i = 1%nat /\
            prefix "export" (drop_str i "export const MAX = 3;") = true.
Proof.
  destruct (C6_exported_iff_export_keyword "a.ts" "export const MAX = 3;" ts_config
              {| sym_name := "MAX"; sym_type := SConstant; sym_file := "a.ts";
                 sym_line := 1; sym_exported := true |}
              ltac:(vm_compute; left; reflexivity)) as [i [Hl [He _]]].
  exists i. split; [symmetry; exact Hl|]. apply He. reflexivity.
Defined.

End ExtractorClaims.

Module MapFacts.
Local Open Scope nat_scope.
Import SurfaceLayer.


Definition keys {A} (m : list (string * A)) : list string := map fst m.

Lemma map_get_set_same (k : string) {A} (v : A) (c : list (string * A)) :
  map_get k (map_set k v c) = Some v.
Proof.
  induction c as [|[k' v'] c IH]; simpl.
  - now rewrite String.eqb_refl.
  - destruct (String.eqb k k') eqn:E; simpl; rewrite E; [reflexivity|exact IH].
Qed.

Lemma keys_map_set (k x : string) {A} (v : A) (c : list (string * A)) :
  In x (keys (map_set k v c)) -> x = k \/ In x (keys c).
Proof.
  induction c as [|[k' v'] c IH]; simpl.
  - intros [H|[]]. now left.
  - destruct (String.eqb k k') eqn:E; simpl.
    + intros H. now right.
    + intros [H|H]; [now right; left|]. destruct (IH H); [now left|now right; right].
Qed.

Lemma in_map_set (k : string) {A} (v : A) (c : list (string * A)) (x : string * A) :
  In x (map_set k v c) -> x = (k, v) \/ In x c.
Proof.
  induction c as [|[k' v'] c IH]; simpl.
  - intros [H|[]]. now left.
  - destruct (String.eqb k k') eqn:E; simpl.
    + apply String.eqb_eq in E. subst k'.
      intros [H|H]; [now left|now right; right].
    + intros [H|H]; [now right; left|]. destruct (IH H); [now left|now right; right].
Qed.

Lemma length_map_set (k : string) {A} (v : A) (c : list (string * A)) :
  List.length (map_set k v c) <= S (List.length c).
Proof.
  induction c as [|[k' v'] c IH]; simpl; [lia|].
  destruct (String.eqb k k'); simpl; lia.
Qed.

Lemma map_get_set_other (k k' : string) {A} (v : A) (c : list (string * A)) :
  k <> k' -> map_get k (map_set k' v c) = map_get k c.
Proof.
  intros Hne. induction c as [|[k0 v0] c IH]; simpl.
  - destruct (String.eqb_spec k k'); [contradiction|reflexivity].
  - destruct (String.eqb_spec k' k0) as [->|_]; simpl.
    + destruct (String.eqb_spec k k0); [contradiction|reflexivity].
    + destruct (String.eqb k k0); [reflexivity|exact IH].
Qed.

Lemma map_get_In (k : string) {A} (v : A) (c : list (string * A)) :
  map_get k c = Some v -> In (k, v) c.
Proof.
  induction c as [|[k0 v0] c IH]; simpl; [discriminate|].
  destruct (String.eqb_spec k k0) as [->|_]; [intros H; injection H as ->; now left|].
  intros H; right; now apply IH.
Qed.

Lemma In_map_get (k : string) {A} (v : A) (c : list (string * A)) :
  NoDup (keys c) -> In (k, v) c -> map_get k c = Some v.
Proof.
  induction c as [|[k0 v0] c IH]; simpl; [tauto|].
  intros Hnd. inversion Hnd as [|? ? Hn Hnd']; subst.
  intros [H|H].
  - injection H as -> ->. now rewrite String.eqb_refl.
  - destruct (String.eqb_spec k k0) as [->|_]; [|now apply IH].
    exfalso. apply Hn. apply in_map_iff. now exists (k0, v).
Qed.

Lemma map_get_None (k : string) {A} (c : list (string * A)) :
  map_get k c = None <-> ~ In k (keys c).
Proof.
  induction c as [|[k0 v0] c IH]; simpl; [tauto|].
  destruct (String.eqb_spec k k0) as [->|Hne]; [split; [discriminate|tauto]|].
  rewrite IH. split; [intros H [->|H']; [congruence|tauto]|tauto].
Qed.

Lemma NoDup_keys_map_set (k : string) {A} (v : A) (c : list (string * A)) :
  NoDup (keys c) -> NoDup (keys (map_set k v c)).
Proof.
  induction c as [|[k' v'] c IH]; simpl.
  - intros _. constructor; [tauto|constructor].
  - intros Hnd. inversion Hnd as [|? ? Hn Hnd']; subst.
    destruct (String.eqb k k') eqn:E; simpl; [exact Hnd|].
    constructor; [|now apply IH].
    intros Hin. destruct (keys_map_set k k' v c Hin) as [->|H]; [|contradiction].
    now rewrite String.eqb_refl in E.
Qed.

End MapFacts.

Module CacheInvariants.
Local Open Scope nat_scope.
Import JsString Cache SurfaceLayer CacheFacts MapFacts.

Section Store.
Variable V : Type.

Lemma in_map_delete (k : string) (c : cache V) (x : string * entry V) :
  In x (map_delete k c) -> In x c.
Proof.
  induction c as [|[k' v'] c IH]; simpl; [tauto|].
  destruct (String.eqb k k'); simpl; [tauto|]. intuition.
Qed.

Lemma keys_map_delete (k x : string) (c : cache V) :
  In x (keys (map_delete k c)) -> In x (keys c).
Proof.
  intros H. unfold keys in *. apply in_map_iff in H. destruct H as [[x' e] [<- H]].
  apply in_map_iff. exists (x', e). split; [reflexivity|]. exact (in_map_delete k c _ H).
Qed.

Lemma length_map_delete_in (k : string) (c : cache V) :
  In k (keys c) -> S (List.length (map_delete k c)) = List.length c.
Proof.
  induction c as [|[k' v'] c IH]; simpl; [tauto|].
  intros [H|H].
  - subst k'. now rewrite String.eqb_refl.
  - destruct (String.eqb k k'); simpl; [reflexivity|]. now rewrite IH.
Qed.

Lemma map_get_not_in (k : string) (c : cache V) :
  ~ In k (keys c) -> map_get k c = None.
Proof.
  induction c as [|[k' v'] c IH]; simpl; [reflexivity|].
  intros Hn. destruct (String.eqb k k') eqn:E.
  - apply String.eqb_eq in E. subst. tauto.
  - apply IH. tauto.
Qed.

Lemma map_get_delete_same (k : string) (c : cache V) :
  NoDup (keys c) -> map_get k (map_delete k c) = None.
Proof.
  induction c as [|[k' v'] c IH]; simpl; [reflexivity|].
  intros Hnd. inversion Hnd as [|? ? Hn Hnd']; subst.
  destruct (String.eqb k k') eqn:E.
  - apply String.eqb_eq in E. subst. now apply map_get_not_in.
  - simpl. rewrite E. now apply IH.
Qed.

Lemma NoDup_map_delete (k : string) (c : cache V) :
  NoDup (keys c) -> NoDup (keys (map_delete k c)).
Proof.
  induction c as [|[k' v'] c IH]; simpl; [tauto|].
  intros Hnd. inversion Hnd as [|? ? Hn Hnd']; subst.
  destruct (String.eqb k k'); simpl; [exact Hnd'|].
  constructor; [|now apply IH]. intros Hin. apply Hn. exact (keys_map_delete k k' c Hin).
Qed.

Lemma NoDup_evictOldest (c : cache V) :
  NoDup (keys c) -> NoDup (keys (evictOldest c)).
Proof.
  intros Hnd. unfold evictOldest.
  destruct (truthy_key (fst (oldest c))); [|exact Hnd].
  destruct (fst (oldest c)); [now apply NoDup_map_delete|exact Hnd].
Qed.

(** With distinct keys, an entry is determined by its key. *)
Lemma keys_unique (c : cache V) (k : string) (e1 e2 : entry V) :
  NoDup (keys c) -> In (k, e1) c -> In (k, e2) c -> e1 = e2.
Proof.
  induction c as [|[k' v'] c IH]; simpl; [tauto|].
  intros Hnd. inversion Hnd as [|? ? Hn Hnd']; subst.
  intros [H1|H1] [H2|H2].
  - congruence.
  - injection H1 as -> ->. exfalso. apply Hn. apply in_map_iff. now exists (k, e2).
  - injection H2 as -> ->. exfalso. apply Hn. apply in_map_iff. now exists (k, e1).
  - now apply IH.
Qed.

(** With distinct keys, [Map.delete] is a filter on the key. *)
Lemma map_delete_filter (k : string) (c : cache V) :
  NoDup (keys c) -> map_delete k c = filter (fun ke => negb (String.eqb k (fst ke))) c.
Proof.
  induction c as [|[k' v'] c IH]; simpl; [reflexivity|].
  intros Hnd. inversion Hnd as [|? ? Hn Hnd']; subst.
  destruct (String.eqb k k') eqn:E; simpl.
  - apply String.eqb_eq in E. subst k'. symmetry.
    rewrite forallb_filter_id; [reflexivity|]. apply forallb_forall.
    intros [k2 e2] Hin. simpl. destruct (String.eqb k k2) eqn:E2; [|reflexivity].
    apply String.eqb_eq in E2. subst. exfalso. apply Hn. apply in_map_iff.
    now exists (k2, e2).
  - now rewrite IH.
Qed.

End Store.

End CacheInvariants.

Module CacheExtras.
Local Open Scope nat_scope.
Import JsString Cache SurfaceLayer ListFacts CacheFacts MapFacts CacheInvariants.
Import Scenarios.

Section Props.
Variable V : Type.

Definition expired (now : Z) (e : entry V) : bool := Z.ltb (expiresAt e) now.

Definition clear_step (now : Z) (acc : cache V * nat) (ke : string * entry V)
  : cache V * nat :=
  let '(c', cleared) := acc in
  let '(k, e) := ke in
  if Z.ltb (expiresAt e) now then (map_delete k c', S cleared) else (c', cleared).

(** Whether a pass over [l] deletes the key of [ke]. *)
Definition removed_by (now : Z) (l : cache V) (ke : string * entry V) : bool :=
  existsb (fun ke2 => String.eqb (fst ke2) (fst ke) && expired now (snd ke2)) l.

Lemma clearExpired_fold (now : Z) (c : cache V) :
  clearExpired now c = fold_left (clear_step now) c (c, 0).
Proof.
  unfold clearExpired. apply fold_left_pointwise. intros [c' n] [k e]. reflexivity.
Qed.

Lemma filter_filter' {A} (f g : A -> bool) (l : list A) :
  filter f (filter g l) = filter (fun x => g x && f x) l.
Proof.
  induction l as [|x l IH]; simpl; [reflexivity|].
  destruct (g x); simpl; [destruct (f x); simpl; now rewrite IH|exact IH].
Qed.

Lemma clear_fold (now : Z) (l acc : cache V) (n : nat) :
  NoDup (keys acc) ->
  fold_left (clear_step now) l (acc, n) =
  (filter (fun ke => negb (removed_by now l ke)) acc,
   n + List.length (filter (fun ke => expired now (snd ke)) l)).
Proof.
  revert acc n. induction l as [|[k e] l IH]; intros acc n Hnd; simpl.
  - rewrite forallb_filter_id; [f_equal; lia|]. now apply forallb_forall.
  - unfold expired at 2. simpl. destruct (Z.ltb (expiresAt e) now) eqn:Ex.
    + rewrite IH by now apply NoDup_map_delete.
      rewrite map_delete_filter by exact Hnd. rewrite filter_filter'. f_equal; [|simpl; lia].
      apply filter_ext. intros [k2 e2]. unfold removed_by. simpl.
      replace (expired now e) with true by (unfold expired; now rewrite Ex).
      destruct (String.eqb k k2); reflexivity.
    + rewrite IH by exact Hnd. f_equal. apply filter_ext. intros [k2 e2].
      unfold removed_by. simpl. replace (expired now e) with false by (unfold expired; now rewrite Ex).
      now rewrite andb_false_r.
Qed.

Lemma NoDup_keys_filter (f : string * entry V -> bool) (c : cache V) :
  NoDup (keys c) -> NoDup (keys (filter f c)).
Proof.
  induction c as [|[k e] c IH]; simpl; [tauto|].
  intros Hnd. inversion Hnd as [|? ? Hn Hnd']; subst.
  destruct (f (k, e)); simpl; [|now apply IH].
  constructor; [|now apply IH]. intros Hin. apply Hn.
  unfold keys in *. apply in_map_iff in Hin. destruct Hin as [[k' e'] [Hk Hin]].
  apply filter_In in Hin. apply in_map_iff. exists (k', e'). tauto.
Qed.

Lemma removed_by_self (now : Z) (c : cache V) (ke : string * entry V) :
  NoDup (keys c) -> In ke c -> removed_by now c ke = expired now (snd ke).
Proof.
  intros Hnd Hin. unfold removed_by. destruct (expired now (snd ke)) eqn:Ex.
  - apply existsb_exists. exists ke. split; [exact Hin|]. now rewrite String.eqb_refl, Ex.
  - apply not_true_iff_false. intros H. apply existsb_exists in H.
    destruct H as [[k2 e2] [Hin2 H]]. apply andb_true_iff in H. destruct H as [Hk He].
    apply String.eqb_eq in Hk. destruct ke as [k e]. simpl in *. subst k2.
    rewrite (keys_unique V c k e2 e Hnd Hin2 Hin) in He. congruence.
Qed.

End Props.

Arguments expired {V}.

Lemma map_chars_app (f : ascii -> ascii) (a b : string) :
  map_chars f (a ++ b) = (map_chars f a ++ map_chars f b)%string.
Proof. induction a as [|x a IH]; simpl; [reflexivity|now rewrite IH]. Qed.

Lemma strip_app_slash (x : string) :
  strip_trailing_slashes (x ++ String slash EmptyString)%string = strip_trailing_slashes x.
Proof.
  induction x as [|a x IH]; [reflexivity|].
  cbn [append strip_trailing_slashes]. now rewrite IH.
Qed.

(** X1: [get] right after [set] of the same source and commit hash finds
    the data, as long as the entry has not expired, whatever the cache
    held and whatever the eviction removed; the hit leaves the cache
    unchanged. *)
Theorem set_then_get {V} (ttlMs now t : Z) (source : string) (data : V)
    (commitHash : option string) (depth : analysis_depth) (c : cache V) :
  (t <= now + ttlMs)%Z ->
  let c' := set ttlMs now source data commitHash depth c in
  get t source commitHash c' = (Some data, c').
Proof.
  intros Ht c'. unfold get, c', set. cbv zeta. rewrite map_get_set_same. simpl.
  destruct (Z.ltb_spec (now + ttlMs) t); [lia|reflexivity].
Qed.

(** X2: as long as no key is the empty string, [set] keeps the cache at
    no more than [MAX_CACHE_ENTRIES] entries. *)
Theorem set_bounded {V} (ttlMs now : Z) (source : string) (data : V)
    (commitHash : option string) (depth : analysis_depth) (c : cache V) :
  Forall (fun ke => fst ke <> EmptyString) c ->
  generateKey source commitHash <> EmptyString ->
  List.length c <= MAX_CACHE_ENTRIES ->
  let c' := set ttlMs now source data commitHash depth c in
  List.length c' <= MAX_CACHE_ENTRIES /\ Forall (fun ke => fst ke <> EmptyString) c'.
Proof.
  intros Hall Hk Hlen c'. unfold c', set. cbv zeta.
  set (c0 := if Nat.leb MAX_CACHE_ENTRIES (List.length c) then evictOldest c else c).
  assert (Hc0 : List.length c0 < MAX_CACHE_ENTRIES /\ forall x, In x c0 -> In x c).
  { unfold c0. destruct (Nat.leb_spec MAX_CACHE_ENTRIES (List.length c)) as [Hge|Hlt].
    - assert (Hne : c <> []) by (intros ->; simpl in Hge; unfold MAX_CACHE_ENTRIES in Hge; lia).
      destruct (evictOldest_minimal V c Hne) as [k [e [Hin [_ Hev]]]].
      rewrite Forall_forall in Hall. pose proof (Hall _ Hin) as Hke. simpl in Hke.
      rewrite Hev. destruct (String.eqb_spec k EmptyString) as [E|_]; [contradiction|].
      split; [|apply in_map_delete].
      pose proof (length_map_delete_in V k c) as Hl.
      assert (In k (keys c)) by (apply in_map_iff; now exists (k, e)). specialize (Hl H). lia.
    - split; [exact Hlt|tauto]. }
  destruct Hc0 as [Hl0 Hsub]. split.
  - match goal with |- context [map_set ?k ?v c0] => pose proof (length_map_set k v c0) end. lia.
  - rewrite Forall_forall in *. intros x Hx. apply in_map_set in Hx.
    destruct Hx as [->|Hx]; [exact Hk|]. exact (Hall x (Hsub x Hx)).
Qed.

(** X3: [invalidate] reports whether an entry was stored under the key, and
    afterwards [get] for the same source and commit hash misses (keys are
    distinct, as the [Map] guarantees). *)
Theorem invalidate_then_get {V} (now : Z) (source : string) (commitHash : option string)
    (c : cache V) :
  NoDup (keys c) ->
  (fst (invalidate source commitHash c) = true <-> In (generateKey source commitHash) (keys c)) /\
  fst (get now source commitHash (snd (invalidate source commitHash c))) = None.
Proof.
  intros Hnd. unfold invalidate, get. simpl. split.
  - set (k := generateKey source commitHash). split.
    + destruct (map_get k c) as [e|] eqn:E; [|discriminate]. intros _.
      clear Hnd. induction c as [|[k' e'] c IH]; simpl in *; [discriminate|].
      destruct (String.eqb_spec k k'); [now left|right; now apply IH].
    + intros Hin. destruct (map_get k c) eqn:E; [reflexivity|].
      exfalso. clear Hnd. induction c as [|[k' e'] c IH]; simpl in *; [contradiction|].
      destruct (String.eqb_spec k k'); [discriminate|].
      destruct Hin as [->|Hin]; [congruence|now apply IH].
  - now rewrite map_get_delete_same.
Qed.

(** X5: [clearExpired] keeps exactly the entries that have not expired, in
    their order, and returns how many it deleted. *)
Theorem clearExpired_spec {V} (now : Z) (c : cache V) :
  NoDup (keys c) ->
  clearExpired now c =
  (filter (fun ke => Z.leb now (expiresAt (snd ke))) c,
   List.length (filter (fun ke => Z.ltb (expiresAt (snd ke)) now) c)).
Proof.
  intros Hnd. rewrite clearExpired_fold, clear_fold by exact Hnd. f_equal.
  apply filter_ext_in. intros ke Hin. rewrite removed_by_self by assumption.
  unfold expired. now rewrite Z.ltb_antisym, negb_involutive.
Qed.

(** X6: a trailing slash or backslash on the source does not change the
    cache key. *)
Theorem generateKey_trailing_separator (source : string) (commitHash : option string) :
  generateKey (source ++ "/")%string commitHash = generateKey source commitHash /\
  generateKey (source ++ String (ascii_of_nat 92) EmptyString)%string commitHash =
  generateKey source commitHash.
Proof.
  unfold generateKey, replace_class. rewrite !map_chars_app.
  split; cbn [map_chars]; unfold slash; rewrite strip_app_slash; reflexivity.
Qed.

Lemma set_then_get_witness :
  (12 <= 5 + 10)%Z /\
  (let c' := set 10 5 "src" (data_with_id "c") (Some "abc") Standard two_entries in
   get 12 "src" (Some "abc") c' = (Some (data_with_id "c"), c')).
Proof. split; [lia|]. apply set_then_get. lia. Defined.

Lemma set_bounded_witness :
  Forall (fun ke => fst ke <> EmptyString) two_entries /\
  generateKey "/new" None <> EmptyString /\
  List.length two_entries <= MAX_CACHE_ENTRIES /\
  (let c' := set 10 20 "/new" (data_with_id "n") None Standard two_entries in
   List.length c' <= MAX_CACHE_ENTRIES /\ Forall (fun ke => fst ke <> EmptyString) c').
Proof.
  assert (Hall : Forall (fun ke => fst ke <> EmptyString) two_entries)
    by (vm_compute; repeat constructor; discriminate).
  assert (Hk : generateKey "/new" None <> EmptyString) by (vm_compute; discriminate).
  assert (Hl : List.length two_entries <= MAX_CACHE_ENTRIES) by (vm_compute; lia).
  split; [exact Hall|]. split; [exact Hk|]. split; [exact Hl|].
  exact (set_bounded 10 20 "/new" (data_with_id "n") None Standard two_entries Hall Hk Hl).
Defined.

Lemma two_entries_NoDup : NoDup (keys two_entries).
Proof. vm_compute. repeat constructor; simpl; intuition discriminate. Qed.

Lemma invalidate_then_get_witness :
  NoDup (keys two_entries) /\
  ((fst (invalidate "src" (Some "abc") two_entries) = true <->
    In (generateKey "src" (Some "abc")) (keys two_entries)) /\
   fst (get 3 "src" (Some "abc") (snd (invalidate "src" (Some "abc") two_entries))) = None).
Proof.
  split; [exact two_entries_NoDup|]. apply invalidate_then_get. exact two_entries_NoDup.
Defined.

Lemma clearExpired_spec_witness :
  NoDup (keys two_entries) /\
  clearExpired 12 two_entries =
  (filter (fun ke => Z.leb 12 (expiresAt (snd ke))) two_entries,
   List.length (filter (fun ke => Z.ltb (expiresAt (snd ke)) 12) two_entries)).
Proof.
  split; [exact two_entries_NoDup|]. apply clearExpired_spec. exact two_entries_NoDup.
Defined.

End CacheExtras.

Module StructuralExtras.
Local Open Scope nat_scope.
Import JsString Regex Structural SectionIdFacts.

Fixpoint count_char (c : ascii) (s : string) : nat :=
  match s with
  | EmptyString => 0
  | String c' s' => (if Ascii.eqb c' c then 1 else 0) + count_char c s'
  end.

Lemma split_on_length (sep : ascii) (s : string) :
  List.length (split_on sep s) = S (count_char sep s).
Proof.
  induction s as [|c s IH]; [reflexivity|]. simpl.
  destruct (split_on sep s) as [|w ws]; [discriminate|].
  simpl in IH. destruct (Ascii.eqb c sep); simpl; lia.
Qed.

Lemma count_char_app (c : ascii) (a b : string) :
  count_char c (a ++ b) = count_char c a + count_char c b.
Proof. induction a as [|x a IH]; simpl; [reflexivity|rewrite IH; lia]. Qed.

Lemma substring_0_prefix (s : string) (i j : nat) :
  i <= j -> exists t, substring 0 j s = (substring 0 i s ++ t)%string.
Proof.
  revert i j. induction s as [|c s IH]; intros i j Hij.
  - exists EmptyString. destruct i, j; reflexivity.
  - destruct i as [|i].
    + exists (substring 0 j (String c s)). destruct j; reflexivity.
    + destruct j as [|j]; [lia|]. destruct (IH i j) as [t Ht]; [lia|].
      exists t. simpl. now rewrite Ht.
Qed.

(** X7: the line number of an index is one more than the number of
    newlines before it, and it never decreases as the index grows. *)
Theorem getLineNumber_monotone (content : string) (i j : nat) :
  i <= j ->
  getLineNumber content j = S (count_char (ascii_of_nat 10) (substring 0 j content)) /\
  getLineNumber content i <= getLineNumber content j.
Proof.
  intros Hij. unfold getLineNumber. rewrite !split_on_length. split; [reflexivity|].
  destruct (substring_0_prefix content i j Hij) as [t ->].
  rewrite count_char_app. lia.
Qed.

Lemma getLineNumber_monotone_witness :
  let content := ("a" ++ Orchestrator.nl ++ "b" ++ Orchestrator.nl ++ "c")%string in
  1 <= 4 /\
  getLineNumber content 4 = S (count_char (ascii_of_nat 10) (substring 0 4 content)) /\
  getLineNumber content 1 <= getLineNumber content 4.
Proof. cbv zeta. split; [lia|]. apply getLineNumber_monotone. lia. Defined.

Definition export_step (acc : list string) (s : symbol) : list string :=
  if sym_exported s && negb (existsb (String.eqb (sym_name s)) acc)
  then acc ++ [sym_name s] else acc.

Lemma export_fold (syms : list symbol) (acc : list string) (x : string) :
  In x (fold_left export_step syms acc) <->
  In x acc \/ exists s, In s syms /\ sym_exported s = true /\ sym_name s = x.
Proof.
  revert acc. induction syms as [|s syms IH]; intros acc; simpl.
  - split; [tauto|]. intros [H|[s [[] _]]]. exact H.
  - rewrite IH. unfold export_step.
    destruct (sym_exported s) eqn:Ex; simpl.
    + destruct (existsb (String.eqb (sym_name s)) acc) eqn:Eb; simpl.
      * split.
        -- intros [H|[s' [Hs' H']]]; [now left|right; exists s'; tauto].
        -- intros [H|[s' [[<-|Hs'] H']]]; [now left| |right; exists s'; tauto].
           left. apply existsb_exists in Eb. destruct Eb as [y [Hy Hyq]].
           apply String.eqb_eq in Hyq. destruct H' as [_ <-]. now rewrite Hyq.
      * rewrite in_app_iff. simpl. split.
        -- intros [[H|[H|[]]]|[s' [Hs' H']]]; [now left|right; exists s; tauto|].
           right; exists s'; tauto.
        -- intros [H|[s' [[<-|Hs'] H']]]; [now left; left|left; right; left; tauto|].
           right; exists s'; tauto.
    + split.
      * intros [H|[s' [Hs' H']]]; [now left|right; exists s'; tauto].
      * intros [H|[s' [[<-|Hs'] H']]]; [now left| |right; exists s'; tauto].
        destruct H' as [H' _]. congruence.
Qed.

(** X8: the export list of a file holds exactly the names captured by the
    language's export pattern (empty captures dropped) and the names of
    the exported symbols. *)
Theorem analyzeFileWithRegex_exports (filePath content : string)
    (config : language_config) (x : string) :
  let r := analyzeFileWithRegex filePath content config in
  In x (fs_exports r) <->
  (exists p i m0 caps, cfg_exportPattern config = Some p /\
     In (i, m0, x :: caps) (exec_all p content) /\ x <> EmptyString) \/
  (exists s, In s (fs_symbols r) /\ sym_exported s = true /\ sym_name s = x).
Proof.
  cbv zeta. unfold analyzeFileWithRegex. simpl fs_exports. simpl fs_symbols.
  rewrite (ListFacts.fold_left_pointwise _ export_step) by reflexivity.
  rewrite export_fold. apply or_iff_compat_r.
  destruct (cfg_exportPattern config) as [p|].
  - rewrite in_flat_map. split.
    + intros [[[i m0] caps] [Hin Hx]]. destruct caps as [|c caps]; [destruct Hx|].
      destruct (String.eqb_spec c EmptyString) as [_|Hne]; [destruct Hx|].
      destruct Hx as [<-|[]]. exists p, i, m0, caps. tauto.
    + intros [p' [i [m0 [caps [Hp [Hin Hne]]]]]]. injection Hp as <-.
      exists (i, m0, x :: caps). split; [exact Hin|].
      destruct (String.eqb_spec x EmptyString); [contradiction|now left].
  - split; [intros []|]. intros [p [_ [_ [_ [Hp _]]]]]. discriminate.
Qed.

(** X10: [getLanguageName] and [getLanguageConfig] agree: the configuration
    found for an extension is the one stored under the name found. *)
Theorem getLanguageName_config (ext : string) :
  match getLanguageName ext with
  | Some n => getLanguageConfig ext = SurfaceLayer.map_get n LANGUAGE_CONFIGS
  | None => getLanguageConfig ext = None
  end.
Proof.
  unfold getLanguageName, getLanguageConfig.
  destruct (find _ LANGUAGE_CONFIGS) as [[n cfg]|] eqn:E; simpl; [|reflexivity].
  apply find_some in E. destruct E as [Hin _].
  simpl in Hin. repeat destruct Hin as [Hin|Hin]; try (injection Hin as <- <-; reflexivity).
  destruct Hin.
Qed.

End StructuralExtras.

Module OrchestratorExtras.
Import JsString Disclosure Orchestrator ListFacts StructuralPhaseFacts MapFacts
  CacheInvariants Scenarios.

Definition has_files (fc : list (string * string)) (m : module_id) : bool :=
  match module_files m fc with [] => false | _ => true end.

(** X11: the extractor is invoked once per module that has loaded files,
    in module order, and never for a module without files; there are
    never more reports than invocations. *)
Theorem analyzeModulesStructurally_calls
    (extract : module_id -> list (string * string) -> option structural_report)
    (modules : list module_id) (fc : list (string * string)) :
  snd (analyzeModulesStructurally extract modules fc) =
    map (fun m => EvExtract (m_path m)) (filter (has_files fc) modules) /\
  (List.length (fst (analyzeModulesStructurally extract modules fc))
   <= List.length (snd (analyzeModulesStructurally extract modules fc)))%nat.
Proof.
  rewrite analyzeModulesStructurally_flat. simpl.
  assert (Hone : forall m, snd (analyze_one extract fc m) = (
                   if has_files fc m then [EvExtract (m_path m)] else []) /\
                 (List.length (report_of (analyze_one extract fc m))
                  <= List.length (snd (analyze_one extract fc m)))%nat).
  { intros m. unfold has_files, report_of, analyze_one.
    destruct (module_files m fc); simpl; [split; [reflexivity|lia]|].
    split; [reflexivity|]. destruct (extract _ _); simpl; lia. }
  induction modules as [|m ms [IH1 IH2]]; simpl; [split; [reflexivity|lia]|].
  destruct (Hone m) as [H1 H2]. rewrite H1 in *. rewrite IH1 in IH2 |- *. rewrite !length_app.
  destruct (has_files fc m); simpl in *; split; try reflexivity.
  all: lia.
Qed.

Lemma load_module_sound (e : env) (fc : list (string * string)) (m : module_id)
    (p content : string) :
  In (p, content) (load_module e fc m) ->
  In (p, content) fc \/
  exists files file, env_glob e (m_path m) = Some files /\ In file (firstn 50 files) /\
    p = (m_path m ++ "/" ++ file)%string /\ env_readFile e p = Some content /\
    (Z.of_nat (String.length content) < 100000)%Z.
Proof.
  unfold load_module. destruct (env_glob e (m_path m)) as [files|]; [|now left].
  assert (Hgen : forall l acc, incl l (firstn 50 files) ->
            In (p, content) (fold_left (fun fc file =>
               let filePath := (m_path m ++ "/" ++ file)%string in
               match env_readFile e filePath with
               | Some content =>
                   if Z.ltb (Z.of_nat (String.length content)) 100000
                   then SurfaceLayer.map_set filePath content fc else fc
               | None => fc
               end) l acc) ->
            In (p, content) acc \/
            exists file, In file (firstn 50 files) /\
              p = (m_path m ++ "/" ++ file)%string /\ env_readFile e p = Some content /\
              (Z.of_nat (String.length content) < 100000)%Z).
  { induction l as [|file l IH]; intros acc Hincl H; simpl in H; [now left|].
    apply IH in H; [|intros x Hx; apply Hincl; now right].
    destruct H as [H|H]; [|now right]. cbv zeta in H. revert H.
    destruct (env_readFile e (m_path m ++ String "/" file)%string) as [ct|] eqn:Hr;
      [|intros H; now left].
    destruct (Z.ltb_spec (Z.of_nat (String.length ct)) 100000) as [Hlt|_]; [|intros H; now left].
    intros H. apply in_map_set in H. destruct H as [H|H]; [|now left].
    injection H as -> ->. right. exists file. split; [apply Hincl; now left|].
    split; [reflexivity|]. split; [exact Hr|lia]. }
  intros H. apply (Hgen (firstn 50 files) fc (fun x Hx => Hx)) in H.
  destruct H as [H|[file H]]; [now left|right; exists files, file; tauto].
Qed.

(** X12: every file handed to the structural extraction of a batch was
    globbed for one of the batch's modules, among the first 50 files of
    its glob, under [module.path/], read successfully and shorter than
    100000 characters. *)
Theorem batch_files_loaded (e : env) (batch : list module_id) (p content : string) :
  In (p, content) (fold_left (load_module e) batch []) ->
  exists m files file, In m batch /\ env_glob e (m_path m) = Some files /\
    In file (firstn 50 files) /\ p = (m_path m ++ "/" ++ file)%string /\
    env_readFile e p = Some content /\ (Z.of_nat (String.length content) < 100000)%Z.
Proof.
  assert (Hgen : forall ms acc, In (p, content) (fold_left (load_module e) ms acc) ->
            In (p, content) acc \/
            exists m files file, In m ms /\ env_glob e (m_path m) = Some files /\
              In file (firstn 50 files) /\ p = (m_path m ++ "/" ++ file)%string /\
              env_readFile e p = Some content /\ (Z.of_nat (String.length content) < 100000)%Z).
  { induction ms as [|m ms IH]; intros acc H; simpl in H; [now left|].
    destruct (IH _ H) as [H'|[m' [files [file H']]]].
    - apply load_module_sound in H'. destruct H' as [H'|[files [file H']]]; [now left|].
      right. exists m, files, file. split; [now left|tauto].
    - right. exists m', files, file. split; [now right|tauto]. }
  intros H. destruct (Hgen batch [] H) as [[]|H']. exact H'.
Qed.

Lemma batch_files_loaded_witness :
  In ("src/a.ts", "export const x = 1;")
     (fold_left (load_module env_src) [module_named "src" MCore] []) /\
  exists m files file, In m [module_named "src" MCore] /\ env_glob env_src (m_path m) = Some files /\
    In file (firstn 50 files) /\ "src/a.ts" = (m_path m ++ "/" ++ file)%string /\
    env_readFile env_src "src/a.ts" = Some "export const x = 1;" /\
    (Z.of_nat (String.length "export const x = 1;") < 100000)%Z.
Proof.
  assert (H : In ("src/a.ts", "export const x = 1;")
                 (fold_left (load_module env_src) [module_named "src" MCore] []))
    by (vm_compute; left; reflexivity).
  split; [exact H|]. exact (batch_files_loaded env_src _ _ _ H).
Defined.

(** The candidates of the budget cap: the focused modules, or all of them
    when there is no focus or it matches nothing. *)
Definition candidates (o : options) (surface : surface_report) : list module_id :=
  let filtered := filter (focus_matches (opt_focus o)) (identifiedModules surface) in
  match opt_focus o, filtered with
  | _ :: _, _ :: _ => filtered
  | _, _ => identifiedModules surface
  end.

(** X13: the budget cap keeps a prefix of the candidates: the first
    [ceil(budget / 50000)] for a positive budget; for a negative budget
    ([slice] with a negative end) nothing when [-budget < 50000], else all
    but the last [floor(-budget / 50000)]. *)
Theorem select_modules_budget (o : options) (surface : surface_report) :
  let b := effective_budget o in
  select_modules o surface =
  firstn (if Z.ltb 0 b then Z.to_nat (ceil_div b 50000)
          else if Z.eqb ((- b) / 50000) 0 then 0%nat
          else (List.length (candidates o surface) - Z.to_nat ((- b) / 50000))%nat)
    (candidates o surface).
Proof.
  cbv zeta. unfold select_modules. fold (candidates o surface).
  set (l := candidates o surface). set (b := effective_budget o).
  unfold slice0, ceil_div.
  destruct (Z.ltb_spec 0 b) as [Hb|Hb].
  - assert (Hq : (0 <= b / 50000)%Z) by (apply Z.div_pos; lia).
    assert (Hc : (0 < - (- b / 50000))%Z).
    { assert (H1 : (- b / 50000 < 0)%Z) by (apply Z.div_lt_upper_bound; lia). lia. }
    destruct (Z.ltb_spec (Z.min (Z.of_nat (List.length l)) (- (- b / 50000))) 0); [lia|].
    destruct (Z.min_spec (Z.of_nat (List.length l)) (- (- b / 50000))) as [[Hlt ->]|[Hge ->]].
    + rewrite Nat2Z.id. rewrite firstn_all. rewrite firstn_all2; [reflexivity|lia].
    + reflexivity.
  - assert (Hq : (0 <= - b / 50000)%Z) by (apply Z.div_pos; lia).
    destruct (Z.eqb_spec (- b / 50000) 0) as [Hz|Hz].
    + rewrite Hz. simpl.
      destruct (Z.min_spec (Z.of_nat (List.length l)) 0) as [[Hlt ->]|[Hge ->]]; [lia|].
      reflexivity.
    + destruct (Z.min_spec (Z.of_nat (List.length l)) (- (- b / 50000)))
        as [[Hlt ->]|[Hge ->]]; [lia|].
      destruct (Z.ltb_spec (- (- b / 50000)) 0); [|lia]. f_equal. lia.
Qed.

End OrchestratorExtras.

Module RunExtras.
Import JsString Disclosure Orchestrator ListFacts StructuralPhaseFacts MapFacts
  CacheInvariants Scenarios OrchestratorExtras.

Definition without_focus (o : options) : options :=
  {| opt_depth := opt_depth o; opt_focus := []; opt_tokenBudget := opt_tokenBudget o;
     opt_includeSemantics := opt_includeSemantics o |}.

(** X14: a focus that matches no module is reported as a warning, and the
    run then analyses the same modules as a run without focus. *)
Theorem focus_unmatched (e : env) (o : options) (c : cache) :
  opt_focus o <> [] ->
  filter (focus_matches (opt_focus o)) (identifiedModules (env_surface e)) = [] ->
  effective_depth o <> Surface ->
  select_modules o (env_surface e) = select_modules (without_focus o) (env_surface e) /\
  exists ws, warnings (fst (run_orchestrate e o c)) = Some ws /\ In (WFocus (opt_focus o)) ws.
Proof.
  intros Hf Hfilt Hd. split.
  - unfold select_modules. simpl. rewrite Hfilt.
    destruct (opt_focus o); [contradiction|reflexivity].
  - assert (Hns : depth_eqb (effective_depth o) Surface = false).
    { destruct (effective_depth o); [congruence|reflexivity|reflexivity]. }
    unfold run_orchestrate, orchestrateAnalysis. cbv zeta. rewrite Hns, Hfilt.
    unfold bind, ret, emit, emit_all, warn, get_state, record_failure, cache_set,
      semanticAnalysis.
    destruct (opt_focus o) as [|f fs]; [contradiction|].
    destruct (analyzeModulesInParallel e _) as [structural evs].
    destruct (_ <? _)%Z; destruct (_ || _); destruct (env_hasGeminiKey e);
      destruct (env_gemini e);
      destruct (JsNum.lt (JsNum.of_nat SEMANTIC_COMPLEXITY_THRESHOLD)
                  (surface_complexity (env_surface e))); simpl;
      eexists; (split; [reflexivity|]); rewrite ?in_app_iff; simpl; tauto.
Qed.

Lemma focus_unmatched_witness :
  opt_focus (opts_focus ["zzz"]) <> [] /\
  filter (focus_matches (opt_focus (opts_focus ["zzz"])))
    (identifiedModules (env_surface env_src)) = [] /\
  effective_depth (opts_focus ["zzz"]) <> Surface /\
  (select_modules (opts_focus ["zzz"]) (env_surface env_src) =
     select_modules (without_focus (opts_focus ["zzz"])) (env_surface env_src) /\
   exists ws, warnings (fst (run_orchestrate env_src (opts_focus ["zzz"]) [])) = Some ws /\
              In (WFocus (opt_focus (opts_focus ["zzz"]))) ws).
Proof.
  assert (H1 : opt_focus (opts_focus ["zzz"]) <> []) by discriminate.
  assert (H2 : filter (focus_matches (opt_focus (opts_focus ["zzz"])))
                 (identifiedModules (env_surface env_src)) = [])
    by (vm_compute; reflexivity).
  assert (H3 : effective_depth (opts_focus ["zzz"]) <> Surface) by discriminate.
  split; [exact H1|]. split; [exact H2|]. split; [exact H3|].
  exact (focus_unmatched env_src (opts_focus ["zzz"]) [] H1 H2 H3).
Defined.

Definition warnings_of (r : analysis_result) : list warning :=
  match warnings r with Some ws => ws | None => [] end.

(** X15: a run that does not ask for semantics (and is not deep) never
    enters the semantic phase nor calls the service, records no partial
    failure, and a standard run warns about complexity exactly when the
    surface complexity exceeds 50. *)
Theorem run_without_semantics (e : env) (o : options) (c : cache) :
  opt_includeSemantics o = false -> effective_depth o <> Deep ->
  let '(r, st) := run_orchestrate e o c in
  ~ In EvSemantic (os_trace st) /\ (forall t, ~ In (EvService t) (os_trace st)) /\
  partialFailures r = None /\
  (effective_depth o = Standard ->
   (In (WComplexity (surface_complexity (env_surface e))) (warnings_of r) <->
    JsNum.lt (JsNum.of_nat SEMANTIC_COMPLEXITY_THRESHOLD)
      (surface_complexity (env_surface e)) = true)).
Proof.
  intros Hsem Hdeep.
  assert (Hinc : (opt_includeSemantics o || depth_eqb (effective_depth o) Deep) = false).
  { rewrite Hsem. destruct (effective_depth o); [reflexivity|reflexivity|congruence]. }
  pose proof (structural_events_extract e (select_modules o (env_surface e))) as Hev.
  unfold run_orchestrate, orchestrateAnalysis, warnings_of.
  cbv zeta. rewrite Hinc.
  unfold bind, ret, emit, emit_all, warn, get_state, record_failure, cache_set,
    semanticAnalysis.
  destruct (depth_eqb (effective_depth o) Surface) eqn:Hs.
  - assert (Hd : effective_depth o = Surface)
      by (destruct (effective_depth o); [reflexivity|discriminate|discriminate]).
    destruct (_ <? _)%Z; simpl; (split; [intuition discriminate|]);
      (split; [intros t; intuition discriminate|]); (split; [reflexivity|]);
      rewrite Hd; discriminate.
  - destruct (analyzeModulesInParallel e (select_modules o (env_surface e)))
      as [structural evs].
    simpl in Hev. rewrite Forall_forall in Hev.
    assert (Htr : forall ev, In ev ([EvSurface] ++ evs ++ [EvCacheSet]) ->
                  ev <> EvSemantic /\ forall t, ev <> EvService t).
    { intros ev Hin. rewrite !in_app_iff in Hin. simpl in Hin.
      destruct Hin as [[<-|[]]|[Hin|[<-|[]]]]; try (split; [discriminate|]; intros t; discriminate).
      destruct (Hev _ Hin) as [p ->]. split; [discriminate|]. intros t; discriminate. }
    destruct (_ <? _)%Z; destruct (opt_focus o) as [|f fs]; try destruct (filter _ _);
      destruct (JsNum.lt (JsNum.of_nat SEMANTIC_COMPLEXITY_THRESHOLD)
                  (surface_complexity (env_surface e))); simpl;
      (split; [intros H; rewrite ?app_nil_l, <- ?app_assoc in H; apply (proj1 (Htr _ H)); reflexivity|]);
      (split; [intros t H; rewrite ?app_nil_l, <- ?app_assoc in H; apply (proj2 (Htr _ H) t); reflexivity|]);
      (split; [reflexivity|]); intros _; simpl; intuition discriminate.
Qed.

Lemma run_without_semantics_witness :
  opt_includeSemantics (opts_at Standard false) = false /\
  effective_depth (opts_at Standard false) <> Deep /\
  (let '(r, st) := run_orchestrate env_src (opts_at Standard false) [] in
   ~ In EvSemantic (os_trace st) /\ (forall t, ~ In (EvService t) (os_trace st)) /\
   partialFailures r = None /\
   (effective_depth (opts_at Standard false) = Standard ->
    (In (WComplexity (surface_complexity (env_surface env_src))) (warnings_of r) <->
     JsNum.lt (JsNum.of_nat SEMANTIC_COMPLEXITY_THRESHOLD)
       (surface_complexity (env_surface env_src)) = true))).
Proof.
  assert (Hd : effective_depth (opts_at Standard false) <> Deep) by discriminate.
  split; [reflexivity|]. split; [exact Hd|].
  exact (run_without_semantics env_src (opts_at Standard false) [] eq_refl Hd).
Defined.

(** A standard run without semantics caches its result, under its
    analysis id, with the structural reports of the run. *)
Lemma run_standard_cached (e : env) (o : options) (c : cache) :
  effective_depth o = Standard -> opt_includeSemantics o = false ->
  let '(r, st) := run_orchestrate e o c in
  analysisId r = env_analysisId e /\
  os_cache st = Cache.set Cache.DEFAULT_TTL_MS (env_now e) (env_repoPath e)
                  {| cd_result := r; cd_surface := env_surface e;
                     cd_structural := structural_of e o; cd_semantic := None |}
                  None Standard c.
Proof.
  intros Hd Hsem.
  unfold run_orchestrate, orchestrateAnalysis, structural_of.
  cbv zeta. rewrite Hsem, Hd. simpl depth_eqb. simpl orb.
  unfold bind, ret, emit, emit_all, warn, get_state, record_failure, cache_set.
  destruct (analyzeModulesInParallel e (select_modules o (env_surface e)))
    as [structural evs].
  destruct (_ <? _)%Z; destruct (opt_focus o) as [|f fs]; try destruct (filter _ _);
    destruct (JsNum.lt (JsNum.of_nat SEMANTIC_COMPLEXITY_THRESHOLD)
                (surface_complexity (env_surface e))); simpl; split; reflexivity.
Qed.

Lemma find_map_set {A} (f : A -> bool) (k : string) (v : A) (c : list (string * A)) :
  (forall x, In x c -> f (snd x) = false) -> f v = true ->
  exists k', find (fun ke => f (snd ke)) (SurfaceLayer.map_set k v c) = Some (k', v).
Proof.
  intros Hc Hv. induction c as [|[k0 v0] c IH]; simpl.
  - rewrite Hv. now exists k.
  - destruct (String.eqb k k0); simpl.
    + rewrite Hv. now exists k0.
    + assert (Hv0 : f v0 = false) by exact (Hc (k0, v0) (or_introl eq_refl)).
      rewrite Hv0. apply IH. intros x Hx. apply Hc. now right.
Qed.

Lemma in_evictOldest {V} (c : Cache.cache V) (x : string * Cache.entry V) :
  In x (Cache.evictOldest c) -> In x c.
Proof.
  unfold Cache.evictOldest. destruct (Cache.truthy_key _); [|tauto].
  destruct (fst (Cache.oldest c)); [apply in_map_delete|tauto].
Qed.

(** [getByAnalysisId] right after [set] finds the new entry when no older
    entry carries its id, until it expires. *)
Lemma getByAnalysisId_set {V} (aid : V -> string) (ttlMs now t : Z) (source : string)
    (d : V) (commitHash : option string) (depth : analysis_depth) (c : Cache.cache V) :
  (forall k ent, In (k, ent) c -> aid (Cache.value ent) <> aid d) ->
  fst (Cache.getByAnalysisId aid t (aid d) (Cache.set ttlMs now source d commitHash depth c))
  = if Z.ltb (now + ttlMs) t then None else Some d.
Proof.
  intros Hc. unfold Cache.getByAnalysisId, Cache.set. cbv zeta.
  set (c0 := if Nat.leb Cache.MAX_CACHE_ENTRIES (List.length c)
             then Cache.evictOldest c else c).
  assert (Hsub : forall x, In x c0 -> In x c).
  { intros x Hx. unfold c0 in Hx. destruct (Nat.leb _ _); [now apply in_evictOldest|exact Hx]. }
  edestruct (find_map_set (fun ent => String.eqb (aid (Cache.value ent)) (aid d))) as [k' Hf].
  3:{ rewrite Hf. simpl. destruct (Z.ltb _ _); reflexivity. }
  - intros [k ent] Hx. simpl. apply String.eqb_neq. exact (Hc k ent (Hsub _ Hx)).
  - apply String.eqb_refl.
Qed.

(** X16: right after a standard run without semantics, expanding a section
    of its result through the cache gives what [expandSection] gives on
    the run's result and structural reports, until the entry expires
    (one hour); then the analysis is reported as not found. *)
Theorem run_then_expand (e : env) (o : options) (c : cache) (t : Z)
    (sectionId : string) (lvl : level) :
  effective_depth o = Standard -> opt_includeSemantics o = false ->
  (forall k ent, In (k, ent) c -> analysisId (cd_result (Cache.value ent)) <> env_analysisId e) ->
  let '(r, st) := run_orchestrate e o c in
  resp_section (fst (expandAnalysisSection t (analysisId r) sectionId lvl (os_cache st))) =
  (if Z.ltb (env_now e + Cache.DEFAULT_TTL_MS) t then None
   else expandSection r sectionId lvl (structural_of e o) None).
Proof.
  intros Hd Hsem Hc. pose proof (run_standard_cached e o c Hd Hsem) as H.
  destruct (run_orchestrate e o c) as [r st]. destruct H as [Hid Hcache].
  unfold expandAnalysisSection. rewrite Hcache.
  pose proof (getByAnalysisId_set (fun d => analysisId (cd_result d)) Cache.DEFAULT_TTL_MS
                (env_now e) t (env_repoPath e)
                {| cd_result := r; cd_surface := env_surface e;
                   cd_structural := structural_of e o; cd_semantic := None |}
                None Standard c) as Hg.
  simpl in Hg. rewrite Hid in Hg. specialize (Hg Hc). rewrite Hid.
  destruct (Cache.getByAnalysisId _ _ _ _) as [cached c']. simpl in Hg. subst cached.
  destruct (Z.ltb _ _); simpl; [reflexivity|].
  destruct (expandSection r sectionId lvl (structural_of e o) None); reflexivity.
Qed.

Lemma run_then_expand_witness :
  effective_depth (opts_at Standard false) = Standard /\
  opt_includeSemantics (opts_at Standard false) = false /\
  (forall k ent, In (k, ent) ([] : cache) ->
     analysisId (cd_result (Cache.value ent)) <> env_analysisId env_src) /\
  (let '(r, st) := run_orchestrate env_src (opts_at Standard false) [] in
   resp_section (fst (expandAnalysisSection 5 (analysisId r) "module_src" Full (os_cache st))) =
   (if Z.ltb (env_now env_src + Cache.DEFAULT_TTL_MS) 5 then None
    else expandSection r "module_src" Full (structural_of env_src (opts_at Standard false)) None)).
Proof.
  assert (Hc : forall k ent, In (k, ent) ([] : cache) ->
                 analysisId (cd_result (Cache.value ent)) <> env_analysisId env_src)
    by (intros k ent []).
  split; [reflexivity|]. split; [reflexivity|]. split; [exact Hc|].
  exact (run_then_expand env_src (opts_at Standard false) [] 5 "module_src" Full
           eq_refl eq_refl Hc).
Defined.

End RunExtras.

Module DisclosureExtras.
Import JsString SectionId Disclosure.

(** X17: [expandSection] returns nothing exactly when the id is unknown or
    the section cannot be expanded; otherwise it returns the section with
    its id, title, type and flag unchanged, adding only the payload of the
    requested level. *)
Theorem expandSection_shape (result : analysis_result) (sectionId : string) (lvl : level)
    (structural : list structural_report) (semantic : option semantic_report) :
  let found := find (fun s => String.eqb (sec_id s) sectionId) (sections result) in
  match expandSection result sectionId lvl structural semantic with
  | None => found = None \/ exists s, found = Some s /\ sec_canExpand s = false
  | Some s' =>
      exists s, found = Some s /\ sec_canExpand s = true /\
        sec_id s' = sec_id s /\ String.eqb (sec_id s') sectionId = true /\
        sec_title s' = sec_title s /\ sec_type s' = sec_type s /\
        sec_canExpand s' = true /\
        match lvl with
        | Detail => sec_full s' = sec_full s
        | Full => sec_detail s' = sec_detail s
        end
  end.
Proof.
  cbv zeta. unfold expandSection.
  destruct (find _ (sections result)) as [s|] eqn:Hf; [|now left].
  pose proof (find_some _ _ Hf) as [_ Hid].
  destruct (sec_canExpand s) eqn:Hc; simpl; [|right; now exists s].
  assert (Hkeep : forall s', sec_id s' = sec_id s -> sec_title s' = sec_title s ->
                  sec_type s' = sec_type s -> sec_canExpand s' = sec_canExpand s ->
                  match lvl with
                  | Detail => sec_full s' = sec_full s
                  | Full => sec_detail s' = sec_detail s
                  end ->
                  exists s0, Some s = Some s0 /\ sec_canExpand s0 = true /\
                    sec_id s' = sec_id s0 /\ String.eqb (sec_id s') sectionId = true /\
                    sec_title s' = sec_title s0 /\ sec_type s' = sec_type s0 /\
                    sec_canExpand s' = true /\
                    match lvl with
                    | Detail => sec_full s' = sec_full s0
                    | Full => sec_detail s' = sec_detail s0
                    end).
  { intros s' H1 H2 H3 H4 H5. exists s. rewrite H1, H4, Hc. repeat split; auto. }
  destruct (sec_type s) eqn:Ht, semantic as [sem|];
    try destruct (find_structural _ structural);
    destruct lvl; apply Hkeep; simpl; congruence.
Qed.

Lemma filter_none {A} (f : A -> bool) (l : list A) :
  (forall x, In x l -> f x = false) -> filter f l = [].
Proof.
  induction l as [|x l IH]; intros H; simpl; [reflexivity|].
  rewrite (H x (or_introl eq_refl)). apply IH. intros y Hy. apply H. now right.
Qed.

Definition is_module_section (s : section) : bool :=
  match sec_type s with StModule => true | _ => false end.

Lemma semantic_section_shape (id title : string) (t : section_type) (n : nat)
    (items : list string) (s : section) :
  In s (semantic_section id title t n items) ->
  sec_type s = t /\ sec_canExpand s = true /\ sec_full s = None.
Proof.
  unfold semantic_section. destruct items; simpl; [tauto|].
  intros [<-|[]]. simpl. tauto.
Qed.

(** X18: the sections built for a result: one module section for each of
    the first ten modules, expandable exactly when a structural report
    has the module's path; every other section is an expandable semantic
    section, and there is none without a semantic report; no section
    carries a full payload yet. *)
Theorem buildExpandableSections_shape (surface : surface_report)
    (structural : list structural_report) (semantic : option semantic_report) :
  let secs := buildExpandableSections surface structural semantic in
  List.length (filter is_module_section secs) =
    Nat.min 10 (List.length (identifiedModules surface)) /\
  (forall s, In s secs -> sec_full s = None) /\
  (forall s, In s secs -> sec_type s = StModule ->
     exists m, In m (firstn 10 (identifiedModules surface)) /\
       sec_id s = module_section_id (m_path m) /\
       (sec_canExpand s = true <-> exists d, In d structural /\ modulePath d = m_path m)) /\
  (forall s, In s secs -> sec_type s <> StModule -> sec_canExpand s = true) /\
  match semantic with
  | None => forall s, In s secs -> sec_type s = StModule
  | Some _ => True
  end.
Proof.
  cbv zeta. unfold buildExpandableSections.
  set (mods := firstn 10 (identifiedModules surface)).
  set (sem_secs := match semantic with
                   | Some sem => _ | None => [] end).
  assert (Hsem : forall s, In s sem_secs ->
                 sec_type s <> StModule /\ sec_canExpand s = true /\ sec_full s = None).
  { intros s Hs. unfold sem_secs in Hs. destruct semantic as [sem|]; [|destruct Hs].
    rewrite !in_app_iff in Hs.
    destruct Hs as [Hs|[Hs|Hs]]; apply semantic_section_shape in Hs;
      destruct Hs as [-> [? ?]]; repeat split; auto; discriminate. }
  assert (Hmod : forall s, In s (map (module_section structural) mods) ->
                 sec_type s = StModule /\ sec_full s = None /\
                 exists m, In m mods /\ sec_id s = module_section_id (m_path m) /\
                   (sec_canExpand s = true <->
                    exists d, In d structural /\ modulePath d = m_path m)).
  { intros s Hs. apply in_map_iff in Hs. destruct Hs as [m [<- Hm]].
    unfold module_section. simpl. split; [reflexivity|]. split; [reflexivity|].
    exists m. split; [exact Hm|]. split; [reflexivity|].
    unfold find_structural. destruct (find _ structural) as [d|] eqn:Hf; split.
    - intros _. apply find_some in Hf. destruct Hf as [Hd Heq].
      apply String.eqb_eq in Heq. now exists d.
    - reflexivity.
    - discriminate.
    - intros [d [Hd Heq]]. exfalso.
      apply (find_none _ _ Hf) in Hd. rewrite Heq, String.eqb_refl in Hd. discriminate. }
  split; [|split; [|split; [|split]]].
  - rewrite filter_app.
    rewrite (filter_none _ sem_secs), app_nil_r.
    + rewrite forallb_filter_id; [unfold mods; now rewrite length_map, length_firstn|].
      apply forallb_forall. intros s Hs. unfold is_module_section.
      now rewrite (proj1 (Hmod s Hs)).
    + intros s Hs. unfold is_module_section. destruct (Hsem s Hs) as [Ht _].
      destruct (sec_type s); [contradiction|reflexivity..].
  - intros s Hs. apply in_app_iff in Hs. destruct Hs as [Hs|Hs].
    + exact (proj1 (proj2 (Hmod s Hs))).
    + exact (proj2 (proj2 (Hsem s Hs))).
  - intros s Hs Ht. apply in_app_iff in Hs. destruct Hs as [Hs|Hs].
    + exact (proj2 (proj2 (Hmod s Hs))).
    + exfalso. exact (proj1 (Hsem s Hs) Ht).
  - intros s Hs Ht. apply in_app_iff in Hs. destruct Hs as [Hs|Hs].
    + exfalso. exact (Ht (proj1 (Hmod s Hs))).
    + exact (proj1 (proj2 (Hsem s Hs))).
  - destruct semantic as [sem|]; [exact I|].
    intros s Hs. apply in_app_iff in Hs. destruct Hs as [Hs|[]].
    exact (proj1 (Hmod s Hs)).
Qed.

End DisclosureExtras.

Module SurfaceExtras.
Local Open Scope nat_scope.
Import JsString SurfaceLayer MapFacts Scenarios.

(** Stable insertion sort: a permutation of its input. *)
Lemma insert_stable_perm {A} (cmp : A -> A -> Z) (x : A) (l : list A) :
  Permutation (insert_stable cmp x l) (x :: l).
Proof.
  induction l as [|y l IH]; simpl; [reflexivity|].
  destruct (Z.ltb (cmp x y) 0); [reflexivity|].
  rewrite IH. apply perm_swap.
Qed.

Lemma sort_stable_perm {A} (cmp : A -> A -> Z) (l : list A) :
  Permutation (sort_stable cmp l) l.
Proof.
  unfold sort_stable.
  assert (H : forall acc, Permutation (fold_left (fun acc x => insert_stable cmp x acc) l acc)
                                      (l ++ acc)).
  { induction l as [|x l IH]; intros acc; simpl; [reflexivity|].
    rewrite IH, insert_stable_perm. apply Permutation_sym, Permutation_middle. }
  rewrite H. now rewrite app_nil_r.
Qed.

(** Insertion keeps a list sorted for any comparator that is
    antisymmetric in sign. *)
Lemma insert_stable_sorted {A} (cmp : A -> A -> Z) (x : A) (l : list A) :
  (forall a b, (0 <= cmp a b)%Z -> (cmp b a <= 0)%Z) ->
  Sorted (fun a b => (cmp a b <= 0)%Z) l ->
  Sorted (fun a b => (cmp a b <= 0)%Z) (insert_stable cmp x l).
Proof.
  intros Hanti. induction l as [|y l IH]; intros Hs; simpl.
  - repeat constructor.
  - destruct (Z.ltb_spec (cmp x y) 0) as [Hlt|Hge].
    + constructor; [exact Hs|]. constructor. lia.
    + apply Sorted_inv in Hs. destruct Hs as [Hs Hhd]. constructor; [now apply IH|].
      destruct l as [|z l]; simpl.
      * constructor. now apply Hanti.
      * apply HdRel_inv in Hhd. destruct (Z.ltb (cmp x z) 0); constructor; [now apply Hanti|exact Hhd].
Qed.

Lemma sort_stable_sorted {A} (cmp : A -> A -> Z) (l : list A) :
  (forall a b, (0 <= cmp a b)%Z -> (cmp b a <= 0)%Z) ->
  Sorted (fun a b => (cmp a b <= 0)%Z) (sort_stable cmp l).
Proof.
  intros Hanti. unfold sort_stable.
  assert (H : forall acc, Sorted (fun a b => (cmp a b <= 0)%Z) acc ->
              Sorted (fun a b => (cmp a b <= 0)%Z)
                (fold_left (fun acc x => insert_stable cmp x acc) l acc)).
  { induction l as [|x l IH]; intros acc Hacc; simpl; [exact Hacc|].
    apply IH. now apply insert_stable_sorted. }
  apply H. constructor.
Qed.

Lemma Sorted_weaken {A} (R S : A -> A -> Prop) (l : list A) :
  (forall a b, R a b -> S a b) -> Sorted R l -> Sorted S l.
Proof.
  intros HRS Hs. induction Hs as [|x l Hs IH Hhd]; constructor; [exact IH|].
  destruct Hhd; constructor. now apply HRS.
Qed.

Lemma module_cmp_anti (a b : module_id) :
  (0 <= module_cmp a b)%Z -> (module_cmp b a <= 0)%Z.
Proof.
  unfold module_cmp.
  destruct (Z.eqb_spec (Z.of_nat (typePriority (m_type a)) - Z.of_nat (typePriority (m_type b))) 0);
  destruct (Z.eqb_spec (Z.of_nat (typePriority (m_type b)) - Z.of_nat (typePriority (m_type a))) 0);
  simpl; lia.
Qed.

Lemma module_cmp_le (a b : module_id) :
  (module_cmp a b <= 0)%Z <->
  typePriority (m_type a) < typePriority (m_type b) \/
  (typePriority (m_type a) = typePriority (m_type b) /\ m_fileCount b <= m_fileCount a).
Proof.
  unfold module_cmp.
  destruct (Z.eqb_spec (Z.of_nat (typePriority (m_type a)) - Z.of_nat (typePriority (m_type b))) 0);
  simpl; lia.
Qed.

(** X19: [identifyModules] lists core modules first, then utilities,
    configuration, unknown and test modules; within one type, modules
    with more files come first. *)
Theorem identifyModules_sorted (files : list file_info) :
  Sorted (fun a b => typePriority (m_type a) < typePriority (m_type b) \/
                     (typePriority (m_type a) = typePriority (m_type b) /\
                      m_fileCount b <= m_fileCount a))
    (identifyModules files).
Proof.
  unfold identifyModules.
  apply (Sorted_weaken (fun a b => (module_cmp a b <= 0)%Z)).
  - intros a b. apply module_cmp_le.
  - apply sort_stable_sorted. exact module_cmp_anti.
Qed.

(** The first path segment of a file and whether the file lies in a
    directory ([parts.length >= 2]). *)
Definition seg (f : file_info) : string := hd EmptyString (split_on slash (fi_relativePath f)).
Definition nested (f : file_info) : bool :=
  negb (Nat.ltb (List.length (split_on slash (fi_relativePath f))) 2).
Definition in_module (p : string) (f : file_info) : bool := nested f && String.eqb (seg f) p.

Lemma filter_none_nat {A} (f : A -> bool) (l : list A) :
  (forall x, In x l -> f x = false) -> filter f l = [].
Proof.
  induction l as [|x l IH]; intros H; simpl; [reflexivity|].
  rewrite (H x (or_introl eq_refl)). apply IH. intros y Hy. apply H. now right.
Qed.

Lemma in_map_set_nodup (k : string) {A} (v : A) (c : list (string * A)) (x : string * A) :
  NoDup (keys c) -> In x (map_set k v c) -> x = (k, v) \/ (In x c /\ fst x <> k).
Proof.
  induction c as [|[k0 v0] c IH]; simpl; intros Hnd.
  - intros [H|[]]. now left.
  - inversion Hnd as [|? ? Hn Hnd']; subst.
    destruct (String.eqb_spec k k0) as [->|Hne].
    + intros [H|H]; [now left|]. right. split; [now right|].
      intros Heq. apply Hn. apply in_map_iff. exists x. split; [exact Heq|exact H].
    + intros [H|H].
      * right. split; [now left|]. subst x. simpl. congruence.
      * destruct (IH Hnd' H) as [H'|[H' H'']]; [now left|right; split; [now right|exact H'']].
Qed.

Lemma keys_map_set_incl (k x : string) {A} (v : A) (c : list (string * A)) :
  In x (keys c) -> In x (keys (map_set k v c)).
Proof.
  induction c as [|[k0 v0] c IH]; simpl; [tauto|].
  destruct (String.eqb k k0); simpl; [tauto|]. intros [H|H]; [now left|right; now apply IH].
Qed.

Lemma split_on_nonempty (sep : ascii) (s : string) : split_on sep s <> [].
Proof.
  destruct s as [|c s]; simpl; [discriminate|].
  destruct (split_on sep s); [discriminate|]. destruct (Ascii.eqb c sep); discriminate.
Qed.

Lemma split_on_hd_no_sep (sep : ascii) (s : string) :
  ~ In sep (list_ascii_of_string (hd EmptyString (split_on sep s))).
Proof.
  induction s as [|c s IH]; simpl; [tauto|].
  destruct (split_on sep s) as [|w ws] eqn:E; [exfalso; exact (split_on_nonempty sep s E)|].
  simpl in IH. destruct (Ascii.eqb_spec c sep) as [->|Hne]; simpl; [tauto|].
  intros [H|H]; [congruence|tauto].
Qed.

Lemma identify_fold (l : list file_info) :
  let acc := fold_left identify_step l [] in
  NoDup (keys acc) /\
  (forall p fs t, In (p, (fs, t)) acc -> fs = filter (in_module p) l /\ fs <> []) /\
  (forall f, In f l -> nested f = true -> In (seg f) (keys acc)) /\
  (forall p fs t, In (p, (fs, t)) acc -> isPriorityDirectory p = true -> t = MCore).
Proof.
  induction l as [|f l IH] using rev_ind.
  - simpl. split; [constructor|]. split; [intros ? ? ? []|]. split; [intros ? []|].
    intros ? ? ? [].
  - cbv zeta in *. rewrite fold_left_app. simpl.
    set (acc := fold_left identify_step l []) in *.
    destruct IH as [Hnd [Hent [Hcov Hpri]]].
    unfold identify_step. fold (seg f).
    destruct (Nat.ltb (List.length (split_on slash (fi_relativePath f))) 2) eqn:Hlt.
    + assert (Hnf : nested f = false) by (unfold nested; now rewrite Hlt).
      assert (Hin : forall p, in_module p f = false) by (intros p; unfold in_module; now rewrite Hnf).
      split; [exact Hnd|]. split; [|split].
      * intros p fs t Hx. rewrite filter_app. simpl. rewrite Hin, app_nil_r.
        exact (Hent p fs t Hx).
      * intros f' Hf' Hn. apply in_app_or in Hf'. destruct Hf' as [Hf'|[<-|[]]];
          [now apply Hcov|congruence].
      * exact Hpri.
    + assert (Hnf : nested f = true) by (unfold nested; now rewrite Hlt).
      set (k := seg f) in *.
      set (mt := if isPriorityDirectory k then MCore else classify (fi_relativePath f)).
      assert (Hfs0 : forall fs0 t0,
                 match map_get k acc with Some e => e | None => ([], mt) end = (fs0, t0) ->
                 fs0 = filter (in_module k) l /\
                 (isPriorityDirectory k = true -> t0 = MCore)).
      { intros fs0 t0. destruct (map_get k acc) as [[fs t]|] eqn:Hg.
        - intros H. injection H as <- <-. apply map_get_In in Hg.
          split; [exact (proj1 (Hent _ _ _ Hg))|exact (Hpri _ _ _ Hg)].
        - intros H. injection H as <- <-. split.
          + symmetry. apply filter_none_nat. intros f' Hf'.
            unfold in_module. destruct (nested f') eqn:Hn'; [|reflexivity].
            destruct (String.eqb_spec (seg f') k) as [Heq|]; [|reflexivity].
            exfalso. apply map_get_None in Hg. apply Hg. rewrite <- Heq. now apply Hcov.
          + intros Hp. unfold mt. now rewrite Hp. }
      destruct (match map_get k acc with Some e => e | None => ([], mt) end) as [fs0 t0] eqn:He.
      destruct (Hfs0 fs0 t0 eq_refl) as [Hf0 Hp0].
      set (t' := if negb (module_type_eqb mt MUnknown) && module_type_eqb t0 MUnknown
                 then mt else t0).
      assert (Hkf : in_module k f = true) by (unfold in_module; rewrite Hnf; apply String.eqb_refl).
      split; [now apply NoDup_keys_map_set|]. split; [|split].
      * intros p fs t Hx. apply in_map_set_nodup in Hx; [|exact Hnd].
        destruct Hx as [Hx|[Hx Hne]].
        -- injection Hx as -> -> ->. rewrite filter_app. simpl. rewrite Hkf, Hf0.
           split; [reflexivity|]. intros H. apply app_eq_nil in H. destruct H as [_ H]; discriminate.
        -- simpl in Hne. rewrite filter_app. simpl.
           assert (Hpf : in_module p f = false).
           { unfold in_module. rewrite Hnf. simpl. apply String.eqb_neq. intros Heq.
             apply Hne. rewrite <- Heq. reflexivity. }
           rewrite Hpf, app_nil_r. exact (Hent p fs t Hx).
      * intros f' Hf' Hn. apply in_app_or in Hf'. destruct Hf' as [Hf'|[<-|[]]].
        -- apply keys_map_set_incl. now apply Hcov.
        -- apply in_map_iff. exists (k, (fs0 ++ [f], t')). split; [reflexivity|].
           apply map_get_In. apply map_get_set_same.
      * intros p fs t Hx Hp. apply in_map_set_nodup in Hx; [|exact Hnd].
        destruct Hx as [Hx|[Hx _]]; [|exact (Hpri p fs t Hx Hp)].
        injection Hx as -> _ ->. unfold t'. rewrite (Hp0 Hp).
        simpl. rewrite andb_false_r. reflexivity.
Qed.

Definition module_of (e : string * (list file_info * module_type)) : module_id :=
  let '(path, (fs, t)) := e in
  {| m_path := path; m_name := path; m_type := t; m_fileCount := List.length fs;
     m_primaryLanguage := primaryLanguage fs |}.

Lemma identifyModules_In (files : list file_info) (m : module_id) :
  In m (identifyModules files) <->
  exists e, In e (fold_left identify_step files []) /\ m = module_of e /\ 0 < m_fileCount m.
Proof.
  unfold identifyModules. split.
  - intros H. apply (Permutation_in _ (sort_stable_perm _ _)) in H.
    apply filter_In in H. destruct H as [H Hc]. apply in_map_iff in H.
    destruct H as [[path [fs t]] [<- He]]. exists (path, (fs, t)).
    split; [exact He|]. split; [reflexivity|]. now apply Nat.ltb_lt.
  - intros [[path [fs t]] [He [-> Hc]]]. apply (Permutation_in _ (Permutation_sym (sort_stable_perm _ _))).
    apply filter_In. split; [|now apply Nat.ltb_lt]. apply in_map_iff.
    exists (path, (fs, t)). split; [reflexivity|exact He].
Qed.

Lemma NoDup_map_filter {A B} (g : A -> B) (P : A -> bool) (l : list A) :
  NoDup (map g l) -> NoDup (map g (filter P l)).
Proof.
  induction l as [|x l IH]; simpl; [tauto|]. intros Hnd.
  inversion Hnd as [|? ? Hn Hnd']; subst. destruct (P x); simpl; [|now apply IH].
  constructor; [|now apply IH]. intros H. apply Hn.
  apply in_map_iff in H. destruct H as [y [Hy Hin]]. apply filter_In in Hin.
  apply in_map_iff. exists y. tauto.
Qed.

(** X20: [identifyModules] makes one module per first path segment (the
    segment holds no [/]) that has files below it: module paths are
    distinct, a module is named after its path, and its file count is the
    number of files in a directory whose first segment is the module's
    path; every file in a directory is counted in the module of its first
    segment, and root-level files in none. *)
Theorem identifyModules_partition (files : list file_info) :
  let ms := identifyModules files in
  NoDup (map m_path ms) /\
  (forall m, In m ms ->
     m_name m = m_path m /\ ~ In slash (list_ascii_of_string (m_path m)) /\
     m_fileCount m = List.length (filter (in_module (m_path m)) files) /\
     1 <= m_fileCount m) /\
  (forall f, In f files -> nested f = true -> exists m, In m ms /\ m_path m = seg f).
Proof.
  cbv zeta. destruct (identify_fold files) as [Hnd [Hent [Hcov _]]].
  cbv zeta in *.
  set (acc := fold_left identify_step files []) in *.
  split; [|split].
  - unfold identifyModules. fold acc.
    apply (Permutation_NoDup (Permutation_map m_path (Permutation_sym (sort_stable_perm _ _)))).
    apply NoDup_map_filter. rewrite map_map.
    replace (map (fun x => m_path (let '(path, (fs, t)) := x in _)) acc) with (keys acc);
      [exact Hnd|].
    unfold keys. apply map_ext. intros [path [fs t]]. reflexivity.
  - intros m Hm. apply identifyModules_In in Hm. fold acc in Hm.
    destruct Hm as [[path [fs t]] [He [-> Hc]]]. simpl in *.
    destruct (Hent _ _ _ He) as [Hfs Hne]. split; [reflexivity|]. split.
    + destruct fs as [|f fs']; [contradiction|].
      assert (Hf : In f (filter (in_module path) files)) by (rewrite <- Hfs; now left).
      apply filter_In in Hf. destruct Hf as [_ Hf]. unfold in_module in Hf.
      apply andb_true_iff in Hf. destruct Hf as [_ Hf]. apply String.eqb_eq in Hf.
      rewrite <- Hf. apply split_on_hd_no_sep.
    + split; [now rewrite Hfs|lia].
  - intros f Hf Hn. pose proof (Hcov f Hf Hn) as Hk. apply in_map_iff in Hk.
    destruct Hk as [[path [fs t]] [Hp He]]. simpl in Hp. subst path.
    exists (module_of (seg f, (fs, t))). split; [|reflexivity].
    apply identifyModules_In. exists (seg f, (fs, t)). split; [exact He|]. split; [reflexivity|].
    simpl. destruct (Hent _ _ _ He) as [_ Hne]. destruct fs; [contradiction|simpl; lia].
Qed.

(** X21: a module whose path is one of the priority directories is a core
    module, whatever its files are classified as. *)
Theorem identifyModules_priority_core (files : list file_info) (m : module_id) :
  In m (identifyModules files) -> isPriorityDirectory (m_path m) = true -> m_type m = MCore.
Proof.
  intros Hm Hp. apply identifyModules_In in Hm.
  destruct Hm as [[path [fs t]] [He [-> _]]].
  destruct (identify_fold files) as [_ [_ [_ Hpri]]]. exact (Hpri _ _ _ He Hp).
Qed.

Lemma identifyModules_priority_core_witness :
  In src_module (identifyModules [src_test_file]) /\
  isPriorityDirectory (m_path src_module) = true /\ m_type src_module = MCore.
Proof.
  assert (Hin : In src_module (identifyModules [src_test_file])) by (vm_compute; now left).
  assert (Hp : isPriorityDirectory (m_path src_module) = true) by reflexivity.
  split; [exact Hin|]. split; [exact Hp|].
  exact (identifyModules_priority_core [src_test_file] src_module Hin Hp).
Defined.

Definition count_lang (l : string) (files : list file_info) : nat :=
  List.length (filter (fun f => String.eqb (fi_language f) l) files).

Definition count_step (m : list (string * nat)) (f : file_info) : list (string * nat) :=
  let c := match map_get (fi_language f) m with Some c => c | None => 0 end in
  map_set (fi_language f) (S c) m.

Definition best_step (best : option (string * nat)) (lc : string * nat)
  : option (string * nat) :=
  match best with
  | None => Some lc
  | Some b => if Nat.ltb (snd b) (snd lc) then Some lc else Some b
  end.

Lemma count_fold (l : list file_info) :
  let m := fold_left count_step l [] in
  NoDup (keys m) /\
  (forall lang n, In (lang, n) m -> n = count_lang lang l) /\
  (forall f, In f l -> In (fi_language f) (keys m)) /\
  (forall lang, In lang (keys m) -> In lang (map fi_language l)).
Proof.
  induction l as [|f l IH] using rev_ind.
  - simpl. split; [constructor|]. split; [intros ? ? []|]. split; intros ? [].
  - cbv zeta in *. rewrite fold_left_app. simpl.
    set (m := fold_left count_step l []) in *.
    destruct IH as [Hnd [Hcnt [Hcov Hback]]].
    assert (Hc0 : match map_get (fi_language f) m with Some c => c | None => 0 end
                  = count_lang (fi_language f) l).
    { destruct (map_get (fi_language f) m) as [c|] eqn:Hg.
      - apply map_get_In in Hg. exact (Hcnt _ _ Hg).
      - symmetry. unfold count_lang. rewrite filter_none_nat; [reflexivity|].
        intros f' Hf'. destruct (String.eqb_spec (fi_language f') (fi_language f)) as [Heq|];
          [|reflexivity].
        exfalso. apply map_get_None in Hg. apply Hg. rewrite <- Heq. now apply Hcov. }
    unfold count_step. rewrite Hc0.
    split; [now apply NoDup_keys_map_set|]. split; [|split].
    + intros lang n Hx. apply in_map_set_nodup in Hx; [|exact Hnd].
      unfold count_lang. rewrite filter_app. simpl.
      destruct Hx as [Hx|[Hx Hne]].
      * injection Hx as -> ->. rewrite String.eqb_refl, length_app. simpl.
        unfold count_lang. lia.
      * simpl in Hne. destruct (String.eqb_spec (fi_language f) lang) as [Heq|_];
          [congruence|]. rewrite app_nil_r. exact (Hcnt _ _ Hx).
    + intros f' Hf'. apply in_app_or in Hf'. destruct Hf' as [Hf'|[<-|[]]].
      * apply keys_map_set_incl. now apply Hcov.
      * apply in_map_iff. exists (fi_language f, S (count_lang (fi_language f) l)).
        split; [reflexivity|]. apply map_get_In, map_get_set_same.
    + intros lang Hl. rewrite map_app. apply in_or_app.
      apply keys_map_set in Hl. destruct Hl as [->|Hl]; [right; now left|left; now apply Hback].
Qed.

Lemma best_fold (L : list (string * nat)) (b : string * nat) :
  exists b', fold_left best_step L (Some b) = Some b' /\ (b' = b \/ In b' L) /\
    snd b <= snd b' /\ forall x, In x L -> snd x <= snd b'.
Proof.
  revert b. induction L as [|x L IH]; intros b; simpl.
  - exists b. split; [reflexivity|]. split; [now left|]. split; [lia|]. intros ? [].
  - destruct (Nat.ltb_spec (snd b) (snd x)) as [Hlt|Hge].
    + destruct (IH x) as [b' [Hf [Hb' [Hle Hall]]]]. exists b'. split; [exact Hf|].
      split; [right; destruct Hb' as [->|H]; [now left|now right]|].
      split; [lia|]. intros y [<-|Hy]; [exact Hle|exact (Hall y Hy)].
    + destruct (IH b) as [b' [Hf [Hb' [Hle Hall]]]]. exists b'. split; [exact Hf|].
      split; [destruct Hb' as [->|H]; [now left|right; now right]|].
      split; [exact Hle|]. intros y [<-|Hy]; [lia|exact (Hall y Hy)].
Qed.

(** X22: for a non-empty file list, [primaryLanguage] returns the language
    of one of the files, and no language occurs in more files. *)
Theorem primaryLanguage_most_frequent (files : list file_info) :
  files <> [] ->
  In (primaryLanguage files) (map fi_language files) /\
  forall f, In f files -> count_lang (fi_language f) files
                          <= count_lang (primaryLanguage files) files.
Proof.
  intros Hne. destruct (count_fold files) as [Hnd [Hcnt [Hcov Hback]]]. cbv zeta in *.
  unfold primaryLanguage.
  rewrite (ListFacts.fold_left_pointwise _ count_step) by reflexivity.
  rewrite (ListFacts.fold_left_pointwise _ best_step) by (intros [[l c]|] [l' c']; reflexivity).
  set (m := fold_left count_step files []) in *.
  destruct m as [|x L] eqn:Hm.
  { exfalso. destruct files as [|f fs]; [contradiction|]. exact (Hcov f (or_introl eq_refl)). }
  simpl. destruct (best_fold L x) as [[l c] [Hf [Hb [Hle Hall]]]]. rewrite Hf.
  assert (Hin : In (l, c) (x :: L)) by (destruct Hb as [<-|H]; [now left|now right]).
  split.
  - apply Hback. apply in_map_iff. now exists (l, c).
  - intros f Hf'. pose proof (Hcov f Hf') as Hk. apply in_map_iff in Hk.
    destruct Hk as [[l' n] [Hl' Hin']]. simpl in Hl'. subst l'.
    rewrite <- (Hcnt _ _ Hin'), <- (Hcnt _ _ Hin).
    destruct Hin' as [Hx|Hin']; [subst x; exact Hle|exact (Hall _ Hin')].
Qed.

Lemma primaryLanguage_most_frequent_witness :
  [main_go; src_test_file] <> [] /\
  In (primaryLanguage [main_go; src_test_file]) (map fi_language [main_go; src_test_file]).
Proof.
  assert (H : [main_go; src_test_file] <> []) by discriminate.
  split; [exact H|].
  exact (proj1 (primaryLanguage_most_frequent [main_go; src_test_file] H)).
Defined.

End SurfaceExtras.

Module EntryPointExtras.
Local Open Scope nat_scope.
Import JsString EntryPoints.

Definition no_slash (d : string) : Prop := ~ In slash (list_ascii_of_string d).

Lemma glob_nil (s : string) : glob_match [] s = true <-> s = EmptyString.
Proof. destruct s; simpl; split; congruence. Qed.

Lemma glob_lit (c : ascii) (ts : list gtok) (s : string) :
  glob_match (GLit c :: ts) s = true <-> exists s', s = String c s' /\ glob_match ts s' = true.
Proof.
  destruct s as [|c' s]; simpl.
  - split; [discriminate|]. intros [s' [H _]]. discriminate.
  - rewrite andb_true_iff. split.
    + intros [Hc Hm]. apply Ascii.eqb_eq in Hc. subst. now exists s.
    + intros [s' [Hs Hm]]. injection Hs as -> ->. split; [apply Ascii.eqb_refl|exact Hm].
Qed.

Lemma glob_dot (ts : list gtok) (s : string) :
  glob_match (GDot :: ts) s = true <->
  exists c s', s = String c s' /\ is_line_terminator c = false /\ glob_match ts s' = true.
Proof.
  destruct s as [|c' s]; simpl.
  - split; [discriminate|]. intros [c [s' [H _]]]. discriminate.
  - rewrite andb_true_iff, negb_true_iff. split.
    + intros [Hc Hm]. now exists c', s.
    + intros [c [s' [Hs [Hc Hm]]]]. injection Hs as -> ->. now split.
Qed.

Lemma glob_plus_cons (ts : list gtok) (c : ascii) (s : string) :
  glob_match (GNotSlashPlus :: ts) (String c s) =
  negb (Ascii.eqb c slash) && (glob_match ts s || glob_match (GNotSlashPlus :: ts) s).
Proof. reflexivity. Qed.

Lemma glob_plus (ts : list gtok) (s : string) :
  glob_match (GNotSlashPlus :: ts) s = true <->
  exists d s', s = (d ++ s')%string /\ d <> EmptyString /\ no_slash d /\
               glob_match ts s' = true.
Proof.
  induction s as [|c s IH].
  - simpl. split; [discriminate|].
    intros [d [s' [H [Hd _]]]]. destruct d; [contradiction|discriminate].
  - rewrite glob_plus_cons, andb_true_iff, negb_true_iff, orb_true_iff. split.
    + intros [Hc [Hm|Hm]].
      * exists (String c EmptyString), s. split; [reflexivity|]. split; [discriminate|].
        split; [|exact Hm]. unfold no_slash. simpl. intros [H|[]].
        subst. now rewrite Ascii.eqb_refl in Hc.
      * apply IH in Hm. destruct Hm as [d [s' [-> [Hd [Hn Hm]]]]].
        exists (String c d), s'. split; [reflexivity|]. split; [discriminate|].
        split; [|exact Hm]. unfold no_slash in *. simpl. intros [H|H]; [|contradiction].
        subst. now rewrite Ascii.eqb_refl in Hc.
    + intros [d [s' [Hs [Hd [Hn Hm]]]]]. destruct d as [|c0 d]; [contradiction|].
      simpl in Hs. injection Hs as -> ->.
      unfold no_slash in Hn. simpl in Hn. split.
      * destruct (Ascii.eqb_spec c0 slash) as [->|]; [|reflexivity]. exfalso. now apply Hn; left.
      * destruct d as [|c1 d]; [left; exact Hm|right].
        apply IH. exists (String c1 d), s'. split; [reflexivity|]. split; [discriminate|].
        split; [|exact Hm]. intros H. apply Hn. now right.
Qed.

Lemma glob_lits (w : string) (ts : list gtok) (s : string) :
  glob_match (map GLit (list_ascii_of_string w) ++ ts) s = true <->
  exists s', s = (w ++ s')%string /\ glob_match ts s' = true.
Proof.
  revert s. induction w as [|c w IH]; intros s.
  - simpl. split; [intros H; now exists s|]. intros [s' [-> H]]. exact H.
  - change (map GLit (list_ascii_of_string (String c w)) ++ ts)
      with (GLit c :: (map GLit (list_ascii_of_string w) ++ ts)).
    rewrite glob_lit. split.
    + intros [s1 [-> Hm]]. apply IH in Hm. destruct Hm as [s' [-> Hm]]. now exists s'.
    + intros [s' [-> Hm]]. exists (w ++ s')%string. split; [reflexivity|]. apply IH.
      now exists s'.
Qed.

Lemma list_ascii_app (a b : string) :
  list_ascii_of_string (a ++ b) = list_ascii_of_string a ++ list_ascii_of_string b.
Proof. induction a as [|c a IH]; simpl; [reflexivity|now rewrite IH]. Qed.

Lemma length_str_app (a b : string) : String.length (a ++ b) = String.length a + String.length b.
Proof. induction a as [|c a IH]; simpl; [reflexivity|now rewrite IH]. Qed.

(** Two [[^/]+] in a row: one segment of at least two characters. *)
Lemma glob_plus_plus (ts : list gtok) (s : string) :
  glob_match (GNotSlashPlus :: GNotSlashPlus :: ts) s = true <->
  exists d s', s = (d ++ s')%string /\ 2 <= String.length d /\ no_slash d /\
               glob_match ts s' = true.
Proof.
  rewrite glob_plus. split.
  - intros [d1 [s1 [-> [Hd1 [Hn1 Hm]]]]]. apply glob_plus in Hm.
    destruct Hm as [d2 [s' [-> [Hd2 [Hn2 Hm]]]]].
    exists (d1 ++ d2)%string, s'. split; [now rewrite RegexFacts.str_app_assoc|].
    split; [|split; [|exact Hm]].
    + rewrite length_str_app. destruct d1; [contradiction|]. destruct d2; [contradiction|].
      simpl. lia.
    + unfold no_slash in *. rewrite list_ascii_app. intros H.
      apply in_app_or in H. tauto.
  - intros [d [s' [-> [Hl [Hn Hm]]]]].
    destruct d as [|a [|b r]]; simpl in Hl; try lia.
    exists (String a EmptyString), (String b r ++ s')%string.
    split; [reflexivity|]. split; [discriminate|].
    unfold no_slash in Hn. simpl in Hn. split; [simpl; intros [H|[]]; apply Hn; now left|].
    apply glob_plus. exists (String b r), s'. split; [reflexivity|]. split; [discriminate|].
    split; [|exact Hm]. unfold no_slash. intros H. apply Hn. now right.
Qed.

Lemma glob_tail (name : string) (ts_rest : string) (s : string) :
  glob_match (map GLit (list_ascii_of_string name) ++ GDot ::
              map GLit (list_ascii_of_string ts_rest) ++ []) s = true <->
  exists c, s = (name ++ String c ts_rest)%string /\ is_line_terminator c = false.
Proof.
  rewrite glob_lits. split.
  - intros [s1 [-> Hm]]. apply glob_dot in Hm. destruct Hm as [c [s2 [-> [Hc Hm]]]].
    apply glob_lits in Hm. destruct Hm as [s3 [-> Hm]]. apply glob_nil in Hm. subst.
    exists c. split; [now rewrite RegexFacts.str_app_nil_r|exact Hc].
  - intros [c [-> Hc]]. exists (String c ts_rest). split; [reflexivity|].
    apply glob_dot. exists c, ts_rest. split; [reflexivity|]. split; [exact Hc|].
    apply glob_lits. exists EmptyString. split; [|reflexivity].
    now rewrite RegexFacts.str_app_nil_r.
Qed.

Definition is_entry (relativePath : string) : bool :=
  existsb (entry_match relativePath) ENTRY_POINT_PATTERNS.

Lemma fold_push (P : file_info -> bool) (g : file_info -> string) (l : list file_info)
    (acc : list string) :
  fold_left (fun acc f => if P f then acc ++ [g f] else acc) l acc =
  acc ++ map g (filter P l).
Proof.
  revert acc. induction l as [|f l IH]; intros acc; simpl; [now rewrite app_nil_r|].
  rewrite IH. destruct (P f); simpl; [now rewrite <- app_assoc|reflexivity].
Qed.

Lemma NoDup_snoc (acc : list string) (x : string) :
  NoDup acc -> ~ In x acc -> NoDup (acc ++ [x]).
Proof.
  induction acc as [|y acc IH]; simpl; intros Hnd Hn.
  - constructor; [tauto|constructor].
  - inversion Hnd as [|? ? Hy Hnd']; subst. constructor; [|apply IH; tauto].
    intros H. apply in_app_or in H. destruct H as [H|[H|[]]]; [contradiction|].
    subst. tauto.
Qed.

Lemma set_from_fold (xs acc : list string) :
  NoDup acc ->
  let r := fold_left (fun acc x => if existsb (String.eqb x) acc then acc else acc ++ [x]) xs acc in
  NoDup r /\ forall x, In x r <-> In x acc \/ In x xs.
Proof.
  revert acc. induction xs as [|y xs IH]; intros acc Hnd; simpl.
  - split; [exact Hnd|]. tauto.
  - destruct (existsb (String.eqb y) acc) eqn:E.
    + destruct (IH acc Hnd) as [Hnd' Hin]. split; [exact Hnd'|].
      intros x. rewrite Hin. apply existsb_exists in E. destruct E as [y' [Hy' Heq]].
      apply String.eqb_eq in Heq. subst y'. split; [tauto|].
      intros [H|[->|H]]; tauto.
    + assert (Hny : ~ In y acc).
      { intros H. assert (existsb (String.eqb y) acc = true) as E'
          by (apply existsb_exists; exists y; split; [exact H|apply String.eqb_refl]).
        congruence. }
      destruct (IH (acc ++ [y]) (NoDup_snoc acc y Hnd Hny)) as [Hnd' Hin].
      split; [exact Hnd'|]. intros x. rewrite Hin, in_app_iff. simpl. tauto.
Qed.

Lemma firstn_facts (n : nat) (l : list string) :
  NoDup l ->
  NoDup (firstn n l) /\ (forall x, In x (firstn n l) -> In x l) /\
  (forall x, In x l -> In x (firstn n l) \/ List.length (firstn n l) = n).
Proof.
  intros Hnd. split; [|split].
  - rewrite <- (firstn_skipn n l) in Hnd. exact (NoDup_app_remove_r _ _ Hnd).
  - intros x Hx. rewrite <- (firstn_skipn n l). apply in_or_app. now left.
  - intros x Hx. destruct (Nat.le_gt_cases (List.length l) n) as [Hle|Hgt].
    + left. now rewrite firstn_all2.
    + right. rewrite length_firstn. lia.
Qed.

Lemma includes_star (p : string) (ts : list gtok) :
  glob_compile p = ts -> In GNotSlashPlus ts -> includes p "*" = true.
Proof.
  intros <-. induction p as [|c p IH]; [simpl; intros []|].
  change (includes (String c p) "*") with (prefix "*" (String c p) || includes p "*").
  destruct (Ascii.eqb_spec c "*"%char) as [->|Hne].
  - intros _. apply orb_true_intro. left. apply prefix_correct. destruct p; reflexivity.
  - intros H. cbn [glob_compile] in H. rewrite (proj2 (Ascii.eqb_neq _ _) Hne) in H.
    destruct H as [H|H]; [destruct (Ascii.eqb c "."%char); discriminate|].
    rewrite IH by exact H. apply orb_true_r.
Qed.

(** X23: [findEntryPoints] returns at most ten distinct paths, each the
    path of a file matching one of the entry-point patterns; a matching
    file is left out only when ten paths have already been kept. *)
Theorem findEntryPoints_spec (files : list file_info) :
  let eps := findEntryPoints files in
  List.length eps <= 10 /\ NoDup eps /\
  (forall x, In x eps -> exists f, In f files /\ fi_relativePath f = x /\ is_entry x = true) /\
  (forall f, In f files -> is_entry (fi_relativePath f) = true ->
             In (fi_relativePath f) eps \/ List.length eps = 10).
Proof.
  cbv zeta. unfold findEntryPoints.
  rewrite (fold_push (fun f => existsb (entry_match (fi_relativePath f)) ENTRY_POINT_PATTERNS)
            fi_relativePath files []).
  cbn [app]. unfold set_from.
  destruct (set_from_fold (map fi_relativePath (filter (fun f => is_entry (fi_relativePath f)) files))
              [] (NoDup_nil _)) as [Hnd Hin].
  cbv zeta in Hnd, Hin.
  set (r := fold_left _ _ []) in *.
  destruct (firstn_facts 10 r Hnd) as [Hnd' [Hsub Hall]].
  split; [rewrite length_firstn; lia|]. split; [exact Hnd'|]. split.
  - intros x Hx. apply Hsub, Hin in Hx. destruct Hx as [[]|Hx].
    apply in_map_iff in Hx. destruct Hx as [f [Hf Hx]]. apply filter_In in Hx.
    exists f. split; [tauto|]. split; [exact Hf|]. rewrite <- Hf. tauto.
  - intros f Hf He. apply Hall, Hin. right. apply in_map_iff. exists f.
    split; [reflexivity|]. now apply filter_In.
Qed.

(** X24: the three glob entry points, as the regular expression the code
    builds for them: ["cmd/*/main.go"] matches [cmd/<one non-empty
    segment>/main<any character>go], and ["**/Main.java"] and
    ["**/Application.java"] match only a file one directory deep, whose
    directory name has at least two characters, with any character in
    place of the dot. *)
Theorem entry_glob_patterns (path : string) :
  (entry_match path "cmd/*/main.go" = true <->
   exists d c, path = ("cmd/" ++ d ++ "/main" ++ String c "go")%string /\
     d <> EmptyString /\ no_slash d /\ is_line_terminator c = false) /\
  (entry_match path "**/Main.java" = true <->
   exists d c, path = (d ++ "/Main" ++ String c "java")%string /\
     2 <= String.length d /\ no_slash d /\ is_line_terminator c = false) /\
  (entry_match path "**/Application.java" = true <->
   exists d c, path = (d ++ "/Application" ++ String c "java")%string /\
     2 <= String.length d /\ no_slash d /\ is_line_terminator c = false).
Proof.
  split; [|split].
  - assert (Hc : glob_compile "cmd/*/main.go" =
                 map GLit (list_ascii_of_string "cmd/") ++ GNotSlashPlus ::
                 (map GLit (list_ascii_of_string "/main") ++ GDot ::
                  map GLit (list_ascii_of_string "go") ++ [])) by reflexivity.
    unfold entry_match. rewrite (includes_star _ _ Hc) by (apply in_or_app; right; now left).
    rewrite Hc, glob_lits. split.
    + intros [s1 [-> Hm]]. apply glob_plus in Hm. destruct Hm as [d [s2 [-> [Hd [Hn Hm]]]]].
      apply glob_tail in Hm. destruct Hm as [c [-> Hlt]]. now exists d, c.
    + intros [d [c [-> [Hd [Hn Hlt]]]]]. exists (d ++ "/main" ++ String c "go")%string.
      split; [reflexivity|]. apply glob_plus. exists d, ("/main" ++ String c "go")%string.
      split; [reflexivity|]. split; [exact Hd|]. split; [exact Hn|].
      apply glob_tail. now exists c.
  - assert (Hc : glob_compile "**/Main.java" =
                 GNotSlashPlus :: GNotSlashPlus ::
                 (map GLit (list_ascii_of_string "/Main") ++ GDot ::
                  map GLit (list_ascii_of_string "java") ++ [])) by reflexivity.
    unfold entry_match. rewrite (includes_star _ _ Hc) by now left.
    rewrite Hc, glob_plus_plus. split.
    + intros [d [s' [-> [Hl [Hn Hm]]]]]. apply glob_tail in Hm.
      destruct Hm as [c [-> Hlt]]. now exists d, c.
    + intros [d [c [-> [Hl [Hn Hlt]]]]]. exists d, ("/Main" ++ String c "java")%string.
      split; [reflexivity|]. split; [exact Hl|]. split; [exact Hn|].
      apply glob_tail. now exists c.
  - assert (Hc : glob_compile "**/Application.java" =
                 GNotSlashPlus :: GNotSlashPlus ::
                 (map GLit (list_ascii_of_string "/Application") ++ GDot ::
                  map GLit (list_ascii_of_string "java") ++ [])) by reflexivity.
    unfold entry_match. rewrite (includes_star _ _ Hc) by now left.
    rewrite Hc, glob_plus_plus. split.
    + intros [d [s' [-> [Hl [Hn Hm]]]]]. apply glob_tail in Hm.
      destruct Hm as [c [-> Hlt]]. now exists d, c.
    + intros [d [c [-> [Hl [Hn Hlt]]]]]. exists d, ("/Application" ++ String c "java")%string.
      split; [reflexivity|]. split; [exact Hl|]. split; [exact Hn|].
      apply glob_tail. now exists c.
Qed.

End EntryPointExtras.

Module RepositoryMapExtras.
Local Open Scope nat_scope.
Import JsString SurfaceLayer MapFacts SurfaceExtras RepositoryMap.

Definition is_code (f : file_info) : bool := negb (String.eqb (fi_language f) "Other").

Lemma fold_left_filter {A B} (P : B -> bool) (g : A -> B -> A) (l : list B) (a : A) :
  fold_left (fun m x => if P x then g m x else m) l a = fold_left g (filter P l) a.
Proof.
  revert a. induction l as [|x l IH]; intros a; simpl; [reflexivity|].
  destruct (P x); simpl; apply IH.
Qed.

Lemma language_counts_fold (files : list file_info) :
  language_counts files = fold_left count_step (filter is_code files) [].
Proof.
  unfold language_counts, is_code.
  rewrite <- fold_left_filter.
  apply ListFacts.fold_left_pointwise. intros m f.
  destruct (String.eqb (fi_language f) "Other"); reflexivity.
Qed.

Lemma list_sum_map_set (k : string) (c : nat) (m : list (string * nat)) :
  map_get k m = Some c \/ (map_get k m = None /\ c = 0) ->
  list_sum (map snd (map_set k (S c) m)) = S (list_sum (map snd m)).
Proof.
  induction m as [|[k' v'] m IH]; simpl.
  - intros [H|[_ ->]]; [discriminate|reflexivity].
  - destruct (String.eqb k k') eqn:E; simpl.
    + intros [H|[H _]]; [injection H as ->; lia|discriminate].
    + intros H. rewrite IH by exact H. lia.
Qed.

Lemma list_sum_count_fold (l : list file_info) (m : list (string * nat)) :
  list_sum (map snd (fold_left count_step l m)) = list_sum (map snd m) + List.length l.
Proof.
  revert m. induction l as [|f l IH]; intros m; simpl; [lia|].
  rewrite IH. unfold count_step.
  destruct (map_get (fi_language f) m) as [c|] eqn:Hg.
  - rewrite list_sum_map_set by (left; exact Hg). lia.
  - rewrite list_sum_map_set by (right; split; [exact Hg|reflexivity]). lia.
Qed.

Lemma list_sum_perm (l l' : list nat) : Permutation l l' -> list_sum l = list_sum l'.
Proof. induction 1; simpl; lia. Qed.

Lemma count_lang_code (lang : string) (files : list file_info) :
  lang <> "Other" -> count_lang lang (filter is_code files) = count_lang lang files.
Proof.
  intros Hne. unfold count_lang.
  induction files as [|f files IH]; simpl; [reflexivity|].
  unfold is_code at 1. destruct (String.eqb_spec (fi_language f) "Other") as [Ho|Ho]; simpl.
  - destruct (String.eqb_spec (fi_language f) lang); [congruence|exact IH].
  - destruct (String.eqb (fi_language f) lang); simpl; [now rewrite IH|exact IH].
Qed.

(** X25: the language breakdown of the repository map lists each language
    other than ["Other"] once, with the number of files in it (at least
    one), every such language of a file is listed, the list is sorted by
    file count, largest first, and the counts add up to the number of
    files whose language is not ["Other"] (the total the percentages are
    taken of). *)
Theorem buildLanguages_counts (files : list file_info) :
  let ls := buildLanguages files in
  NoDup (map lb_language ls) /\
  Sorted (fun a b => lb_fileCount b <= lb_fileCount a) ls /\
  (forall l, In l ls ->
     lb_language l <> "Other" /\ lb_fileCount l = count_lang (lb_language l) files /\
     1 <= lb_fileCount l) /\
  (forall f, In f files -> fi_language f <> "Other" -> In (fi_language f) (map lb_language ls)) /\
  list_sum (map lb_fileCount ls) = List.length (filter is_code files).
Proof.
  cbv zeta. unfold buildLanguages. rewrite language_counts_fold.
  destruct (count_fold (filter is_code files)) as [Hnd [Hcnt [Hcov Hback]]]. cbv zeta in *.
  set (m := fold_left count_step (filter is_code files) []) in *.
  set (mk := fun lc : string * nat =>
               let '(language, count) := lc in
               {| lb_language := language; lb_fileCount := count;
                  lb_percentage := JsNum.round (JsNum.mul (JsNum.div (JsNum.of_nat count)
                     (JsNum.of_nat (fold_left (fun sum v => sum + snd v) m 0)))
                     (JsNum.Fin 100)) |}).
  set (cmp := fun a b => (Z.of_nat (lb_fileCount b) - Z.of_nat (lb_fileCount a))%Z).
  pose proof (sort_stable_perm cmp (map mk m)) as Hperm.
  assert (Hlang : map lb_language (map mk m) = keys m)
    by (unfold keys; rewrite map_map; apply map_ext; intros [k v]; reflexivity).
  assert (Hfc : map lb_fileCount (map mk m) = map snd m)
    by (rewrite map_map; apply map_ext; intros [k v]; reflexivity).
  assert (Hin : forall l, In l (sort_stable cmp (map mk m)) -> In (lb_language l, lb_fileCount l) m).
  { intros l Hl. apply (Permutation_in _ Hperm) in Hl. apply in_map_iff in Hl.
    destruct Hl as [[k v] [<- Hkv]]. exact Hkv. }
  split; [|split; [|split; [|split]]].
  - apply (Permutation_NoDup (Permutation_map lb_language (Permutation_sym Hperm))).
    now rewrite Hlang.
  - apply (Sorted_weaken (fun a b => (cmp a b <= 0)%Z)).
    + unfold cmp. intros a b H. lia.
    + apply sort_stable_sorted. unfold cmp. intros a b. lia.
  - intros l Hl. apply Hin in Hl.
    assert (Hk : In (lb_language l) (map fi_language (filter is_code files))).
    { apply Hback. apply in_map_iff. now exists (lb_language l, lb_fileCount l). }
    apply in_map_iff in Hk. destruct Hk as [f [Hf Hk]]. apply filter_In in Hk.
    destruct Hk as [Hk Hcode].
    assert (Hno : lb_language l <> "Other").
    { unfold is_code in Hcode. rewrite Hf in Hcode.
      destruct (String.eqb_spec (lb_language l) "Other"); [discriminate|assumption]. }
    pose proof (Hcnt _ _ Hl) as Hc. rewrite count_lang_code in Hc by exact Hno.
    split; [exact Hno|]. split; [exact Hc|].
    rewrite Hc. unfold count_lang.
    assert (Hf' : In f (filter (fun f => String.eqb (fi_language f) (lb_language l)) files))
      by (apply filter_In; split; [exact Hk|]; rewrite Hf; apply String.eqb_refl).
    revert Hf'. destruct (filter (fun f => String.eqb (fi_language f) (lb_language l)) files);
      simpl; [intros []|intros _; lia].
  - intros f Hf Hno.
    apply (Permutation_in _ (Permutation_map lb_language (Permutation_sym Hperm))).
    rewrite Hlang. apply Hcov. apply filter_In. split; [exact Hf|].
    unfold is_code. destruct (String.eqb_spec (fi_language f) "Other"); [contradiction|reflexivity].
  - rewrite (list_sum_perm _ _ (Permutation_map lb_fileCount Hperm)), Hfc.
    unfold m. rewrite list_sum_count_fold. reflexivity.
Qed.

End RepositoryMapExtras.
